(** * dspp/problem.py: the alternating saddle-point solver, in Rocq

    A shallow embedding of [SaddlePointProblem] (variable fixing, constraint
    partitioning, the proximal best-response loop [_solve_DR], its
    initialisation and its final validation) and of
    [SaddleProblem._split_constraints].

    Numbers: numpy arrays are flattened to lists of exact rationals ([Qc]),
    so floating-point rounding is outside the model.  The convex solver of
    cvxpy is an oracle, a parameter of the development. *)

From Equations Require Import Equations.
From Stdlib Require Import QArith Qcanon.
From stdpp Require Import gmap list strings numbers.

Local Open Scope nat_scope.

(** ** Data model *)

(** A numpy array, flattened (C order). *)
Abbreviation ndarray := (list Qc).
Abbreviation shape := (list nat).
(** The keyword attributes of a leaf ([nonneg], [PSD], ...). *)
Abbreviation attributes := (list (string * bool)).

(** cvxpy objects are compared and hashed by identity: a [Variable] is known
    by the address of its object. *)
Abbreviation loc := positive.

(** The atoms that problem.py itself builds, and any other atom of the
    expression library, known by its class name. *)
Inductive atom : Type :=
| Add          (* e1 + e2 *)
| Sub          (* e1 - e2 *)
| Mul          (* c * e *)
| Sum          (* cp.sum *)
| Hstack       (* cp.hstack *)
| Vec          (* cp.vec *)
| SumSquares   (* cp.sum_squares *)
| Other (name : string).

#[global] Instance atom_eq_dec : EqDecision atom.
Proof. solve_decision. Defined.

(** The immutable part of a [cp.Variable]; its [value] lives in the store. *)
Record variable : Type := mkVariable {
  var_id : loc;
  var_shape : shape;
  var_attributes : attributes
}.

#[global] Instance variable_eq_dec : EqDecision variable.
Proof. solve_decision. Defined.

(** Expression trees.  Leaves have no [args]. *)
#[warnings="-register-all"]
Inductive expr : Type :=
| Var (v : variable)
| Param (sh : shape) (value : option ndarray) (attrs : attributes)
| Const (value : ndarray)
| Atom (op : atom) (args : list expr).

(** [v.value] for every variable that has one ([None] otherwise). *)
Abbreviation store := (gmap loc ndarray).

(** [expr.args] *)
Definition expr_args (e : expr) : list expr :=
  match e with
  | Atom _ args => args
  | _ => []
  end.

(** [expr.variables()]: the variable leaves, left to right. *)
Fixpoint variables (e : expr) : list variable :=
  match e with
  | Var v => [v]
  | Param _ _ _ => []
  | Const _ => []
  | Atom _ args => concat (map variables args)
  end.

(** The parameter leaves, left to right. *)
Fixpoint parameters (e : expr) : list expr :=
  match e with
  | Param sh value attrs => [Param sh value attrs]
  | Var _ => []
  | Const _ => []
  | Atom _ args => concat (map parameters args)
  end.

(** [v in set(vs)]: membership of a variable object in a collection. *)
Definition var_in (v : variable) (vs : list variable) : bool :=
  bool_decide (var_id v ∈ var_id <$> vs).

(** [set(vs) & set(ws)] is non-empty. *)
Definition intersects (vs ws : list variable) : bool :=
  existsb (λ v, var_in v ws) vs.

(** Number of nested calls [fix_vars_in_expr] makes on a tree. *)
Fixpoint height (e : expr) : nat :=
  match e with
  | Atom _ args => S (foldr Nat.max 0 (map height args))
  | _ => 1
  end.

(** ** Numeric value of an expression *)

Section Numeric.

(** The numeric function of the atoms problem.py does not build itself. *)
Variable numeric : string → list ndarray → option ndarray.

Definition Qcsum (a : ndarray) : Qc := foldr Qcplus 0%Qc a.

(** Elementwise operation with numpy's scalar broadcasting. *)
Definition elementwise (f : Qc → Qc → Qc) (a b : ndarray) : option ndarray :=
  if bool_decide (length a = length b) then Some (zip_with f a b)
  else match a, b with
       | [x], _ => Some (map (f x) b)
       | _, [y] => Some (map (λ x, f x y) a)
       | _, _ => None
       end.

Definition atom_value (op : atom) (args : list ndarray) : option ndarray :=
  match op, args with
  | Add, [a; b] => elementwise Qcplus a b
  | Sub, [a; b] => elementwise Qcminus a b
  | Mul, [a; b] => elementwise Qcmult a b
  | Sum, [a] => Some [Qcsum a]
  | Hstack, _ => Some (concat args)
  | Vec, [a] => Some a
  | SumSquares, [a] => Some [Qcsum (map (λ x, x * x)%Qc a)]
  | Other name, _ => numeric name args
  | _, _ => None
  end.

(** [expr.value] under the variable values [st]. *)
Fixpoint value_of (st : store) (e : expr) : option ndarray :=
  match e with
  | Var v => st !! var_id v
  | Param _ value _ => value
  | Const value => Some value
  | Atom op args =>
      args' ← mapM (value_of st) args;
      atom_value op args'
  end.

End Numeric.

(** ** [SaddlePointProblem.fix_vars_in_expr] on trees

    Lines 209-222.  Leaves (no [args]) are returned as they are, except a
    [Variable] of [variables], which becomes a [Parameter] of the same shape
    holding the variable's value and attributes; a node with arguments is
    rebuilt over the fixed arguments. *)
Fixpoint fix_vars_in_expr (st : store) (e : expr) (vars : list variable) : expr :=
  match e with
  | Atom op args =>
      if length args =? 0 then e
      else Atom op (map (λ arg, fix_vars_in_expr st arg vars) args)
  | Var v =>
      if var_in v vars
      then Param (var_shape v) (st !! var_id v) (var_attributes v)
      else e
  | _ => e
  end.

(** What the specification (section 4.2) says of the result, to compare
    with the function above: a leaf variable of the set becomes a
    parameter of identical shape holding its current value and attributes;
    other leaves and structural nodes pass through with already-fixed
    children. *)
#[warnings="-register-all"]
Inductive fixes (st : store) (vs : list variable) : expr → expr → Prop :=
| fixes_member v :
    var_in v vs = true →
    fixes st vs (Var v) (Param (var_shape v) (st !! var_id v) (var_attributes v))
| fixes_other v :
    var_in v vs = false → fixes st vs (Var v) (Var v)
| fixes_Param sh val attrs :
    fixes st vs (Param sh val attrs) (Param sh val attrs)
| fixes_Const val :
    fixes st vs (Const val) (Const val)
| fixes_Atom op args args' :
    Forall2 (fixes st vs) args args' →
    fixes st vs (Atom op args) (Atom op args').

(** The function on trees, under a name that stays visible where the
    function on the object graph is in scope. *)
Abbreviation fix_vars_in_tree := fix_vars_in_expr.
(** ** [fix_vars_in_expr] on the object graph

  Python expressions are objects: a node is known by its address, holds
  the addresses of its arguments, and can be shared or overwritten.  This
  module replays lines 209-222 on a heap of such objects, so that what the
  function allocates, what it overwrites and what it leaves alone can be
  stated. *)
Module Heap.

Inductive node : Type :=
| NVariable (sh : shape) (value : option ndarray) (attrs : attributes)
| NParameter (sh : shape) (value : option ndarray) (attrs : attributes)
| NConstant (value : ndarray)
| NAtom (op : atom) (args : list loc).

Abbreviation heap := (gmap loc node).

(** [n.args] *)
Definition node_args (n : node) : list loc :=
  match n with
  | NAtom _ args => args
  | _ => []
  end.

(** [n.args = args] *)
Definition set_args (n : node) (args : list loc) : node :=
  match n with
  | NAtom op _ => NAtom op args
  | _ => n
  end.

Definition is_leaf (n : node) : Prop :=
  match n with
  | NAtom _ _ => False
  | _ => True
  end.

(** A new object, at an address not in use. *)
Definition alloc (h : heap) (n : node) : heap * loc :=
  let l := fresh (dom h) in (<[l := n]> h, l).

(** [self.copy()].  cvxpy rebuilds an atom as a new object over the same
    argument objects, and returns a leaf itself: the identity test of
    line 215, [{expr_copy} & set(variables)], finds the caller's variable
    only because the copy of a [Variable] is that very object. *)
Definition copy (h : heap) (self : loc) : option (heap * loc) :=
  match h !! self with
  | Some (NAtom op args) => Some (alloc h (NAtom op args))
  | Some _ => Some (h, self)
  | None => None
  end.

(** [[f(arg) for arg in args]], the heap threaded from left to right. *)
Fixpoint comprehension (f : heap → loc → option (heap * loc))
    (h : heap) (args : list loc) : option (heap * list loc) :=
  match args with
  | [] => Some (h, [])
  | arg :: rest =>
      match f h arg with
      | None => None
      | Some (h1, arg') =>
          match comprehension f h1 rest with
          | None => None
          | Some (h2, rest') => Some (h2, arg' :: rest')
          end
      end
  end.

(** Lines 209-222; [fuel] bounds the depth of the recursion, and [None]
    is a dangling address or no fuel left. *)
Fixpoint fix_vars_in_expr (fuel : nat) (h : heap) (e : loc) (vars : list loc)
    : option (heap * loc) :=
  match fuel with
  | 0 => None
  | S fuel' =>
      match copy h e with
      | None => None
      | Some (h1, expr_copy) =>
          match h1 !! expr_copy with
          | None => None
          | Some n =>
              if length (node_args n) =? 0 then
                match n with
                | NVariable sh value attrs =>
                    if bool_decide (expr_copy ∈ vars)
                    then Some (alloc h1 (NParameter sh value attrs))
                    else Some (h1, expr_copy)
                | _ => Some (h1, expr_copy)
                end
              else
                match comprehension
                        (λ h' arg, fix_vars_in_expr fuel' h' arg vars)
                        h1 (node_args n) with
                | None => None
                | Some (h2, args') =>
                    Some (<[expr_copy := set_args n args']> h2, expr_copy)
                end
          end
      end
  end.

(** The object at [l] is the root of the tree [t]. *)
#[warnings="-register-all"]
Inductive repr (h : heap) : loc → expr → Prop :=
| repr_Var l sh value attrs :
    h !! l = Some (NVariable sh value attrs) →
    repr h l (Var (mkVariable l sh attrs))
| repr_Param l sh value attrs :
    h !! l = Some (NParameter sh value attrs) →
    repr h l (Param sh value attrs)
| repr_Const l value :
    h !! l = Some (NConstant value) →
    repr h l (Const value)
| repr_Atom l op args ts :
    h !! l = Some (NAtom op args) →
    Forall2 (repr h) args ts →
    repr h l (Atom op ts).

(** The object [k] is part of the expression rooted at [l]. *)
Inductive reach (h : heap) : loc → loc → Prop :=
| reach_here l : reach h l l
| reach_arg l op args a k :
    h !! l = Some (NAtom op args) → a ∈ args → reach h a k → reach h l k.

(** The values held by the [Variable] objects. *)
Definition values (h : heap) : store :=
  omap (λ n, match n with NVariable _ value _ => value | _ => None end) h.

(** A leaf object of [h]. *)
Definition leaf_in (h : heap) (k : loc) : Prop :=
  ∃ n, h !! k = Some n ∧ is_leaf n.

(** What a call on the tree [t] rooted at [l] in [h] yields: the old objects
    are all still there, no variable changed its value, the result is the
    root of the fixed tree, and each of its objects is either new or a leaf
    that was there before. *)
Definition fixed (vs : list variable) (h : heap) (t : expr) (h' : heap) (l' : loc) : Prop :=
  h ⊆ h' ∧
  values h' = values h ∧
  repr h' l' (fix_vars_in_tree (values h) t vs) ∧
  (∀ k, reach h' l' k → h !! k = None ∨ leaf_in h k).

(** Every object of the result is a new one. *)
Definition all_copied (h h' : heap) (l' : loc) : Prop :=
  ∀ k, reach h' l' k → h !! k = None.

End Heap.

(** ** Exceptions *)

Inductive exn : Type :=
| AssertionError
| ValueError
| TypeError
| IndexError
| NameError.

#[global] Instance exn_eq_dec : EqDecision exn.
Proof. solve_decision. Defined.

Inductive result (A : Type) : Type :=
| Ok (a : A)
| Raise (e : exn).
Arguments Ok {A} a.
Arguments Raise {A} e.

(** ** Constraints *)

(** A [Constraint] object: its identity and the expressions it relates. *)
Record constraint : Type := mkConstraint {
  con_id : loc;
  con_args : list expr
}.

#[global] Instance expr_eq_dec : EqDecision expr.
Proof.
  refine (fix go (e1 e2 : expr) : Decision (e1 = e2) :=
    match e1, e2 with
    | Var v1, Var v2 => cast_if (decide (v1 = v2))
    | Param s1 v1 a1, Param s2 v2 a2 =>
        cast_if_and3 (decide (s1 = s2)) (decide (v1 = v2)) (decide (a1 = a2))
    | Const v1, Const v2 => cast_if (decide (v1 = v2))
    | Atom o1 l1, Atom o2 l2 =>
        cast_if_and (decide (o1 = o2)) (@list_eq_dec _ go l1 l2)
    | _, _ => right _
    end); congruence.
Defined.

#[global] Instance constraint_eq_dec : EqDecision constraint.
Proof. solve_decision. Defined.

(** [c.variables()] *)
Definition constraint_variables (c : constraint) : list variable :=
  concat (map variables (con_args c)).

(** [constraints.remove(c)]: the first occurrence of the object goes. *)
Fixpoint list_remove (c : constraint) (constraints : list constraint) : list constraint :=
  match constraints with
  | [] => []
  | c' :: rest =>
      if bool_decide (c' = c) then rest
      else c' :: list_remove c rest
  end.

(** The constraint refers to a variable of [vs]: [c_vars & vs]. *)
Definition touches (vs : list variable) (c : constraint) : bool :=
  intersects (constraint_variables c) vs.

(** The four kinds of constraint, for the players [xs] and [ys]. *)
Definition mixed (xs ys : list variable) (c : constraint) : bool :=
  touches xs c && touches ys c.
Definition orphan (xs ys : list variable) (c : constraint) : bool :=
  negb (touches xs c) && negb (touches ys c).
Definition only (xs ys : list variable) (c : constraint) : bool :=
  touches xs c && negb (touches ys c).

(** ** [SaddleProblem._split_constraints], lines 121-146 *)

Section SplitConstraints.

(** [self.x_vars] and [self.y_vars] *)
Variables x_vars y_vars : list variable.

(** The lists the loop works on: [x_constraints], [y_constraints] and what
    is left of [constraints]. *)
Definition split_state : Type :=
  list constraint * list constraint * list constraint.

(** Lines 130-139, one run of [for c in list(constraints)] over the copy
    [todo]. *)
Fixpoint split_pass (todo : list constraint) (s : split_state) : result split_state :=
  match todo with
  | [] => Ok s
  | c :: todo' =>
      let '(x_constraints, y_constraints, constraints) := s in
      let c_vars := constraint_variables c in
      if intersects c_vars x_vars then
        if intersects c_vars y_vars then Raise AssertionError
        else split_pass todo'
               (x_constraints ++ [c], y_constraints, list_remove c constraints)
      else if intersects c_vars y_vars then
        if intersects c_vars x_vars then Raise AssertionError
        else split_pass todo'
               (x_constraints, y_constraints ++ [c], list_remove c constraints)
      else split_pass todo' s
  end.

(** A pass never makes [constraints] longer. *)
Lemma list_remove_length c constraints :
  length (list_remove c constraints) ≤ length constraints.
Proof.
  induction constraints as [| c' rest IH]; simpl; [lia |].
  case_bool_decide; simpl; lia.
Qed.

Lemma split_pass_length todo : ∀ x y constraints x' y' constraints',
  split_pass todo (x, y, constraints) = Ok (x', y', constraints') →
  length constraints' ≤ length constraints.
Proof.
  induction todo as [| c todo IH]; intros x y cs x' y' cs'; simpl.
  - intros [= <- <- <-]. lia.
  - destruct (intersects _ x_vars); [destruct (intersects _ y_vars) |
      destruct (intersects _ y_vars)]; try done;
      intros H%IH; pose proof (list_remove_length c cs); lia.
Qed.

(** Lines 128-142, the [while constraints:] loop. *)
Equations? split_while (x_constraints y_constraints constraints : list constraint)
  : result (list constraint * list constraint)
  by wf (length constraints) lt :=
split_while x_constraints y_constraints [] := Ok (x_constraints, y_constraints);
split_while x_constraints y_constraints (c :: rest)
  with Logic.inspect (split_pass (c :: rest) (x_constraints, y_constraints, c :: rest)) := {
  | exist _ (Raise e) _ := Raise e
  | exist _ (Ok (x', y', constraints')) Hpass
      with decide (length (c :: rest) = length constraints') := {
      | left _ := Raise ValueError
      | right Hprogress := split_while x' y' constraints' } }.
Proof.
  apply split_pass_length in Hpass. simpl in *. lia.
Qed.

(** Lines 121-146. *)
Definition _split_constraints (constraints : list constraint)
  : result (list constraint * list constraint) :=
  let n_constraints := length constraints in
  match split_while [] [] constraints with
  | Raise e => Raise e
  | Ok (x_constraints, y_constraints) =>
      if negb (length x_constraints + length y_constraints =? n_constraints)
      then Raise AssertionError
      else if intersects x_vars y_vars then Raise AssertionError
      else Ok (x_constraints, y_constraints)
  end.

End SplitConstraints.

(** ** The convex solve service (cvxpy's [Problem]) *)

Inductive sense : Type := Minimize | Maximize.

Record Problem : Type := mkProblem {
  prob_sense : sense;
  prob_objective : expr;
  prob_constraints : list constraint
}.

Inductive status : Type := OPTIMAL | INFEASIBLE | UNBOUNDED | SOLVER_ERROR.

#[global] Instance status_eq_dec : EqDecision status.
Proof. solve_decision. Defined.

(** What a solve reports: [prob.status], the primal value of every variable
    and [prob.value]. *)
Record solution : Type := mkSolution {
  sol_status : status;
  sol_primal : loc → ndarray;
  sol_value : Qc
}.

(** Each object once, in order of first occurrence. *)
Definition unique_list (vs : list variable) : list variable :=
  foldl (λ acc v, if var_in v acc then acc else acc ++ [v]) [] vs.

(** [cp.Problem(...).variables()]: the variables of the objective and of
    the constraints. *)
Definition problem_variables (p : Problem) : list variable :=
  unique_list (variables (prob_objective p) ++
               concat (map constraint_variables (prob_constraints p))).

(** [v.size] *)
Definition var_size (v : variable) : nat := foldr Nat.mul 1 (var_shape v).

(** ** The state of a run *)

(** What [print] wrote. *)
Inductive line : Type :=
| PrintDelta (k : nat) (delta : Qc)
| PrintGap (gap max_obj min_obj : Qc).

(** One call of the solve service: the problem, the variable values it was
    called at, and the status it reported. *)
Record call : Type := mkCall {
  call_problem : Problem;
  call_values : store;
  call_status : status
}.

(** The variable values, and (for the statements only) the solver calls made
    and the lines printed so far. *)
Record world : Type := mkWorld {
  var_values : store;
  calls : list call;
  stdout : list line
}.

(** A computation that reads and writes the world and may raise. *)
Definition M (A : Type) : Type := world → result A * world.

#[global] Instance M_ret : MRet M := λ A a w, (Ok a, w).
#[global] Instance M_bind : MBind M := λ A B f m w,
  match m w with
  | (Ok a, w') => f a w'
  | (Raise e, w') => (Raise e, w')
  end.

#[global] Instance result_ret : MRet result := λ A a, Ok a.
#[global] Instance result_bind : MBind result := λ A B f r,
  match r with
  | Ok a => f a
  | Raise e => Raise e
  end.

Definition raise {A : Type} (e : exn) : M A := λ w, (Raise e, w).

(** [assert b] *)
Definition assert (b : bool) : M unit :=
  if b then mret tt else raise AssertionError.

(** A construction that only reads the variable values. *)
Definition reading {A : Type} (f : store → result A) : M A :=
  λ w, (f (var_values w), w).

(** [v.value = a] *)
Definition set_value (v : variable) (a : option ndarray) : M unit := λ w,
  (Ok tt, mkWorld (match a with
                   | Some a => <[var_id v := a]> (var_values w)
                   | None => delete (var_id v) (var_values w)
                   end) (calls w) (stdout w)).

Definition print (l : line) : M unit := λ w,
  (Ok tt, mkWorld (var_values w) (calls w) (stdout w ++ [l])).

(** [for a in l: f(a)] *)
Fixpoint for_each {A : Type} (f : A → M unit) (l : list A) : M unit :=
  match l with
  | [] => mret tt
  | a :: l' => f a;; for_each f l'
  end.

(** The values a solve hands back, written to the variables of the
    problem. *)
Definition save_values (primal : loc → ndarray) (vs : list variable) (st : store) : store :=
  foldr (λ v st, <[var_id v := primal (var_id v)]> st) st vs.

(** ** numpy *)

Definition Qcabs (x : Qc) : Qc := if decide (0 ≤ x)%Qc then x else (- x)%Qc.
Definition Qcmax (x y : Qc) : Qc := if decide (x ≤ y)%Qc then y else x.

(** [np.mean(hist, axis=0)], for arrays of one shape (the history of one
    variable): the sum of the entries of the history, over their number. *)
Definition np_mean (hist : list ndarray) : ndarray :=
  match hist with
  | [] => []
  | a :: rest =>
      map (λ x, x / Q2Qc (inject_Z (Z.of_nat (length hist))))%Qc
          (foldl (zip_with Qcplus) a rest)
  end.

(** [np.linalg.norm(a, np.inf)]; the maximum of no entry is an error. *)
Definition norm_inf (a : ndarray) : result Qc :=
  match a with
  | [] => Raise ValueError
  | x :: rest => Ok (foldl (λ m y, Qcmax m (Qcabs y)) (Qcabs x) rest)
  end.

(** [np.zeros((rows, cols))] *)
Definition np_zeros (rows : Z) (cols : nat) : result (list ndarray) :=
  if decide (rows < 0)%Z then Raise ValueError
  else Ok (replicate (Z.to_nat rows) (replicate cols 0%Qc)).

(** [plot_array[i] = a]: [a] has the length of a row, or one entry that is
    repeated along the row. *)
Definition setitem (plot_array : list ndarray) (cols : nat) (i : nat) (a : ndarray)
  : result (list ndarray) :=
  if bool_decide (length a = cols) then Ok (<[i := a]> plot_array)
  else match a with
       | [x] => Ok (<[i := replicate cols x]> plot_array)
       | _ => Raise ValueError
       end.

(** [a - b] on arrays. *)
Definition np_sub (a b : ndarray) : result ndarray :=
  match elementwise Qcminus a b with
  | Some c => Ok c
  | None => Raise ValueError
  end.

(** ** [SaddlePointProblem] *)

Record SaddlePointProblem : Type := mkSaddlePointProblem {
  objective : expr;
  constraints : list constraint;
  min_vars : list variable;
  max_vars : list variable
}.

(** Lines 224-226. *)
Definition _validate_inputs (self : SaddlePointProblem) : result unit :=
  if negb (0 <? length (min_vars self)) then Raise AssertionError
  else if negb (0 <? length (max_vars self)) then Raise AssertionError
  else Ok tt.

(** [set(vs) == set(ws)] *)
Definition same_set (vs ws : list variable) : bool :=
  forallb (λ v, var_in v ws) vs && forallb (λ w, var_in w vs) ws.

(** The local variables of the loop of [_solve_DR]; the two histories are
    unbound until the first iteration binds them. *)
Record locals : Type := mkLocals {
  max_vars_hist : option (list (list ndarray));
  min_vars_hist : option (list (list ndarray));
  plot_array : list ndarray
}.

(** Reading a local variable. *)
Definition get_local {A : Type} (o : option A) : M A :=
  match o with
  | Some a => mret a
  | None => raise NameError
  end.

(** [v.value] where an array is needed: [None] is an error there. *)
Definition value (st : store) (v : variable) : result ndarray :=
  match st !! var_id v with
  | Some a => Ok a
  | None => Raise TypeError
  end.

(** The array a variable holds (no entry when it holds [None]). *)
Definition current (st : store) (v : variable) : ndarray :=
  default [] (st !! var_id v).

(** [[[v.value] for v in vars]], lines 250 and 268. *)
Definition hist_start (vars : list variable) (st : store) : result (list (list ndarray)) :=
  mapM (λ v, a ← value st v; Ok [a]) vars.

(** [for hist, new_val in zip(hists, vars): hist.append(new_val.value)],
    lines 252-253 and 270-271. *)
Fixpoint hist_append (hists : list (list ndarray)) (vars : list variable) (st : store)
  : result (list (list ndarray)) :=
  match hists, vars with
  | hist :: hists', new_val :: vars' =>
      a ← value st new_val;
      rest ← hist_append hists' vars' st;
      Ok ((hist ++ [a]) :: rest)
  | _, _ => Ok hists
  end.

(** [[cp.sum_squares(v - v.value) for v in vars]], lines 243 and 261. *)
Definition prox_terms (st : store) (vars : list variable) : result (list expr) :=
  mapM (λ v, a ← value st v; Ok (Atom SumSquares [Atom Sub [Var v; Const a]])) vars.

(** The sum of the squares of the entries of [x - c]. *)
Definition sum_squares (x c : ndarray) : Qc :=
  Qcsum (map (λ d, d * d)%Qc (zip_with Qcminus x c)).

(** The sum, over the variables [vars], of the squared distance between the
    value of the variable at [st] and its value at [center]. *)
Definition penalty (st center : store) (vars : list variable) : Qc :=
  Qcsum (map (λ v, sum_squares (current st v) (current center v)) vars).

(** The expression [alpha * cp.sum(cp.hstack(prox_terms))] for the
    variables [vars] around their values at [center]. *)
Definition weighted_prox (alpha : Qc) (center : store) (vars : list variable) : expr :=
  Atom Mul [Const [alpha];
            Atom Sum [Atom Hstack
              (map (λ v, Atom SumSquares [Atom Sub [Var v; Const (current center v)]])
                   vars)]].

(** [0 * cp.sum(cp.hstack([cp.vec(v) for v in vars]))], lines 296 and 304. *)
Definition zero_weighted (vars : list variable) : expr :=
  Atom Mul [Const [0%Qc];
            Atom Sum [Atom Hstack (map (λ v, Atom Vec [Var v]) vars)]].

(** [for k in range(n)], from [k] on, with [break]. *)
Fixpoint for_range (n : nat) (k : nat) (body : nat → locals → M (bool * locals))
    (l : locals) : M locals :=
  match n with
  | 0 => mret l
  | S n' =>
      '(stop, l') ← body k l;
      if stop : bool then mret l' else for_range n' (S k) body l'
  end.

(** Lines 249-253 and 267-271: the history of each variable of [vars]
    takes the variable's value; the first iteration starts the histories. *)
Definition record (k : nat) (hists : option (list (list ndarray)))
    (vars : list variable) : M (list (list ndarray)) :=
  if k =? 0 then reading (hist_start vars)
  else hists ← get_local hists;
       reading (hist_append hists vars).

(** [plot_array[i]] *)
Definition getitem (plot_array : list ndarray) (i : nat) : result ndarray :=
  match plot_array !! i with
  | Some row => Ok row
  | None => Raise IndexError
  end.

(** The aggregate point: the mean of each history, side by side. *)
Definition aggregate (min_vars_hist max_vars_hist : list (list ndarray)) : ndarray :=
  concat (map np_mean (min_vars_hist ++ max_vars_hist)).

(** Lines 273-285: the stopping criterion of iteration [k]; the boolean is
    [break], the list is [plot_array] afterwards. *)
Definition stopping_criterion (eps : Qc) (cols k : nat) (plot_array : list ndarray)
    (min_vars_hist max_vars_hist : list (list ndarray)) : M (bool * list ndarray) :=
  if 0 <? k then
    let current_array := aggregate min_vars_hist max_vars_hist in
    plot_array ← reading (λ _, setitem plot_array cols (k - 1) current_array);
    if 1 <? k then
      previous ← reading (λ _, getitem plot_array (k - 2));
      difference ← reading (λ _, np_sub previous current_array);
      delta ← reading (λ _, norm_inf difference);
      print (PrintDelta k delta);;
      if bool_decide (delta ≤ eps)%Qc then mret (true, plot_array)
      else mret (false, plot_array)
    else mret (false, plot_array)
  else mret (false, plot_array).

Section Solve.

(** The numerical solver: what it reports for a problem, called at the
    current variable values. *)
Variable solver : Problem → store → solution.

Variable self : SaddlePointProblem.

(** Modelled from the spec: the solve service of the expression library
    ([Problem.solve]), which is not part of the repository.  It reports a
    status and an optimal value, and writes the values of the variables of
    the problem on success only. *)
Definition Problem_solve (p : Problem) : M solution := λ w,
  let s := solver p (var_values w) in
  (Ok s,
   mkWorld (match sol_status s with
            | OPTIMAL => save_values (sol_primal s) (problem_variables p) (var_values w)
            | _ => var_values w
            end)
           (calls w ++ [mkCall p (var_values w) (sol_status s)])
           (stdout w)).

(** The world after an optimal solve of [p]. *)
Definition solved (p : Problem) (w : world) : world :=
  mkWorld (save_values (sol_primal (solver p (var_values w)))
             (problem_variables p) (var_values w))
          (calls w ++ [mkCall p (var_values w) OPTIMAL])
          (stdout w).

(** Lines 196-205, the loop over [self.constraints]. *)
Fixpoint relevant (fixed_vars non_fixed_vars : list variable)
    (cs : list constraint) (relevant_constraints : list constraint)
  : result (list constraint) :=
  match cs with
  | [] => Ok relevant_constraints
  | constraint :: rest =>
      let constraint_vars := constraint_variables constraint in
      if intersects fixed_vars constraint_vars then
        if intersects non_fixed_vars constraint_vars then Raise AssertionError
        else relevant fixed_vars non_fixed_vars rest relevant_constraints
      else if intersects non_fixed_vars constraint_vars then
        if intersects fixed_vars constraint_vars then Raise AssertionError
        else relevant fixed_vars non_fixed_vars rest
               (relevant_constraints ++ [constraint])
      else Raise ValueError
  end.

(** Lines 187-207, at the variable values [st]. *)
Definition fix_vars (st : store) (fixed_vars : list variable)
  : result (expr * list constraint) :=
  if negb (same_set fixed_vars (min_vars self) || same_set fixed_vars (max_vars self))
  then Raise AssertionError
  else
    let min_and_max_vars := min_vars self ++ max_vars self in
    let non_fixed_vars :=
      List.filter (λ v, negb (var_in v fixed_vars)) min_and_max_vars in
    let fixed_obj := fix_vars_in_expr st (objective self) fixed_vars in
    relevant_constraints ← relevant fixed_vars non_fixed_vars (constraints self) [];
    Ok (fixed_obj, relevant_constraints).

(** [self.variables], lines 168-170. *)
Definition self_variables : list variable :=
  problem_variables (mkProblem Minimize (objective self) (constraints self)).

(** Lines 242-245: the maximization problem of an iteration. *)
Definition maximization_problem (alpha : Qc) (st : store) : result Problem :=
  '(max_obj, max_constr) ← fix_vars st (min_vars self);
  prox_terms ← prox_terms st (max_vars self);
  let max_obj :=
    Atom Sub [max_obj; Atom Mul [Const [alpha]; Atom Sum [Atom Hstack prox_terms]]] in
  Ok (mkProblem Maximize max_obj max_constr).

(** Lines 260-263: the minimization problem of an iteration. *)
Definition minimization_problem (alpha : Qc) (st : store) : result Problem :=
  '(min_obj, min_constr) ← fix_vars st (max_vars self);
  prox_terms ← prox_terms st (min_vars self);
  let min_obj :=
    Atom Add [min_obj; Atom Mul [Const [alpha]; Atom Sum [Atom Hstack prox_terms]]] in
  Ok (mkProblem Minimize min_obj min_constr).

(** Lines 293-307. *)
Definition initialize_variables : M unit :=
  '(_, min_constr) ← reading (λ st, fix_vars st (max_vars self));
  let zero_weighted_vars := zero_weighted (min_vars self) in
  let prob :=
    mkProblem Minimize (Atom Add [Const [0%Qc]; zero_weighted_vars]) min_constr in
  s ← Problem_solve prob;
  assert (bool_decide (sol_status s = OPTIMAL));;
  '(_, max_constr) ← reading (λ st, fix_vars st (min_vars self));
  let zero_weighted_vars := zero_weighted (max_vars self) in
  let prob :=
    mkProblem Maximize (Atom Add [Const [0%Qc]; zero_weighted_vars]) max_constr in
  s ← Problem_solve prob;
  assert (bool_decide (sol_status s = OPTIMAL)).

(** Lines 236-285: one iteration; the boolean is [break]. *)
Definition iteration (alpha eps : Qc) (cols : nat) (k : nat) (l : locals)
  : M (bool * locals) :=
  (* 1. Maximization *)
  maximization_problem ← reading (maximization_problem alpha);
  s ← Problem_solve maximization_problem;
  assert (bool_decide (sol_status s = OPTIMAL));;
  max_vars_hist ← record k (max_vars_hist l) (max_vars self);
  (* 2. Minimization *)
  minimization_problem ← reading (minimization_problem alpha);
  s ← Problem_solve minimization_problem;
  assert (bool_decide (sol_status s = OPTIMAL));;
  min_vars_hist ← record k (min_vars_hist l) (min_vars self);
  (* 3. Check stopping criterion *)
  '(stop, plot_array) ←
    stopping_criterion eps cols k (plot_array l) min_vars_hist max_vars_hist;
  mret (stop, mkLocals (Some max_vars_hist) (Some min_vars_hist) plot_array).

(** Lines 231-285: initialisation and the loop. *)
Definition iterations (max_iters : Z) (alpha eps : Qc) : M locals :=
  initialize_variables;;
  let cols := sum_list (var_size <$> self_variables) in
  plot_array ← reading (λ _, np_zeros (max_iters - 1) cols);
  for_range (Z.to_nat max_iters) 0 (iteration alpha eps cols)
    (mkLocals None None plot_array).

(** Lines 287-290: every variable takes the mean of its history. *)
Definition finalize (l : locals) : M unit :=
  min_vars_hist ← get_local (min_vars_hist l);
  for_each (λ '(min_var_i, hist), set_value min_var_i (Some (np_mean hist)))
    (zip (min_vars self) min_vars_hist);;
  max_vars_hist ← get_local (max_vars_hist l);
  for_each (λ '(max_var_i, hist), set_value max_var_i (Some (np_mean hist)))
    (zip (max_vars self) max_vars_hist).

(** Lines 309-334. *)
Definition _validate_saddlepoint : M unit :=
  max_vars_pre_validation ←
    reading (λ st, Ok ((λ v, st !! var_id v) <$> max_vars self));
  min_vars_pre_validation ←
    reading (λ st, Ok ((λ v, st !! var_id v) <$> min_vars self));
  '(max_obj, max_constr) ← reading (λ st, fix_vars st (min_vars self));
  let maximization_problem := mkProblem Maximize max_obj max_constr in
  s ← Problem_solve maximization_problem;
  assert (bool_decide (sol_status s = OPTIMAL));;
  let maximization_obj_value := sol_value s in
  for_each (λ '(max_var_i, max_var_prev_i), set_value max_var_i max_var_prev_i)
    (zip (max_vars self) max_vars_pre_validation);;
  '(min_obj, min_constr) ← reading (λ st, fix_vars st (max_vars self));
  let minimization_problem := mkProblem Minimize min_obj min_constr in
  s ← Problem_solve minimization_problem;
  assert (bool_decide (sol_status s = OPTIMAL));;
  let minimization_obj_value := sol_value s in
  for_each (λ '(min_var_i, min_var_prev_i), set_value min_var_i min_var_prev_i)
    (zip (min_vars self) min_vars_pre_validation);;
  let gap := Qcabs (maximization_obj_value - minimization_obj_value) in
  print (PrintGap gap maximization_obj_value minimization_obj_value).

(** Lines 228-291.  The argument [alpha] is rebound on line 229. *)
Definition _solve_DR (max_iters : Z) (alpha : Qc) (eps : Qc) : M unit :=
  let alpha := Q2Qc 2 in
  l ← iterations max_iters alpha eps;
  finalize l;;
  _validate_saddlepoint.

(** Lines 181-185. *)
Definition solve (method : string) (max_iters : Z) (alpha eps : Qc) : M unit :=
  if String.eqb method "DR" then _solve_DR max_iters alpha eps
  else raise ValueError.

End Solve.

(** ** What a run did with the solver *)

(** A feasibility-only problem for one side: the zero-weighted sum of the
    side's variables as objective, over the side's own constraints, which
    are the constraints of the problem that refer to a variable of the side
    and to none of the other side, in the order of the problem. *)
Definition feasibility_problem (self : SaddlePointProblem) (s : sense)
    (side other : list variable) (p : Problem) : Prop :=
  prob_sense p = s ∧
  prob_objective p = Atom Add [Const [0%Qc]; zero_weighted side] ∧
  prob_constraints p = List.filter (only side other) (constraints self).

(** Each variable of [vars] holds the mean of its history. *)
Definition holds_means (vars : list variable) (hists : list (list ndarray))
    (st : store) : Prop :=
  length hists = length vars ∧
  ∀ i v hist,
    vars !! i = Some v → hists !! i = Some hist →
    st !! var_id v = Some (np_mean hist).

(** The two solves of an iteration that went from [w] to [w']: first the
    maximizer's problem, the objective with the minimizer's variables fixed
    at their values in [w] minus [alpha] times the squared distance of the
    maximizer's variables to their values in [w]; then the minimizer's
    problem, built from the values the first solve left: the objective with
    the maximizer's variables fixed at those values plus [alpha] times the
    squared distance of the minimizer's variables to theirs. *)
Definition best_responses (solver : Problem → store → solution)
    (self : SaddlePointProblem) (alpha : Qc) (w w' : world) : Prop :=
  ∃ max_constr min_constr,
    let max_obj := fix_vars_in_expr (var_values w) (objective self) (min_vars self) in
    let pmax :=
      mkProblem Maximize
        (Atom Sub [max_obj; weighted_prox alpha (var_values w) (max_vars self)])
        max_constr in
    let s := solver pmax (var_values w) in
    let st1 := save_values (sol_primal s) (problem_variables pmax) (var_values w) in
    let min_obj := fix_vars_in_expr st1 (objective self) (max_vars self) in
    let pmin :=
      mkProblem Minimize
        (Atom Add [min_obj; weighted_prox alpha st1 (min_vars self)])
        min_constr in
    calls w' = calls w ++ [mkCall pmax (var_values w) OPTIMAL;
                           mkCall pmin st1 OPTIMAL] ∧
    (∀ c, c ∈ max_constr → c ∈ constraints self ∧ touches (min_vars self) c = false) ∧
    (∀ c, c ∈ min_constr → c ∈ constraints self ∧ touches (max_vars self) c = false) ∧
    (∀ y, y ∈ max_vars self → st1 !! var_id y = Some (sol_primal s (var_id y))) ∧
    (∀ numeric (st : store) f,
       value_of numeric st max_obj = Some [f] →
       Forall (λ v, is_Some (st !! var_id v) ∧
                    length (current st v) = length (current (var_values w) v))
              (max_vars self) →
       value_of numeric st (prob_objective pmax) =
         Some [(f - alpha * penalty st (var_values w) (max_vars self))%Qc]) ∧
    (∀ numeric (st : store) f,
       value_of numeric st min_obj = Some [f] →
       Forall (λ v, is_Some (st !! var_id v) ∧
                    length (current st v) = length (current st1 v))
              (min_vars self) →
       value_of numeric st (prob_objective pmin) =
         Some [(f + alpha * penalty st st1 (min_vars self))%Qc]).


(** Both histories are bound, with one history for each variable. *)
Definition bound (self : SaddlePointProblem) (l : locals) : Prop :=
  ∃ maxh minh,
    max_vars_hist l = Some maxh ∧ min_vars_hist l = Some minh ∧
    length maxh = length (max_vars self) ∧
    length minh = length (min_vars self).

(** Every solver call so far was optimal. *)
Definition all_optimal (w : world) : Prop :=
  Forall (λ c, call_status c = OPTIMAL) (calls w).

(** The last solver call was the first that was not optimal, and the
    variables are as that call found them. *)
Definition aborted (w : world) : Prop :=
  ∃ pre c,
    calls w = pre ++ [c] ∧
    Forall (λ c, call_status c = OPTIMAL) pre ∧
    call_status c ≠ OPTIMAL ∧
    var_values w = call_values c.

(** How a computation may end: normally or on some other error with
    every call optimal, or on a failed assertion right after the first call
    that was not optimal. *)
Definition outcome {A : Type} (r : result A) (w : world) : Prop :=
  match r with
  | Ok _ => all_optimal w
  | Raise e => all_optimal w ∨ (e = AssertionError ∧ aborted w)
  end.

(** A computation that checks each solve it makes. *)
Definition guarded {A : Type} (m : M A) : Prop :=
  ∀ w r w', all_optimal w → m w = (r, w') → outcome r w'.

(** ** The histories and the solver calls *)






(** ** A small instance

    min over [x], max over [y] of [x * y], with [x >= -1] and [y <= 1];
    both variables are scalars. *)
Module Example.

Definition x : variable := mkVariable 1 [] [].
Definition y : variable := mkVariable 2 [] [].

Definition one : Qc := 1%Qc.

Definition x_lower : constraint := mkConstraint 10 [Const [(- one)%Qc]; Var x].
Definition y_upper : constraint := mkConstraint 11 [Var y; Const [one]].

Definition problem : SaddlePointProblem :=
  mkSaddlePointProblem (Atom Mul [Var x; Var y]) [x_lower; y_upper] [x] [y].

(** The same problem with one more minimizer variable, [z], that is in no
    constraint and not in the objective. *)
Definition z : variable := mkVariable 3 [] [].

Definition unused : SaddlePointProblem :=
  mkSaddlePointProblem (Atom Mul [Var x; Var y]) [x_lower; y_upper] [x; z] [y].

(** A solver that finds every problem optimal at the origin. *)
Definition origin : Problem → store → solution :=
  λ _ _, mkSolution OPTIMAL (λ _, [0%Qc]) 0%Qc.

(** A solver that finds the minimizer's side infeasible once [y] has a
    value, that is from the first best-response step on. *)
Definition stuck : Problem → store → solution :=
  λ p st,
    match prob_sense p, st !! var_id y with
    | Minimize, Some _ => mkSolution INFEASIBLE (λ _, []) 0%Qc
    | _, _ => mkSolution OPTIMAL (λ _, [0%Qc]) 0%Qc
    end.

(** The world before anything ran. *)
Definition start : world := mkWorld ∅ [] [].

(** The expression [x * y + 1] as objects, [x] holding 5 and [y] holding 7. *)
Definition tree : expr := Atom Add [Atom Mul [Var x; Var y]; Const [one]].

Definition heap : gmap loc Heap.node :=
  {[ 1%positive := Heap.NVariable [] (Some [Q2Qc 5]) [];
     2%positive := Heap.NVariable [] (Some [Q2Qc 7]) [];
     3%positive := Heap.NConstant [one];
     4%positive := Heap.NAtom Mul [1%positive; 2%positive];
     5%positive := Heap.NAtom Add [4%positive; 3%positive] ]}.

End Example.

(** ** More of the data model *)

(** The assignment that gives the variables of [vs] what they hold at [st]
    (a value or [None]) and every other variable what it holds at [sigma]. *)
Definition fixed_at (st : store) (vs : list variable) (sigma : store) : store :=
  foldr (λ v m, match st !! var_id v with
                | Some a => <[var_id v := a]> m
                | None => delete (var_id v) m
                end) sigma vs.

(** Both histories are bound, with one history of [n] entries for each
    variable. *)
Definition recorded (self : SaddlePointProblem) (n : nat) (l : locals) : Prop :=
  ∃ maxh minh,
    max_vars_hist l = Some maxh ∧ min_vars_hist l = Some minh ∧
    length maxh = length (max_vars self) ∧
    length minh = length (min_vars self) ∧
    Forall (λ h, length h = n) maxh ∧
    Forall (λ h, length h = n) minh.

(** The lines that [print(k, delta)] writes in consecutive iterations, the
    first of them iteration [k]. *)
Definition delta_lines (k : nat) (deltas : list Qc) : list line :=
  imap (λ i delta, PrintDelta (k + i) delta) deltas.

(** Every variable the problem mentions: in its objective, in a constraint
    or in one of the two declared lists. *)
Definition footprint (self : SaddlePointProblem) : list variable :=
  variables (objective self) ++
  concat (map constraint_variables (constraints self)) ++
  min_vars self ++ max_vars self.

(** Every declared variable holds a value. *)
Definition defined (self : SaddlePointProblem) (st : store) : Prop :=
  ∀ v, v ∈ min_vars self ++ max_vars self → is_Some (st !! var_id v).

(** A computation that, started with variable values of [I], returns with
    variable values of [I] and a result of [phi], or raises
    [AssertionError] or [ValueError]: it does not read a local variable that
    is not bound ([NameError]), index out of range ([IndexError]) or use the
    value of a variable that has none ([TypeError]). *)
Definition safe {A : Type} (I : store → Prop) (m : M A) (phi : A → Prop) : Prop :=
  ∀ w r w',
    I (var_values w) →
    m w = (r, w') →
    match r with
    | Ok a => I (var_values w') ∧ phi a
    | Raise e => e = AssertionError ∨ e = ValueError
    end.

(** A solver that finds every problem optimal at the origin, and reports
    the optimal value 100 for a maximization and 0 for a minimization. *)
Definition far_apart : Problem → store → solution :=
  λ p _, mkSolution OPTIMAL (λ _, [0%Qc])
           (match prob_sense p with
            | Maximize => Q2Qc 100
            | Minimize => 0%Qc
            end).

(** A computation that writes to no variable but those the problem
    mentions, however it ends. *)
Definition framed {A : Type} (self : SaddlePointProblem) (m : M A) : Prop :=
  ∀ w r w' i,
    m w = (r, w') →
    i ∉ var_id <$> footprint self →
    var_values w' !! i = var_values w !! i.

(** ** [SaddlePointProblem.is_dspp], lines 172-179

    [is_dcp] is the rule check of the expression library, which is not part
    of the repository; [st] holds the variable values at the call. *)
Definition is_dspp (is_dcp : Problem → bool) (self : SaddlePointProblem)
    (st : store) : result bool :=
  '(min_obj, min_constr) ← fix_vars self st (max_vars self);
  let minimization_problem := mkProblem Minimize min_obj min_constr in
  '(max_obj, max_constr) ← fix_vars self st (min_vars self);
  let maximization_problem := mkProblem Maximize max_obj max_constr in
  Ok (is_dcp minimization_problem && is_dcp maximization_problem).

(** * Facts *)

(** Induction on expression trees that reaches the arguments of an atom. *)
Lemma expr_ind' (P : expr → Prop) :
  (∀ v, P (Var v)) →
  (∀ sh value attrs, P (Param sh value attrs)) →
  (∀ value, P (Const value)) →
  (∀ op args, Forall P args → P (Atom op args)) →
  ∀ e, P e.
Proof.
  intros HV HP HC HA.
  fix IH 1. intros [v | sh value attrs | value | op args].
  - apply HV.
  - apply HP.
  - apply HC.
  - apply HA. induction args as [| a args IHargs]; constructor.
    + apply IH.
    + apply IHargs.
Qed.


(** ** Variable fixing on trees *)

Lemma var_in_spec v vs : var_in v vs = true ↔ var_id v ∈ var_id <$> vs.
Proof. unfold var_in. apply bool_decide_eq_true. Qed.

Lemma var_in_nil v : var_in v [] = false.
Proof. done. Qed.

Lemma intersects_spec vs ws :
  intersects vs ws = true ↔ ∃ v, v ∈ vs ∧ var_id v ∈ var_id <$> ws.
Proof.
  unfold intersects. rewrite existsb_exists. split.
  - intros (v & Hv%list_elem_of_In & Hin%var_in_spec). eauto.
  - intros (v & Hv%list_elem_of_In & Hin%var_in_spec). eauto.
Qed.

Lemma intersects_comm vs ws : intersects vs ws = intersects ws vs.
Proof.
  apply eq_true_iff_eq. rewrite !intersects_spec. split.
  - intros (v & Hv & (w & Hvw & Hw)%list_elem_of_fmap).
    exists w. split; [done |]. rewrite <- Hvw. by apply list_elem_of_fmap_2.
  - intros (v & Hv & (w & Hvw & Hw)%list_elem_of_fmap).
    exists w. split; [done |]. rewrite <- Hvw. by apply list_elem_of_fmap_2.
Qed.

Lemma elem_of_concat_map {A B} (f : A → list B) (l : list A) (b : B) :
  b ∈ concat (map f l) ↔ ∃ a, a ∈ l ∧ b ∈ f a.
Proof.
  rewrite list_elem_of_In, <- flat_map_concat_map, in_flat_map.
  split; intros (a & Ha & Hb); exists a;
    by rewrite ?list_elem_of_In in *.
Qed.

(** Every variable left in a fixed tree is a variable of the tree that was
    not to be fixed. *)
Lemma variables_fix_vars_in_expr st vs e :
  ∀ v, v ∈ variables (fix_vars_in_expr st e vs) →
       v ∈ variables e ∧ var_in v vs = false.
Proof.
  induction e as [w | sh val attrs | val | op args IH] using expr_ind';
    intros v; simpl.
  - destruct (var_in w vs) eqn:Hw; simpl.
    + by intros ?%elem_of_nil.
    + intros ->%list_elem_of_singleton. split; [by left | done].
  - by intros ?%elem_of_nil.
  - by intros ?%elem_of_nil.
  - destruct (length args =? 0) eqn:Hlen.
    + apply Nat.eqb_eq in Hlen. destruct args; [| done].
      by intros ?%elem_of_nil.
    + simpl. rewrite map_map.
      intros (a & Ha & Hv)%elem_of_concat_map.
      rewrite list.Forall_forall in IH. destruct (IH a Ha v Hv) as [Hv' Hno].
      split; [| done]. apply elem_of_concat_map. eauto.
Qed.

(** Fixing no variable returns the tree. *)
Lemma fix_vars_in_expr_nil st e : fix_vars_in_expr st e [] = e.
Proof.
  induction e as [w | sh val attrs | val | op args IH] using expr_ind';
    simpl; try done.
  destruct (length args =? 0); [done |]. f_equal.
  induction IH as [| a args Ha _ IHargs]; simpl; [done |].
  by rewrite Ha, IHargs.
Qed.

Lemma fix_vars_in_expr_fixes st vs e : fixes st vs e (fix_vars_in_expr st e vs).
Proof.
  induction e as [w | sh val attrs | val | op args IH] using expr_ind';
    simpl; try by constructor.
  - destruct (var_in w vs) eqn:Hw; by constructor.
  - destruct (length args =? 0) eqn:Hlen.
    + apply Nat.eqb_eq in Hlen. destruct args; [| done].
      constructor. constructor.
    + constructor. clear Hlen.
      induction IH as [| a args Ha _ IHargs]; simpl; by constructor.
Qed.

(** ** The object graph *)
Module HeapFacts.
Import Heap.

Lemma alloc_fresh (h : heap) n h' l :
  alloc h n = (h', l) → h !! l = None ∧ h' = <[l := n]> h.
Proof.
  unfold alloc. intros [= <- <-]. split; [| done].
  apply not_elem_of_dom, is_fresh.
Qed.

Lemma alloc_subseteq (h : heap) n h' l : alloc h n = (h', l) → h ⊆ h'.
Proof.
  intros [Hl ->]%alloc_fresh. by apply insert_subseteq.
Qed.

Lemma values_lookup (h : heap) l :
  values h !! l =
    match h !! l with
    | Some (NVariable _ value _) => value
    | _ => None
    end.
Proof.
  unfold values. rewrite lookup_omap. by destruct (h !! l) as [[]|].
Qed.

(** Writing an object that is not a [Variable] leaves all values alone. *)
Lemma values_insert (h : heap) l n :
  (∀ sh value attrs, n ≠ NVariable sh value attrs) →
  (∀ sh value attrs, h !! l ≠ Some (NVariable sh value attrs)) →
  values (<[l := n]> h) = values h.
Proof.
  intros Hn Hl. apply map_eq. intros k. rewrite !values_lookup.
  destruct (decide (k = l)) as [-> | Hne].
  - rewrite lookup_insert_eq.
    destruct n; try done; try (by exfalso; eapply Hn);
      destruct (h !! l) as [[]|] eqn:E; try done; by exfalso; eapply Hl.
  - by rewrite lookup_insert_ne.
Qed.

Lemma Forall2_repr_mono (h h' : heap) ts :
  Forall (λ t, ∀ l, repr h l t → repr h' l t) ts →
  ∀ args, Forall2 (repr h) args ts → Forall2 (repr h') args ts.
Proof.
  induction 1 as [| t ts Ht _ IHts]; intros args HF;
    inversion HF; subst; constructor; eauto.
Qed.

Lemma repr_mono t : ∀ (h h' : heap) l, h ⊆ h' → repr h l t → repr h' l t.
Proof.
  induction t as [v | sh val attrs | val | op ts IH] using expr_ind';
    intros h h' l Hsub Hr; inversion Hr; subst.
  - econstructor. eapply lookup_weaken; eauto.
  - econstructor. eapply lookup_weaken; eauto.
  - econstructor. eapply lookup_weaken; eauto.
  - econstructor; [eapply lookup_weaken; eauto |].
    eapply Forall2_repr_mono; [| eassumption].
    eapply Forall_impl; [| exact IH]. simpl. eauto.
Qed.

(** Growing the heap adds nothing to an expression that is already there. *)
Lemma reach_weaken (h h' : heap) l k :
  reach h' l k → ∀ t, h ⊆ h' → repr h l t → reach h l k.
Proof.
  induction 1 as [l | l op args a k Hl Ha Hr IH]; intros t Hsub Hrepr.
  - constructor.
  - inversion Hrepr as [? ? ? ? Hn | ? ? ? ? Hn | ? ? Hn | ? ? args0 ts Hn HF];
      subst; pose proof (lookup_weaken _ _ _ _ Hn Hsub) as Hn'; simplify_eq.
    destruct (proj1 (list_elem_of_lookup _ _) Ha) as [i Hi].
    destruct (Forall2_lookup_l _ _ _ _ _ HF Hi) as (ta & _ & Hta).
    econstructor; eauto.
Qed.

(** Overwriting an object that an expression does not contain. *)
Lemma reach_insert_inv (h : heap) l1 n l k :
  reach (<[l1 := n]> h) l k →
  (∀ k', reach h l k' → k' ≠ l1) →
  reach h l k.
Proof.
  induction 1 as [l | l op args a k Hl Ha Hr IH]; intros Hno.
  - constructor.
  - assert (l ≠ l1) as Hne by (apply Hno; constructor).
    rewrite lookup_insert_ne in Hl by done.
    econstructor; eauto. apply IH. intros k' Hk'. apply Hno.
    econstructor; eauto.
Qed.

Lemma repr_insert t : ∀ (h : heap) l1 n l,
  repr h l t →
  (∀ k', reach h l k' → k' ≠ l1) →
  repr (<[l1 := n]> h) l t.
Proof.
  induction t as [v | sh val attrs | val | op ts IH] using expr_ind';
    intros h l1 n l Hr Hno; inversion Hr; subst;
    (assert (l ≠ l1) as Hne by (apply Hno; constructor)).
  - econstructor. by rewrite lookup_insert_ne.
  - econstructor. by rewrite lookup_insert_ne.
  - econstructor. by rewrite lookup_insert_ne.
  - econstructor; [by rewrite lookup_insert_ne |].
    assert (∀ a k', a ∈ args → reach h a k' → k' ≠ l1) as Hargs.
    { intros a k' Ha Hk'. apply Hno. econstructor; eauto. }
    clear Hr Hno. 
    match goal with H : Forall2 _ _ ts |- _ => revert H end.
    revert Hargs. generalize args.
    induction IH as [| t ts Ht _ IHts]; intros args' Hargs HF;
      inversion HF; subst; constructor.
    + apply Ht; [done |]. intros k' Hk'. eapply Hargs; [left | done].
    + apply IHts; [| done]. intros a k' Ha. apply Hargs. by right.
Qed.

Lemma reach_leaf (h : heap) l k n :
  reach h l k → h !! l = Some n → is_leaf n → k = l.
Proof.
  destruct 1 as [l | l op args a k Hl]; [done |].
  intros Hn Hleaf. rewrite Hl in Hn. by simplify_eq.
Qed.

Lemma old_or_leaf_weaken (h h1 : heap) k :
  h ⊆ h1 → h1 !! k = None ∨ leaf_in h1 k → h !! k = None ∨ leaf_in h k.
Proof.
  intros Hsub [Hnone | (n & Hn & Hleaf)].
  - left. destruct (h !! k) as [n |] eqn:E; [| done].
    by rewrite (lookup_weaken _ _ _ _ E Hsub) in Hnone.
  - destruct (h !! k) as [n' |] eqn:E; [| by left].
    right. exists n'. split; [done |].
    rewrite (lookup_weaken _ _ _ _ E Hsub) in Hn. by simplify_eq.
Qed.

Lemma height_elem t (ts : list expr) :
  t ∈ ts → height t ≤ foldr Nat.max 0 (map height ts).
Proof.
  induction 1 as [t ts | t t' ts _ IH]; simpl; lia.
Qed.

(** The list comprehension of line 220, given the calls on the arguments. *)
Lemma comprehension_fixed vs fuel ts :
  Forall (λ t, ∀ (h : heap) l, repr h l t →
     ∃ h' l', fix_vars_in_expr fuel h l (var_id <$> vs) = Some (h', l') ∧
              fixed vs h t h' l') ts →
  ∀ (h : heap) args, Forall2 (repr h) args ts →
  ∃ h' args',
    comprehension (λ h' arg, fix_vars_in_expr fuel h' arg (var_id <$> vs)) h args
      = Some (h', args') ∧
    h ⊆ h' ∧
    values h' = values h ∧
    Forall2 (repr h') args'
      (map (λ t, fix_vars_in_tree (values h) t vs) ts) ∧
    Forall (λ a', ∀ k, reach h' a' k → h !! k = None ∨ leaf_in h k) args'.
Proof.
  induction 1 as [| t ts Ht _ IHts]; intros h args HF; inversion HF; subst.
  - exists h, []. repeat split; try done; constructor.
  - match goal with H : repr h ?a t |- _ =>
      destruct (Ht h a H) as (h1 & a' & Hcall & Hsub1 & Hval1 & Hrep1 & Hnew1)
    end.
    match goal with H : Forall2 (repr h) ?l ts |- _ =>
      destruct (IHts h1 l) as (h2 & rest' & Hrest & Hsub2 & Hval2 & Hrep2 & Hnew2)
    end.
    { eapply Forall2_impl; [| eassumption]. intros ? ?. by apply repr_mono. }
    exists h2, (a' :: rest'). simpl. rewrite Hcall, Hrest.
    split; [done |]. split; [by etrans |]. split; [congruence |]. split.
    + constructor; [by eapply repr_mono | by rewrite <- Hval1].
    + constructor.
      * intros k Hk. apply Hnew1. eapply reach_weaken; eauto.
      * eapply Forall_impl; [| exact Hnew2]. simpl. intros a'' Ha k Hk.
        eapply old_or_leaf_weaken; eauto.
Qed.

(** Lines 209-222 on the object graph compute [fix_vars_in_expr] on trees,
    for any tree and any fuel above its height. *)
Lemma fix_vars_in_expr_fixed vs t :
  ∀ (h : heap) l fuel, repr h l t → height t ≤ fuel →
  ∃ h' l', fix_vars_in_expr fuel h l (var_id <$> vs) = Some (h', l') ∧
           fixed vs h t h' l'.
Proof.
  induction t as [v | sh val attrs | val | op ts IH] using expr_ind';
    intros h l [| fuel] Hr Hfuel; simpl in Hfuel; try lia;
    inversion Hr; subst; simpl; unfold copy.
  - (* a Variable *)
    match goal with H : h !! l = _ |- _ => rewrite H; simpl; rewrite H end.
    simpl. unfold fixed. simpl. unfold var_in. simpl.
    match goal with H : h !! l = Some (NVariable _ ?x _) |- _ => set (val := x) in * end.
    case_bool_decide.
    + destruct (alloc h (NParameter sh val attrs)) as [h' l'] eqn:Ha.
      destruct (alloc_fresh _ _ _ _ Ha) as [Hl' ->].
      exists (<[l' := NParameter sh val attrs]> h), l'.
      split; [done |]. split; [by apply insert_subseteq |].
      split; [apply values_insert; [done | by rewrite Hl'] |]. split.
      * rewrite values_lookup.
        match goal with H : h !! l = _ |- _ => rewrite H end.
        constructor. apply lookup_insert_eq.
      * intros k Hk. eapply reach_leaf in Hk;
          [| apply lookup_insert_eq | done]. subst. by left.
    + exists h, l. split; [done |]. split; [done |]. split; [done |].
      split; [exact Hr |].
      intros k Hk. eapply reach_leaf in Hk; [| eassumption | done]. subst.
      right. eexists. split; [eassumption | done].
  - (* a Parameter *)
    match goal with H : h !! l = _ |- _ => rewrite H; simpl; rewrite H end.
    simpl. exists h, l. repeat split; try done.
    intros k Hk. eapply reach_leaf in Hk; [| eassumption | done]. subst.
    right. eexists. split; [eassumption | done].
  - (* a Constant *)
    match goal with H : h !! l = _ |- _ => rewrite H; simpl; rewrite H end.
    simpl. exists h, l. repeat split; try done.
    intros k Hk. eapply reach_leaf in Hk; [| eassumption | done]. subst.
    right. eexists. split; [eassumption | done].
  - (* an atom *)
    match goal with H : h !! l = _ |- _ => rename H into Hl end.
    match goal with H : Forall2 _ _ ts |- _ => rename H into HF end.
    rewrite Hl.
    destruct (alloc h (NAtom op args)) as [h1 l1] eqn:Ha.
    destruct (alloc_fresh _ _ _ _ Ha) as [Hl1 ->].
    rewrite lookup_insert_eq. simpl.
    pose proof (Forall2_length HF) as Hlen. unfold fixed. simpl.
    rewrite <- Hlen.
    destruct (length args =? 0) eqn:Hzero.
    + (* no arguments *)
      apply Nat.eqb_eq in Hzero.
      destruct args; [| done]. destruct ts; [| done].
      exists (<[l1 := NAtom op []]> h), l1.
      split; [done |]. split; [by apply insert_subseteq |].
      split; [apply values_insert; [done | by rewrite Hl1] |]. split.
      * econstructor; [apply lookup_insert_eq | constructor].
      * intros k Hk. inversion Hk as [| ? ? ? a ? Hn Hin]; subst; [by left |].
        rewrite lookup_insert_eq in Hn. simplify_eq. by apply elem_of_nil in Hin.
    + (* the arguments are fixed one after the other *)
      set (h1 := <[l1 := NAtom op args]> h).
      assert (h ⊆ h1) as Hsub1 by by apply insert_subseteq.
      assert (values h1 = values h) as Hval1
        by (apply values_insert; [done | by rewrite Hl1]).
      destruct (comprehension_fixed vs fuel ts) with (h := h1) (args := args)
        as (h2 & args' & Hcomp & Hsub2 & Hval2 & Hrep2 & Hnew2).
      { apply list.Forall_forall. intros t Ht h0 l0 Hr0.
        rewrite list.Forall_forall in IH. apply IH; [done.. |].
        pose proof (height_elem _ _ Ht). lia. }
      { eapply Forall2_impl; [| eassumption]. intros ? ?. by apply repr_mono. }
      rewrite Hcomp.
      exists (<[l1 := NAtom op args']> h2), l1.
      assert (h2 !! l1 = Some (NAtom op args)) as Hl1'.
      { eapply lookup_weaken; [| exact Hsub2]. apply lookup_insert_eq. }
      assert (∀ a', a' ∈ args' → ∀ k, reach h2 a' k → k ≠ l1) as Hnot.
      { intros a' Ha' k Hk ->. rewrite list.Forall_forall in Hnew2.
        destruct (Hnew2 a' Ha' l1 Hk) as [Hnone | (n & Hn & Hleaf)].
        - unfold h1 in Hnone. by rewrite lookup_insert_eq in Hnone.
        - unfold h1 in Hn. rewrite lookup_insert_eq in Hn. by simplify_eq. }
      split; [done |]. split; [| split; [| split]].
      * apply map_subseteq_spec. intros k n Hk.
        assert (k ≠ l1) by (intros ->; congruence).
        rewrite lookup_insert_ne by done.
        eapply lookup_weaken; [| exact Hsub2].
        eapply lookup_weaken; [exact Hk | exact Hsub1].
      * rewrite values_insert; [congruence | done | by rewrite Hl1'].
      * econstructor; [apply lookup_insert_eq |].
        rewrite Hval1 in Hrep2.
        apply Forall2_same_length_lookup_2; [by eapply Forall2_length |].
        intros i a' t' Hi Ht'.
        apply repr_insert.
        -- eapply Forall2_lookup_lr; eauto.
        -- apply Hnot. by eapply list_elem_of_lookup_2.
      * intros k Hk.
        inversion Hk as [| ? ? ? a' ? Hn Hin Hreach]; subst; [by left |].
        rewrite lookup_insert_eq in Hn. simplify_eq.
        apply reach_insert_inv in Hreach; [| by apply Hnot].
        rewrite list.Forall_forall in Hnew2.
        eapply old_or_leaf_weaken; [exact Hsub1 |]. by eapply Hnew2.
Qed.

End HeapFacts.

(** ** Constraint partitioning *)
Section SplitFacts.

Variables x_vars y_vars : list variable.

(** [constraints.remove(c)] for each [c] of a list, in turn. *)
Definition remove_all (rs : list constraint) (cs : list constraint) : list constraint :=
  foldl (λ cs c, list_remove c cs) cs rs.

Lemma list_remove_head c cs : list_remove c (c :: cs) = cs.
Proof. simpl. by rewrite bool_decide_eq_true_2. Qed.

Lemma remove_all_skip rs : ∀ a cs,
  a ∉ rs → remove_all rs (a :: cs) = a :: remove_all rs cs.
Proof.
  induction rs as [| r rs IH]; intros a cs Ha; [done |].
  apply not_elem_of_cons in Ha as [Hne Ha]. simpl.
  rewrite bool_decide_eq_false_2 by done. by apply IH.
Qed.

(** Removing every occurrence that a test selects leaves the others. *)
Lemma remove_all_filter (P : constraint → bool) cs :
  remove_all (List.filter P cs) cs = List.filter (λ c, negb (P c)) cs.
Proof.
  induction cs as [| a cs IH]; [done |]. simpl.
  destruct (P a) eqn:Ha; simpl.
  - rewrite bool_decide_eq_true_2 by done. apply IH.
  - rewrite remove_all_skip; [by rewrite IH |].
    intros Hin%list_elem_of_In%filter_In. destruct Hin. congruence.
Qed.

Lemma remove_all_app rs1 rs2 cs :
  remove_all (rs1 ++ rs2) cs = remove_all rs2 (remove_all rs1 cs).
Proof. unfold remove_all. by rewrite foldl_app. Qed.

(** One pass: an assertion fails at the first mixed constraint; otherwise
    each one-sided constraint moves to its side and orphans stay. *)
Lemma split_pass_spec todo : ∀ x y cs,
  split_pass x_vars y_vars todo (x, y, cs) =
    if existsb (mixed x_vars y_vars) todo then Raise AssertionError
    else Ok (x ++ List.filter (only x_vars y_vars) todo,
             y ++ List.filter (only y_vars x_vars) todo,
             remove_all
               (List.filter (λ c, negb (orphan x_vars y_vars c)) todo) cs).
Proof.
  induction todo as [| c todo IH]; intros x y cs; simpl.
  - by rewrite !app_nil_r.
  - unfold mixed, only, orphan, touches in *.
    destruct (intersects (constraint_variables c) x_vars) eqn:Hx;
      destruct (intersects (constraint_variables c) y_vars) eqn:Hy; simpl;
      try done; rewrite IH; destruct (existsb _ todo); try done;
      by rewrite <- ?app_assoc.
Qed.

Lemma filter_length_le {A} (P : A → bool) l : length (List.filter P l) ≤ length l.
Proof. induction l as [| a l IH]; simpl; [lia |]. destruct (P a); simpl; lia. Qed.

Lemma filter_length_eq {A} (P : A → bool) l :
  length (List.filter P l) = length l → forallb P l = true.
Proof.
  induction l as [| a l IH]; simpl; [done |].
  pose proof (filter_length_le P l).
  destruct (P a); simpl; [auto with lia | lia].
Qed.

Lemma filter_all {A} (P : A → bool) l : forallb P l = true → List.filter P l = l.
Proof.
  induction l as [| a l IH]; simpl; [done |].
  intros [-> Hl]%andb_prop. by rewrite IH.
Qed.

Lemma filter_none {A} (P : A → bool) l : existsb P l = false → List.filter P l = [].
Proof.
  induction l as [| a l IH]; simpl; [done |].
  intros [-> Hl]%orb_false_elim. by apply IH.
Qed.

Lemma existsb_filter_negb {A} (P : A → bool) l :
  existsb P l = negb (forallb (λ a, negb (P a)) l).
Proof.
  induction l as [| a l IH]; simpl; [done |].
  rewrite IH. by destruct (P a).
Qed.

(** Orphans only: a pass moves nothing. *)
Lemma only_orphans_stuck cs :
  forallb (orphan x_vars y_vars) cs = true →
  existsb (mixed x_vars y_vars) cs = false ∧
  List.filter (only x_vars y_vars) cs = [] ∧
  List.filter (only y_vars x_vars) cs = [] ∧
  List.filter (λ c, negb (orphan x_vars y_vars c)) cs = [].
Proof.
  induction cs as [| c cs IH]; simpl; [done |].
  intros [Hc Hcs]%andb_prop. destruct (IH Hcs) as (-> & -> & -> & ->).
  unfold orphan, mixed, only in *.
  destruct (touches x_vars c), (touches y_vars c); done.
Qed.

Lemma filter_orphan_nil cs :
  List.filter (orphan x_vars y_vars) cs = [] →
  existsb (orphan x_vars y_vars) cs = false.
Proof.
  induction cs as [| c cs IH]; simpl; [done |].
  destruct (orphan x_vars y_vars c); [done | auto].
Qed.

Lemma filter_orphan_cons cs c' rest' :
  List.filter (orphan x_vars y_vars) cs = c' :: rest' →
  existsb (orphan x_vars y_vars) cs = true.
Proof.
  intros E. apply existsb_exists. exists c'.
  assert (In c' (List.filter (orphan x_vars y_vars) cs)) as Hin
    by (rewrite E; by left).
  by apply filter_In in Hin.
Qed.

(** A pass over the whole list, when no constraint is mixed. *)
Lemma split_pass_all cs x y :
  existsb (mixed x_vars y_vars) cs = false →
  split_pass x_vars y_vars cs (x, y, cs) =
    Ok (x ++ List.filter (only x_vars y_vars) cs,
        y ++ List.filter (only y_vars x_vars) cs,
        List.filter (orphan x_vars y_vars) cs).
Proof.
  intros Hmixed. rewrite split_pass_spec, Hmixed, remove_all_filter.
  do 2 f_equal. apply filter_ext. intros a. apply negb_involutive.
Qed.

(** The loop of lines 128-142, in closed form. *)
Lemma split_while_spec cs : ∀ x y,
  existsb (mixed x_vars y_vars) cs = false →
  split_while x_vars y_vars x y cs =
    if existsb (orphan x_vars y_vars) cs then Raise ValueError
    else Ok (x ++ List.filter (only x_vars y_vars) cs,
             y ++ List.filter (only y_vars x_vars) cs).
Proof.
  intros x y. funelim (split_while x_vars y_vars x y cs); intros Hmixed;
    try (remember (c :: rest) as cs eqn:Ecs;
         pose proof (split_pass_all cs x_constraints y_constraints Hmixed) as E).
  - simpl. by rewrite !app_nil_r.
  - (* the pass raised: there is no mixed constraint to raise on *)
    congruence.
  - (* nothing moved: every constraint is an orphan *)
    rewrite Hpass in E. injection E as -> -> ->.
    match goal with H : length cs = length _ |- _ =>
      pose proof (filter_length_eq _ _ (eq_sym H)) as Hall end.
    rewrite Ecs in Hall |- *. simpl in Hall |- *.
    apply andb_prop in Hall as [-> _]. done.
  - (* something moved: the next pass sees the orphans that are left *)
    rewrite Hpass in E. injection E as -> -> ->.
    set (cs' := List.filter (orphan x_vars y_vars) cs) in *.
    assert (forallb (orphan x_vars y_vars) cs' = true) as Hcs'.
    { apply forallb_forall. intros a Ha. by apply filter_In in Ha as [_ Ha]. }
    destruct (only_orphans_stuck _ Hcs') as (Hm & Hx & Hy & Hrm).
    match goal with IH : _ → split_while _ _ _ _ _ = _ |- _ =>
      rewrite (IH Hm), Hx, Hy, !app_nil_r end.
    destruct cs' as [| c' rest'] eqn:Ecs'.
    + by rewrite (filter_orphan_nil _ Ecs').
    + rewrite (filter_orphan_cons _ _ _ Ecs'). simpl in Hcs' |- *.
      apply andb_prop in Hcs' as [-> _]. done.
Qed.

Lemma split_while_mixed cs : ∀ x y,
  existsb (mixed x_vars y_vars) cs = true →
  split_while x_vars y_vars x y cs = Raise AssertionError.
Proof.
  intros x y. funelim (split_while x_vars y_vars x y cs); intros Hmixed;
    try (pose proof (split_pass_spec (c :: rest) x_constraints y_constraints
                       (c :: rest)) as E; rewrite Hmixed in E);
    try done; congruence.
Qed.

Lemma one_sided_lengths cs :
  existsb (mixed x_vars y_vars) cs = false →
  existsb (orphan x_vars y_vars) cs = false →
  length (List.filter (only x_vars y_vars) cs) +
  length (List.filter (only y_vars x_vars) cs) = length cs.
Proof.
  induction cs as [| c cs IH]; simpl; [done |].
  intros [Hm Hms]%orb_false_elim [Ho Hos]%orb_false_elim.
  specialize (IH Hms Hos). unfold mixed, orphan, only in *.
  destruct (touches x_vars c), (touches y_vars c); simpl in *; try done; lia.
Qed.

(** Lines 121-146 in closed form. *)
Lemma split_constraints_closed cs :
  _split_constraints x_vars y_vars cs =
    if existsb (mixed x_vars y_vars) cs then Raise AssertionError
    else if existsb (orphan x_vars y_vars) cs then Raise ValueError
    else if intersects x_vars y_vars then Raise AssertionError
    else Ok (List.filter (only x_vars y_vars) cs,
             List.filter (only y_vars x_vars) cs).
Proof.
  unfold _split_constraints.
  destruct (existsb (mixed x_vars y_vars) cs) eqn:Hm.
  - by rewrite split_while_mixed.
  - rewrite split_while_spec by done.
    destruct (existsb (orphan x_vars y_vars) cs) eqn:Ho; [done |]. simpl.
    rewrite one_sided_lengths by done. by rewrite Nat.eqb_refl.
Qed.

End SplitFacts.

(** ** Variables of a problem, values written by a solve *)

Lemma unique_list_ids vs :
  ∀ i, i ∈ var_id <$> unique_list vs ↔ i ∈ var_id <$> vs.
Proof.
  unfold unique_list.
  assert (∀ acc i, i ∈ var_id <$>
            foldl (λ acc v, if var_in v acc then acc else acc ++ [v]) acc vs ↔
            i ∈ var_id <$> acc ∨ i ∈ var_id <$> vs) as H.
  { induction vs as [| v vs IH]; intros acc i; cbn [foldl].
    - split; [by left | by intros [? | ?%elem_of_nil]].
    - rewrite IH, fmap_cons. destruct (var_in v acc) eqn:Hv.
      + apply var_in_spec in Hv. set_solver.
      + rewrite fmap_app. set_solver. }
  intros i. rewrite H. set_solver.
Qed.

Lemma save_values_lookup primal vs (st : store) i :
  save_values primal vs st !! i =
    if bool_decide (i ∈ var_id <$> vs) then Some (primal i) else st !! i.
Proof.
  induction vs as [| v vs IH]; [done |].
  cbn [save_values foldr]. fold (save_values primal vs st). rewrite fmap_cons.
  destruct (decide (var_id v = i)) as [<- | Hne].
  - rewrite lookup_insert_eq. rewrite bool_decide_eq_true_2; [done | by left].
  - rewrite lookup_insert_ne by done. rewrite IH.
    repeat case_bool_decide; set_solver.
Qed.

(** ** Computations *)

Lemma bind_run {A B} (m : M A) (f : A → M B) w :
  (m ≫= f) w =
    match m w with
    | (Ok a, w') => f a w'
    | (Raise e, w') => (Raise e, w')
    end.
Proof. done. Qed.

Lemma guarded_ret {A} (a : A) : guarded (mret a).
Proof. intros w r w' Hw [= <- <-]. done. Qed.

Lemma guarded_raise {A} e : guarded (raise e : M A).
Proof. intros w r w' Hw [= <- <-]. by left. Qed.

Lemma guarded_assert b : guarded (assert b).
Proof. destruct b; [apply guarded_ret | apply guarded_raise]. Qed.

Lemma guarded_reading {A} (f : store → result A) : guarded (reading f).
Proof.
  intros w r w' Hw [= <- <-]. destruct (f _); simpl; [done | by left].
Qed.

Lemma guarded_get_local {A} (o : option A) : guarded (get_local o).
Proof. destruct o; [apply guarded_ret | apply guarded_raise]. Qed.

Lemma guarded_set_value v a : guarded (set_value v a).
Proof. intros w r w' Hw [= <- <-]. done. Qed.

Lemma guarded_print l : guarded (print l).
Proof. intros w r w' Hw [= <- <-]. done. Qed.

Lemma guarded_bind {A B} (m : M A) (f : A → M B) :
  guarded m → (∀ a, guarded (f a)) → guarded (m ≫= f).
Proof.
  intros Hm Hf w r w' Hw. rewrite bind_run.
  destruct (m w) as [[a | e] w1] eqn:E.
  - specialize (Hm _ _ _ Hw E). simpl in Hm. by apply Hf.
  - intros [= <- <-]. by apply (Hm _ _ _ Hw E).
Qed.

Lemma guarded_for_each {A} (f : A → M unit) l :
  (∀ a, guarded (f a)) → guarded (for_each f l).
Proof.
  intros Hf. induction l as [| a l IH]; simpl.
  - apply guarded_ret.
  - apply guarded_bind; [apply Hf | by intros _].
Qed.

Lemma guarded_for_range body :
  (∀ k l, guarded (body k l)) → ∀ n k l, guarded (for_range n k body l).
Proof.
  intros Hbody. induction n as [| n IH]; intros k l; simpl.
  - apply guarded_ret.
  - apply guarded_bind; [apply Hbody |]. intros [[] l'].
    + apply guarded_ret.
    + apply IH.
Qed.

Lemma bind_ok {A B} (m : M A) (f : A → M B) w b w' :
  (m ≫= f) w = (Ok b, w') →
  ∃ a w1, m w = (Ok a, w1) ∧ f a w1 = (Ok b, w').
Proof.
  rewrite bind_run. destruct (m w) as [[a | e] w1]; [eauto | done].
Qed.

Lemma reading_ok {A} (f : store → result A) w a w1 :
  reading f w = (Ok a, w1) → f (var_values w) = Ok a ∧ w1 = w.
Proof. unfold reading. by intros [= -> ->]. Qed.

Lemma get_local_ok {A} (o : option A) w a w1 :
  get_local o w = (Ok a, w1) → o = Some a ∧ w1 = w.
Proof. destruct o; [by intros [= -> ->] | done]. Qed.

(** Restoring a snapshot of [vars] taken at [st0], lines 319-320 and
    328-329. *)
Lemma restore_run vars (st0 : store) : ∀ w,
  ∃ w',
    for_each (λ '(v, prev), set_value v prev)
      (zip vars ((λ v, st0 !! var_id v) <$> vars)) w = (Ok tt, w') ∧
    calls w' = calls w ∧
    stdout w' = stdout w ∧
    ∀ i, var_values w' !! i =
           if bool_decide (i ∈ var_id <$> vars) then st0 !! i
           else var_values w !! i.
Proof.
  induction vars as [| v vars IH]; intros w.
  - exists w. by repeat split.
  - cbn [fmap list_fmap zip zip_with for_each]. rewrite bind_run.
    unfold set_value at 1.
    match goal with |- context [for_each _ _ ?w1] =>
      destruct (IH w1) as (w' & Hrun & Hcalls & Hout & Hvals) end.
    exists w'. split; [exact Hrun |]. split; [done |]. split; [done |].
    intros i. rewrite Hvals. simpl.
    destruct (decide (i = var_id v)) as [-> | Hne].
    + rewrite (bool_decide_eq_true_2 (var_id v ∈ var_id v :: _)); [| by left].
      case_bool_decide; [done |].
      destruct (st0 !! var_id v); [by rewrite lookup_insert_eq | by rewrite lookup_delete_eq].
    + assert (match st0 !! var_id v with
              | Some a => <[var_id v:=a]> (var_values w)
              | None => delete (var_id v) (var_values w)
              end !! i = var_values w !! i) as ->.
      { destruct (st0 !! var_id v);
          [by rewrite lookup_insert_ne | by rewrite lookup_delete_ne]. }
      repeat case_bool_decide; set_solver.
Qed.

(** Writing the means, lines 287-290, when no variable is listed twice. *)
Lemma write_means_run vars : ∀ hists w,
  NoDup (var_id <$> vars) →
  length hists = length vars →
  ∃ w',
    for_each (λ '(v, hist), set_value v (Some (np_mean hist))) (zip vars hists) w
      = (Ok tt, w') ∧
    calls w' = calls w ∧
    stdout w' = stdout w ∧
    (∀ i, i ∉ var_id <$> vars → var_values w' !! i = var_values w !! i) ∧
    holds_means vars hists (var_values w').
Proof.
  induction vars as [| v vars IH]; intros [| hist hists] w Hnd Hlen; try done.
  - exists w. repeat split; done.
  - rewrite fmap_cons in Hnd. apply list.NoDup_cons in Hnd as [Hv Hnd].
    cbn [zip zip_with for_each]. rewrite bind_run. unfold set_value at 1.
    match goal with |- context [for_each _ _ ?w1] =>
      destruct (IH hists w1 Hnd) as (w' & Hrun & Hcalls & Hout & Hframe & Hlen' & Hmeans)
    end; [by injection Hlen |].
    exists w'. split; [exact Hrun |]. split; [done |]. split; [done |]. split.
    + intros i Hi. apply not_elem_of_cons in Hi as [Hne Hi].
      rewrite Hframe by done. simpl. by rewrite lookup_insert_ne.
    + split; [simpl; by rewrite Hlen' |].
      intros [| i] v' hist'; simpl.
      * intros [= <-] [= <-]. rewrite Hframe by done. simpl.
        by rewrite lookup_insert_eq.
      * apply Hmeans.
Qed.

(** *** Lists *)

Lemma zip_with_map_l {A B C} (f : B → A → C) (g : A → B) l :
  zip_with f (map g l) l = map (λ a, f (g a) a) l.
Proof. induction l as [| a l IH]; simpl; [done | by rewrite IH]. Qed.

(** *** Histories *)

Lemma value_ok st v a : value st v = Ok a ↔ st !! var_id v = Some a.
Proof. unfold value. destruct (st !! var_id v); split; congruence. Qed.

Lemma hist_start_ok vars st h :
  hist_start vars st = Ok h ↔
  Forall (λ v, is_Some (st !! var_id v)) vars ∧
  h = map (λ v, [current st v]) vars.
Proof.
  unfold hist_start. revert h.
  induction vars as [| v vars IH]; intros h; cbn.
  - split; [intros [= <-]; by split | by intros [_ ->]].
  - unfold value, current. destruct (st !! var_id v) as [a |] eqn:Ha; cbn.
    + destruct (mapM _ vars) as [h' | e] eqn:Hh'; cbn.
      * destruct (proj1 (IH h') eq_refl) as [Hdef ->].
        split; [intros [= <-]; split; [constructor; eauto | done] |].
        by intros [_ ->].
      * split; [done |]. intros [[_ Hdef]%list.Forall_cons ->].
        pose proof (proj2 (IH _) (conj Hdef eq_refl)) as HH. done.
    + split; [done |]. intros [[[? ?] _]%list.Forall_cons _]. congruence.
Qed.

Lemma hist_append_ok vars st : ∀ hists h,
  length hists = length vars →
  hist_append hists vars st = Ok h ↔
  Forall (λ v, is_Some (st !! var_id v)) vars ∧
  h = zip_with (λ hist v, hist ++ [current st v]) hists vars.
Proof.
  induction vars as [| v vars IH]; intros [| hist hists] h Hlen; try done; cbn.
  - split; [intros [= <-]; by split | by intros [_ ->]].
  - unfold value, current. destruct (st !! var_id v) as [a |] eqn:Ha; cbn.
    + injection Hlen as Hlen.
      destruct (hist_append hists vars st) as [h' | e] eqn:Hh'; cbn.
      * destruct (proj1 (IH hists h' Hlen) Hh') as [Hdef ->].
        split; [intros [= <-]; split; [constructor; eauto | done] |].
        by intros [_ ->].
      * split; [done |]. intros [[_ Hdef]%list.Forall_cons ->].
        pose proof (proj2 (IH hists _ Hlen) (conj Hdef eq_refl)) as HH. congruence.
    + split; [done |]. intros [[[? ?] _]%list.Forall_cons _]. congruence.
Qed.

Lemma hist_append_length vars st : ∀ hists h,
  hist_append hists vars st = Ok h → length h = length hists.
Proof.
  induction vars as [| v vars IH]; intros [| hist hists] h; cbn;
    try (by intros [= <-]).
  destruct (value st v); cbn; [| done].
  destruct (hist_append hists vars st) as [h' |] eqn:Hh'; cbn; [| done].
  intros [= <-]. simpl. f_equal. by apply IH.
Qed.

(** Lines 249-253, when they go through. *)
Lemma record_ok k o vars w h w' :
  record k o vars w = (Ok h, w') →
  w' = w ∧
  (k = 0 → hist_start vars (var_values w) = Ok h) ∧
  (k ≠ 0 → ∃ h0, o = Some h0 ∧ hist_append h0 vars (var_values w) = Ok h).
Proof.
  unfold record. destruct k as [| k]; simpl.
  - intros [H ->]%reading_ok. done.
  - intros (h0 & w1 & [-> ->]%get_local_ok & [H ->]%reading_ok)%bind_ok.
    split; [done |]. split; [done |]. eauto.
Qed.

(** Lines 273-285, when they go through: nothing but the output changes;
    iterations 0 and 1 never stop the loop; from iteration 2 on the loop
    stops if and only if the aggregate point of this iteration is within
    [eps], in the infinity norm, of the row of [plot_array] that the
    iteration before wrote. *)
Lemma stopping_criterion_ok eps cols k plot minh maxh w b plot' w' :
  stopping_criterion eps cols k plot minh maxh w = (Ok (b, plot'), w') →
  var_values w' = var_values w ∧
  calls w' = calls w ∧
  (k = 0 → b = false ∧ plot' = plot ∧ stdout w' = stdout w) ∧
  (0 < k → setitem plot cols (k - 1) (aggregate minh maxh) = Ok plot') ∧
  (k = 1 → b = false ∧ stdout w' = stdout w) ∧
  (1 < k → ∃ previous difference delta,
     getitem plot' (k - 2) = Ok previous ∧
     np_sub previous (aggregate minh maxh) = Ok difference ∧
     norm_inf difference = Ok delta ∧
     b = bool_decide (delta ≤ eps)%Qc ∧
     stdout w' = stdout w ++ [PrintDelta k delta]).
Proof.
  unfold stopping_criterion. destruct k as [| [| k]]; simpl.
  - intros [= <- <- <-]. repeat split; try done; lia.
  - intros (p & w1 & [Hset ->]%reading_ok & [= <- <- <-])%bind_ok.
    repeat split; try done; lia.
  - intros (p & w1 & [Hset ->]%reading_ok & Hrun)%bind_ok.
    apply bind_ok in Hrun as (prev & w1 & [Hget ->]%reading_ok & Hrun).
    apply bind_ok in Hrun as (d & w1 & [Hsub ->]%reading_ok & Hrun).
    apply bind_ok in Hrun as (delta & w1 & [Hnorm ->]%reading_ok & Hrun).
    apply bind_ok in Hrun as ([] & w1 & [= <-] & Hrun).
    assert (b = bool_decide (delta ≤ eps)%Qc ∧ plot' = p ∧
            w' = mkWorld (var_values w) (calls w) (stdout w ++ [PrintDelta (S (S k)) delta]))
      as (-> & -> & ->).
    { case_bool_decide; by injection Hrun as <- <- <-. }
    simpl. split; [done |]. split; [done |]. split; [lia |]. split; [done |].
    split; [lia |]. intros _. rewrite Nat.sub_0_r in Hget |- *.
    exists prev, d, delta. by repeat split.
Qed.

Section SolveFacts.

Variable solver : Problem → store → solution.
Variable self : SaddlePointProblem.

(** A solve followed by its assertion: the pattern of all six calls. *)
Lemma guarded_solve {B} p (f : solution → M B) :
  (∀ s, guarded (f s)) →
  guarded (Problem_solve solver p ≫= λ s,
           assert (bool_decide (sol_status s = OPTIMAL)) ≫= λ _, f s).
Proof.
  intros Hf w r w' Hw. rewrite bind_run. unfold Problem_solve.
  set (s := solver p (var_values w)). rewrite bind_run.
  destruct (sol_status s) eqn:Hs; simpl;
    try (intros [= <- <-]; right; split; [done |];
         eexists _, _; simpl; split; [done |]; split; [done |]; by split).
  apply Hf. unfold all_optimal. simpl. apply Forall_app. split; [done |].
  by repeat constructor.
Qed.

Lemma guarded_solve_last p :
  guarded (Problem_solve solver p ≫= λ s,
           assert (bool_decide (sol_status s = OPTIMAL))).
Proof.
  intros w r w' Hw E. apply (guarded_solve p (λ _, mret tt)) with (w := w).
  - intros _. apply guarded_ret.
  - done.
  - rewrite <- E. rewrite !bind_run. destruct (Problem_solve solver p w) as [[s |] w1]; [| done].
    rewrite bind_run. by destruct (assert _ w1) as [[[] |] ?].
Qed.

(** A solve and its assertion, when the computation went on. *)
Lemma solve_ok {B} p (f : solution → M B) w b w' :
  (Problem_solve solver p ≫= λ s,
   assert (bool_decide (sol_status s = OPTIMAL)) ≫= λ _, f s) w = (Ok b, w') →
  sol_status (solver p (var_values w)) = OPTIMAL ∧
  f (solver p (var_values w))
    (mkWorld (save_values (sol_primal (solver p (var_values w)))
                (problem_variables p) (var_values w))
             (calls w ++ [mkCall p (var_values w) OPTIMAL])
             (stdout w)) = (Ok b, w').
Proof.
  rewrite bind_run. unfold Problem_solve. rewrite bind_run.
  destruct (sol_status (solver p (var_values w))) eqn:Hs; simpl; done.
Qed.

Lemma solve_ok' {B} p (f : solution → M B) w b w' :
  (Problem_solve solver p ≫= λ s,
   assert (bool_decide (sol_status s = OPTIMAL)) ≫= λ _, f s) w = (Ok b, w') ↔
  sol_status (solver p (var_values w)) = OPTIMAL ∧
  f (solver p (var_values w)) (solved solver p w) = (Ok b, w').
Proof.
  rewrite bind_run. unfold Problem_solve, solved. rewrite bind_run.
  destruct (sol_status (solver p (var_values w))) eqn:Hs; simpl;
    split; try done; by intros [? ?].
Qed.

(** *** [fix_vars] *)

Lemma same_set_refl vs : same_set vs vs = true.
Proof.
  unfold same_set.
  assert (forallb (λ v, var_in v vs) vs = true) as ->; [| done].
  apply forallb_forall. intros v Hv%list_elem_of_In.
  apply var_in_spec. by apply list_elem_of_fmap_2.
Qed.

(** The loop of lines 196-205 keeps what it had and adds constraints that
    refer to no fixed variable. *)
Lemma relevant_ok fixed others cs : ∀ acc rel,
  relevant fixed others cs acc = Ok rel →
  ∀ c, c ∈ rel → c ∈ acc ∨ (c ∈ cs ∧ intersects fixed (constraint_variables c) = false).
Proof.
  induction cs as [| c0 cs IH]; intros acc rel; simpl.
  - intros [= <-] c Hc. by left.
  - destruct (intersects fixed (constraint_variables c0)) eqn:Hf;
      destruct (intersects others (constraint_variables c0)) eqn:Ho; try done.
    + intros Hrel c Hc. destruct (IH _ _ Hrel c Hc) as [? | [? ?]]; [by left |].
      right. split; [by right | done].
    + intros Hrel c Hc. destruct (IH _ _ Hrel c Hc) as [Hin | [? ?]].
      * apply elem_of_app in Hin as [? | ->%list_elem_of_singleton]; [by left |].
        right. split; [by left | done].
      * right. split; [by right | done].
Qed.

(** It raises on a constraint that refers to variables of both sides, or of
    neither. *)
Lemma relevant_raise fixed others cs c : ∀ acc,
  c ∈ cs →
  mixed fixed others c = true ∨ orphan fixed others c = true →
  ∃ e, relevant fixed others cs acc = Raise e.
Proof.
  unfold mixed, orphan, touches.
  rewrite (intersects_comm _ fixed), (intersects_comm _ others).
  induction cs as [| c0 cs IH]; intros acc Hc Hbad; [by apply elem_of_nil in Hc |].
  simpl. apply elem_of_cons in Hc as [<- | Hc].
  - destruct (intersects fixed (constraint_variables c)),
      (intersects others (constraint_variables c)); simpl in *;
      try (by destruct Hbad); eauto.
  - destruct (intersects fixed (constraint_variables c0)),
      (intersects others (constraint_variables c0)); eauto.
Qed.

Lemma fix_vars_ok st fixed obj rel :
  fix_vars self st fixed = Ok (obj, rel) →
  obj = fix_vars_in_expr st (objective self) fixed ∧
  ∀ c, c ∈ rel →
       c ∈ constraints self ∧ intersects fixed (constraint_variables c) = false.
Proof.
  unfold fix_vars. destruct (negb _); [done |].
  destruct (relevant _ _ _ _) as [rel' | e] eqn:Hrel; [| done].
  intros [= <- <-]. split; [done |].
  intros c Hc. destruct (relevant_ok _ _ _ _ _ Hrel c Hc) as [Hin | ?]; [| done].
  by apply elem_of_nil in Hin.
Qed.

(** Whether [fix_vars] raises does not depend on the variable values. *)
Lemma fix_vars_raise st st' fixed e :
  fix_vars self st fixed = Raise e → fix_vars self st' fixed = Raise e.
Proof.
  unfold fix_vars. destruct (negb _); [done |].
  destruct (relevant _ _ _ _); done.
Qed.

Lemma fix_vars_constraints st st' fixed obj rel :
  fix_vars self st fixed = Ok (obj, rel) →
  fix_vars self st' fixed = Ok (fix_vars_in_expr st' (objective self) fixed, rel).
Proof.
  unfold fix_vars. destruct (negb _); [done |].
  destruct (relevant _ _ _ _); [| done]. by intros [= <- <-].
Qed.

(** A problem over a fixed objective and relevant constraints has none of
    the fixed variables. *)
Lemma fixed_not_in_problem sense fixed obj rel i :
  (∀ v, v ∈ variables obj → var_in v fixed = false) →
  (∀ c, c ∈ rel → intersects fixed (constraint_variables c) = false) →
  i ∈ var_id <$> fixed →
  i ∉ var_id <$> problem_variables (mkProblem sense obj rel).
Proof.
  intros Hobj Hrel Hi. unfold problem_variables. simpl.
  rewrite unique_list_ids, fmap_app.
  intros [(v & -> & Hv)%list_elem_of_fmap | (v & -> & Hv)%list_elem_of_fmap]%elem_of_app.
  - apply Hobj in Hv. apply not_true_iff_false in Hv. apply Hv.
    by apply var_in_spec.
  - apply elem_of_concat_map in Hv as (c & Hc & Hv).
    specialize (Hrel c Hc). apply not_true_iff_false in Hrel. apply Hrel.
    rewrite intersects_comm. apply intersects_spec. eauto.
Qed.

(** *** The zero-weighted objective of the initialisation *)

Lemma variables_zero_weighted vars :
  variables (Atom Add [Const [0%Qc]; zero_weighted vars]) = vars.
Proof.
  simpl. rewrite !app_nil_r. induction vars as [| v vars IH]; [done |].
  simpl. by rewrite IH.
Qed.

Lemma value_of_vecs numeric (st : store) vars :
  (∀ v, v ∈ vars → is_Some (st !! var_id v)) →
  ∃ vals, mapM (value_of numeric st) (map (λ v, Atom Vec [Var v]) vars) = Some vals.
Proof.
  induction vars as [| v vars IH]; intros Hdef; [by exists [] |].
  destruct (Hdef v) as [a Ha]; [by left |].
  destruct IH as [vals Hvals]; [intros v' Hv'; apply Hdef; by right |].
  exists (a :: vals). cbn. rewrite Ha. cbn.
  cbn in Hvals. by rewrite Hvals.
Qed.

Lemma value_of_zero_weighted numeric (st : store) vars :
  (∀ v, v ∈ vars → is_Some (st !! var_id v)) →
  value_of numeric st (Atom Add [Const [0%Qc]; zero_weighted vars]) = Some [0%Qc].
Proof.
  intros Hdef. destruct (value_of_vecs numeric st vars Hdef) as [vals Hvals].
  unfold zero_weighted. cbn. cbn in Hvals. rewrite Hvals. cbn.
  unfold elementwise. cbn. f_equal; try (f_equal; ring).
Qed.

(** *** The validation, lines 309-334 *)

Lemma validate_saddlepoint_ok w w' :
  _validate_saddlepoint solver self w = (Ok tt, w') →
  length (calls w') = length (calls w) + 2 ∧
  ∀ v, v ∈ min_vars self ++ max_vars self →
       var_values w' !! var_id v = var_values w !! var_id v.
Proof.
  unfold _validate_saddlepoint. intros Hrun.
  apply bind_ok in Hrun as (max_pre & w1 & H1 & Hrun).
  apply reading_ok in H1 as [[= <-] ->].
  apply bind_ok in Hrun as (min_pre & w1 & H1 & Hrun).
  apply reading_ok in H1 as [[= <-] ->].
  apply bind_ok in Hrun as ([max_obj max_constr] & w1 & Hfix1 & Hrun).
  apply reading_ok in Hfix1 as [Hfix1 ->].
  apply solve_ok in Hrun as [Hs1 Hrun].
  set (st1 := save_values _ _ (var_values w)) in Hrun.
  apply bind_ok in Hrun as ([] & w2 & Hrestore1 & Hrun).
  match type of Hrestore1 with for_each _ _ ?w0 = _ =>
    destruct (restore_run (max_vars self) (var_values w) w0)
      as (w2' & Hr & Hcalls2 & _ & Hvals2) end.
  rewrite Hr in Hrestore1. injection Hrestore1 as <-. simpl in Hcalls2, Hvals2.
  apply bind_ok in Hrun as ([min_obj min_constr] & w3 & Hfix2 & Hrun).
  apply reading_ok in Hfix2 as [Hfix2 ->].
  apply solve_ok in Hrun as [Hs2 Hrun].
  apply bind_ok in Hrun as ([] & w4 & Hrestore2 & Hrun).
  match type of Hrestore2 with for_each _ _ ?w0 = _ =>
    destruct (restore_run (min_vars self) (var_values w) w0)
      as (w4' & Hr' & Hcalls4 & _ & Hvals4) end.
  rewrite Hr' in Hrestore2. injection Hrestore2 as <-. simpl in Hcalls4, Hvals4.
  unfold print in Hrun. injection Hrun as <-. simpl.
  split.
  - rewrite Hcalls4, length_app, Hcalls2, length_app. simpl. lia.
  - intros v Hv. rewrite Hvals4.
    case_bool_decide as Hmin; [done |].
    apply elem_of_app in Hv as [Hv | Hv].
    { exfalso. apply Hmin. by apply list_elem_of_fmap_2. }
    destruct (fix_vars_ok _ _ _ _ Hfix2) as [-> Hrel].
    rewrite save_values_lookup. rewrite bool_decide_eq_false_2.
    + rewrite Hvals2. rewrite bool_decide_eq_true_2; [done |].
      by apply list_elem_of_fmap_2.
    + apply fixed_not_in_problem with (fixed := max_vars self).
      * intros v' Hv'. by apply variables_fix_vars_in_expr in Hv' as [_ ?].
      * intros c Hc. by apply Hrel.
      * by apply list_elem_of_fmap_2.
Qed.

(** *** The proximal terms, lines 243-244 and 261-262 *)

Lemma prox_terms_ok center vars prox :
  prox_terms center vars = Ok prox ↔
  Forall (λ v, is_Some (center !! var_id v)) vars ∧
  prox = map (λ v, Atom SumSquares [Atom Sub [Var v; Const (current center v)]]) vars.
Proof.
  unfold prox_terms. revert prox.
  induction vars as [| v vars IH]; intros prox; cbn.
  - split; [intros [= <-]; by split | by intros [_ ->]].
  - unfold value, current. destruct (center !! var_id v) as [a |] eqn:Ha; cbn.
    + destruct (mapM _ vars) as [h' | e] eqn:Hh'; cbn.
      * destruct (proj1 (IH h') eq_refl) as [Hdef ->].
        split; [intros [= <-]; split; [constructor; eauto | done] |].
        by intros [_ ->].
      * split; [done |]. intros [[_ Hdef]%list.Forall_cons ->].
        pose proof (proj2 (IH _) (conj Hdef eq_refl)) as HH. done.
    + split; [done |]. intros [[[? ?] _]%list.Forall_cons _]. congruence.
Qed.

Lemma variables_weighted_prox alpha center vars :
  variables (weighted_prox alpha center vars) = vars.
Proof.
  unfold weighted_prox. simpl. rewrite !app_nil_r.
  induction vars as [| v vars IH]; [done |]. simpl. by rewrite IH.
Qed.

Lemma value_of_prox_terms numeric (st center : store) vars :
  Forall (λ v, is_Some (st !! var_id v) ∧
               length (current st v) = length (current center v)) vars →
  mapM (value_of numeric st)
    (map (λ v, Atom SumSquares [Atom Sub [Var v; Const (current center v)]]) vars)
  = Some (map (λ v, [sum_squares (current st v) (current center v)]) vars).
Proof.
  induction 1 as [| v vars [[x Hx] Hlen] _ IH]; [done |].
  cbn. cbn in IH. rewrite IH. unfold current in *. rewrite Hx in *. cbn.
  unfold elementwise. simpl in Hlen. rewrite bool_decide_eq_true_2 by done.
  done.
Qed.

Lemma concat_singletons {A B} (f : A → B) l : concat (map (λ a, [f a]) l) = map f l.
Proof. induction l as [| a l IH]; simpl; [done | by rewrite IH]. Qed.

Lemma value_of_weighted_prox numeric alpha (st center : store) vars :
  Forall (λ v, is_Some (st !! var_id v) ∧
               length (current st v) = length (current center v)) vars →
  value_of numeric st (weighted_prox alpha center vars)
  = Some [(alpha * penalty st center vars)%Qc].
Proof.
  intros Hvars. unfold weighted_prox.
  pose proof (value_of_prox_terms numeric st center vars Hvars) as Hprox.
  cbn. cbn in Hprox. rewrite Hprox. cbn. rewrite concat_singletons. done.
Qed.

Lemma maximization_problem_ok alpha st p :
  maximization_problem self alpha st = Ok p ↔
  ∃ constr,
    fix_vars self st (min_vars self) =
      Ok (fix_vars_in_expr st (objective self) (min_vars self), constr) ∧
    Forall (λ v, is_Some (st !! var_id v)) (max_vars self) ∧
    p = mkProblem Maximize
          (Atom Sub [fix_vars_in_expr st (objective self) (min_vars self);
                     weighted_prox alpha st (max_vars self)]) constr.
Proof.
  unfold maximization_problem. cbn.
  destruct (fix_vars self st (min_vars self)) as [[obj constr] | e] eqn:Hfix; cbn.
  - destruct (fix_vars_ok _ _ _ _ Hfix) as [-> _].
    destruct (prox_terms st (max_vars self)) as [prox | e] eqn:Hprox; cbn.
    + apply prox_terms_ok in Hprox as [Hdef ->]. split.
      * intros [= <-]. by exists constr.
      * by intros (constr' & [= <-] & _ & ->).
    + split; [done |]. intros (constr' & _ & Hdef & _).
      pose proof (proj2 (prox_terms_ok st (max_vars self) _) (conj Hdef eq_refl)).
      congruence.
  - split; [done |]. by intros (constr' & ? & _).
Qed.

Lemma minimization_problem_ok alpha st p :
  minimization_problem self alpha st = Ok p ↔
  ∃ constr,
    fix_vars self st (max_vars self) =
      Ok (fix_vars_in_expr st (objective self) (max_vars self), constr) ∧
    Forall (λ v, is_Some (st !! var_id v)) (min_vars self) ∧
    p = mkProblem Minimize
          (Atom Add [fix_vars_in_expr st (objective self) (max_vars self);
                     weighted_prox alpha st (min_vars self)]) constr.
Proof.
  unfold minimization_problem. cbn.
  destruct (fix_vars self st (max_vars self)) as [[obj constr] | e] eqn:Hfix; cbn.
  - destruct (fix_vars_ok _ _ _ _ Hfix) as [-> _].
    destruct (prox_terms st (min_vars self)) as [prox | e] eqn:Hprox; cbn.
    + apply prox_terms_ok in Hprox as [Hdef ->]. split.
      * intros [= <-]. by exists constr.
      * by intros (constr' & [= <-] & _ & ->).
    + split; [done |]. intros (constr' & _ & Hdef & _).
      pose proof (proj2 (prox_terms_ok st (min_vars self) _) (conj Hdef eq_refl)).
      congruence.
  - split; [done |]. by intros (constr' & ? & _).
Qed.

(** The variables a problem penalises are variables of the problem. *)
Lemma prox_in_problem sense op obj alpha center vars constr v :
  v ∈ vars →
  var_id v ∈ var_id <$>
    problem_variables
      (mkProblem sense (Atom op [obj; weighted_prox alpha center vars]) constr).
Proof.
  intros Hv. apply unique_list_ids. cbn [prob_objective prob_constraints].
  rewrite fmap_app. apply elem_of_app. left.
  apply list_elem_of_fmap_2.
  change (variables (Atom op [obj; weighted_prox alpha center vars]))
    with (concat (map variables [obj; weighted_prox alpha center vars])).
  apply elem_of_concat_map. exists (weighted_prox alpha center vars).
  split; [set_solver |]. by rewrite variables_weighted_prox.
Qed.

(** *** The iterations, lines 235-285 *)

(** An iteration that goes through, step by step. *)
Lemma iteration_ok alpha eps cols k l w b l' w' :
  iteration solver self alpha eps cols k l w = (Ok (b, l'), w') ↔
  ∃ pmax pmin maxh minh plot',
    maximization_problem self alpha (var_values w) = Ok pmax ∧
    sol_status (solver pmax (var_values w)) = OPTIMAL ∧
    let w1 := solved solver pmax w in
    record k (max_vars_hist l) (max_vars self) w1 = (Ok maxh, w1) ∧
    minimization_problem self alpha (var_values w1) = Ok pmin ∧
    sol_status (solver pmin (var_values w1)) = OPTIMAL ∧
    let w2 := solved solver pmin w1 in
    record k (min_vars_hist l) (min_vars self) w2 = (Ok minh, w2) ∧
    stopping_criterion eps cols k (plot_array l) minh maxh w2 = (Ok (b, plot'), w') ∧
    l' = mkLocals (Some maxh) (Some minh) plot'.
Proof.
  unfold iteration. split.
  - intros Hrun.
    apply bind_ok in Hrun as (pmax & w0 & [Hmax ->]%reading_ok & Hrun).
    apply solve_ok' in Hrun as [Hs1 Hrun].
    apply bind_ok in Hrun as (maxh & w1 & Hrec1 & Hrun).
    pose proof (record_ok _ _ _ _ _ _ Hrec1) as [-> _].
    apply bind_ok in Hrun as (pmin & w0 & [Hmin ->]%reading_ok & Hrun).
    apply solve_ok' in Hrun as [Hs2 Hrun].
    apply bind_ok in Hrun as (minh & w2 & Hrec2 & Hrun).
    pose proof (record_ok _ _ _ _ _ _ Hrec2) as [-> _].
    apply bind_ok in Hrun as ([stop plot'] & w3 & Hstop & [= <- <- <-]).
    exists pmax, pmin, maxh, minh, plot'. done.
  - intros (pmax & pmin & maxh & minh & plot' & Hmax & Hs1 & Hrec1 & Hmin & Hs2 &
            Hrec2 & Hstop & ->).
    rewrite bind_run. unfold reading at 1. rewrite Hmax.
    apply solve_ok'. split; [done |].
    rewrite bind_run, Hrec1.
    rewrite bind_run. unfold reading at 1. rewrite Hmin.
    apply solve_ok'. split; [done |].
    rewrite bind_run, Hrec2. rewrite bind_run, Hstop. done.
Qed.

Lemma iteration_bound alpha eps cols k l w b l' w' :
  iteration solver self alpha eps cols k l w = (Ok (b, l'), w') →
  k = 0 ∨ bound self l →
  bound self l'.
Proof.
  intros (pmax & pmin & maxh & minh & plot' & _ & _ & Hrec1 & _ & _ &
          Hrec2 & _ & ->)%iteration_ok Hk.
  apply record_ok in Hrec1 as (_ & Hmax0 & Hmax1).
  apply record_ok in Hrec2 as (_ & Hmin0 & Hmin1).
  exists maxh, minh. split; [done |]. split; [done |].
  destruct (decide (k = 0)) as [-> | Hne].
  - apply hist_start_ok in Hmax0 as [_ ->]; [| done].
    apply hist_start_ok in Hmin0 as [_ ->]; [| done].
    by rewrite !length_map.
  - destruct Hk as [? | (maxh0 & minh0 & Hb1 & Hb2 & Hl1 & Hl2)]; [done |].
    destruct (Hmax1 Hne) as (h1 & E1 & Happ1).
    destruct (Hmin1 Hne) as (h2 & E2 & Happ2).
    rewrite Hb1 in E1. rewrite Hb2 in E2. simplify_eq.
    apply hist_append_length in Happ1, Happ2. split; congruence.
Qed.

Lemma for_range_bound alpha eps cols n : ∀ k l w l' w',
  for_range n k (iteration solver self alpha eps cols) l w = (Ok l', w') →
  0 < n →
  k = 0 ∨ bound self l →
  bound self l'.
Proof.
  induction n as [| n IH]; intros k l w l' w' Hrun Hn Hk; [lia |].
  simpl in Hrun.
  apply bind_ok in Hrun as ([stop l1] & w1 & Hit & Hrun).
  pose proof (iteration_bound _ _ _ _ _ _ _ _ _ Hit Hk) as Hb1.
  destruct stop.
  - by injection Hrun as <- <-.
  - destruct n as [| n'].
    + by injection Hrun as <- <-.
    + eapply IH; [exact Hrun | lia | by right].
Qed.

Lemma iterations_bound max_iters alpha eps w l w' :
  iterations solver self max_iters alpha eps w = (Ok l, w') →
  bound self l.
Proof.
  unfold iterations. intros Hrun.
  apply bind_ok in Hrun as ([] & w1 & _ & Hrun).
  apply bind_ok in Hrun as (plot & w2 & [Hzeros ->]%reading_ok & Hrun).
  unfold np_zeros in Hzeros. case_decide; [done |].
  eapply for_range_bound; [exact Hrun | lia | by left].
Qed.

(** The final assignment, lines 287-290. *)
Lemma finalize_run l w :
  NoDup (var_id <$> (min_vars self ++ max_vars self)) →
  bound self l →
  ∃ minh maxh w',
    min_vars_hist l = Some minh ∧
    max_vars_hist l = Some maxh ∧
    finalize self l w = (Ok tt, w') ∧
    calls w' = calls w ∧
    holds_means (min_vars self) minh (var_values w') ∧
    holds_means (max_vars self) maxh (var_values w').
Proof.
  intros Hnd (maxh & minh & Hmax & Hmin & Hlmax & Hlmin).
  rewrite fmap_app in Hnd. apply list.NoDup_app in Hnd as (Hnd1 & Hdisj & Hnd2).
  exists minh, maxh. unfold finalize. rewrite Hmin, Hmax.
  destruct (write_means_run (min_vars self) minh w Hnd1 Hlmin)
    as (w1 & Hrun1 & Hcalls1 & _ & _ & Hmeans1).
  destruct (write_means_run (max_vars self) maxh w1 Hnd2 Hlmax)
    as (w2 & Hrun2 & Hcalls2 & _ & Hframe2 & Hmeans2).
  exists w2. split; [done |]. split; [done |]. split.
  { rewrite bind_run. simpl. rewrite bind_run, Hrun1. rewrite bind_run. simpl.
    exact Hrun2. }
  split; [congruence |]. split; [| done].
  destruct Hmeans1 as [Hlen Hmeans1]. split; [done |].
  intros i v hist Hv Hhist. rewrite Hframe2; [by eapply Hmeans1 |].
  apply Hdisj. apply list_elem_of_fmap_2. by eapply list_elem_of_lookup_2.
Qed.



Lemma length_np_mean_2 a b : length (np_mean [a; b]) = length a `min` length b.
Proof. unfold np_mean. cbn [foldl]. by rewrite length_map, length_zip_with. Qed.






(** *** Every solve of the iterative path is checked *)

Ltac checked :=
  repeat first
    [ apply guarded_solve_last
    | apply guarded_solve; intros ?
    | apply guarded_ret
    | apply guarded_raise
    | apply guarded_assert
    | apply guarded_reading
    | apply guarded_get_local
    | apply guarded_set_value
    | apply guarded_print
    | apply guarded_for_each; intros [? ?]
    | match goal with
      | |- guarded (if ?b then _ else _) => destruct b
      | |- guarded (let '(_, _) := ?x in _) => destruct x
      end
    | apply guarded_bind; [| intros ?] ].

Lemma guarded_initialize_variables : guarded (initialize_variables solver self).
Proof. unfold initialize_variables. checked. Qed.

Lemma guarded_iteration alpha eps cols k l :
  guarded (iteration solver self alpha eps cols k l).
Proof. unfold iteration, record, stopping_criterion. checked. Qed.

Lemma guarded_iterations max_iters alpha eps :
  guarded (iterations solver self max_iters alpha eps).
Proof.
  unfold iterations. checked.
  apply guarded_for_range. intros. apply guarded_iteration.
Qed.

Lemma guarded_finalize l : guarded (finalize self l).
Proof. unfold finalize. checked. Qed.

Lemma guarded_validate_saddlepoint : guarded (_validate_saddlepoint solver self).
Proof. unfold _validate_saddlepoint. checked. Qed.

Lemma guarded_solve_DR max_iters alpha eps :
  guarded (_solve_DR solver self max_iters alpha eps).
Proof.
  unfold _solve_DR. apply guarded_bind; [apply guarded_iterations |].
  intros l. apply guarded_bind; [apply guarded_finalize |].
  intros _. apply guarded_validate_saddlepoint.
Qed.

End SolveFacts.

(** ** [fix_vars] in closed form, lines 187-207 *)

(** The loop of lines 196-205 in closed form: it stops at the first
    constraint that is not of one side only. *)
Lemma relevant_closed fixed others cs : ∀ acc,
  relevant fixed others cs acc =
    match List.find (λ c, negb (only fixed others c || only others fixed c)) cs with
    | Some c => Raise (if touches fixed c then AssertionError else ValueError)
    | None => Ok (acc ++ List.filter (only others fixed) cs)
    end.
Proof.
  induction cs as [| c cs IH]; intros acc; [simpl; by rewrite app_nil_r |].
  cbn [relevant List.find List.filter]. cbv zeta.
  change (intersects (constraint_variables c) fixed) with (touches fixed c).
  rewrite (intersects_comm fixed (constraint_variables c)).
  rewrite (intersects_comm others (constraint_variables c)).
  change (intersects (constraint_variables c) fixed) with (touches fixed c).
  change (intersects (constraint_variables c) others) with (touches others c).
  assert (only fixed others c = touches fixed c && negb (touches others c))
    as -> by done.
  assert (only others fixed c = touches others c && negb (touches fixed c))
    as -> by done.
  destruct (touches fixed c) eqn:Hf, (touches others c) eqn:Ho;
    cbn [andb orb negb]; rewrite ?Hf; try done.
  rewrite IH. destruct (List.find _ cs); [done |]. by rewrite <- app_assoc.
Qed.

(** The result of [fix_vars], with the loop in closed form. *)
Lemma fix_vars_unfolded (self : SaddlePointProblem) (st : store)
    (fixed : list variable) :
  fix_vars self st fixed =
    if negb (same_set fixed (min_vars self) || same_set fixed (max_vars self))
    then Raise AssertionError
    else
      let others := List.filter (λ v, negb (var_in v fixed))
                                (min_vars self ++ max_vars self) in
      match List.find (λ c, negb (only fixed others c || only others fixed c))
                      (constraints self) with
      | Some c => Raise (if touches fixed c then AssertionError else ValueError)
      | None => Ok (fix_vars_in_expr st (objective self) fixed,
                    List.filter (only others fixed) (constraints self))
      end.
Proof.
  unfold fix_vars. destruct (negb _); [done |].
  cbv zeta. rewrite relevant_closed. by destruct (List.find _ _).
Qed.

Lemma var_in_app v (vs ws : list variable) :
  var_in v (vs ++ ws) = var_in v vs || var_in v ws.
Proof.
  unfold var_in. rewrite fmap_app. apply eq_true_iff_eq.
  rewrite orb_true_iff, !bool_decide_eq_true. apply elem_of_app.
Qed.

Lemma var_in_filter u (other all : list variable) :
  var_in u (List.filter (λ v, negb (var_in v other)) all) =
  var_in u all && negb (var_in u other).
Proof.
  apply eq_true_iff_eq. rewrite andb_true_iff, negb_true_iff, !var_in_spec.
  split.
  - intros (v & Hid & Hv)%list_elem_of_fmap.
    apply list_elem_of_In, filter_In in Hv as [Hv%list_elem_of_In Hno].
    apply negb_true_iff in Hno. split.
    + rewrite Hid. by apply list_elem_of_fmap_2.
    + unfold var_in in *. by rewrite Hid.
  - intros [(v & Hid & Hv)%list_elem_of_fmap Hno]. rewrite Hid.
    apply list_elem_of_fmap_2, list_elem_of_In, filter_In.
    split; [by apply list_elem_of_In |].
    apply negb_true_iff. unfold var_in in *. by rewrite <- Hid.
Qed.

(** The constraints of the free side: a constraint that refers to no fixed
    variable refers to a free variable exactly when it refers to a variable
    of the side that is not fixed. *)
Lemma only_free (all side other : list variable) c :
  (∀ v, var_in v all = var_in v side || var_in v other) →
  only (List.filter (λ v, negb (var_in v other)) all) other c = only side other c.
Proof.
  intros Hall. unfold only, touches.
  destruct (intersects (constraint_variables c) other) eqn:Hother;
    [by rewrite !andb_false_r |].
  rewrite !andb_true_r. unfold intersects in *.
  apply eq_true_iff_eq. rewrite !existsb_exists.
  assert (∀ u, In u (constraint_variables c) → var_in u other = false) as Hno.
  { intros u Hu. apply not_true_iff_false. intros Hin.
    apply not_true_iff_false in Hother. apply Hother, existsb_exists. eauto. }
  split; intros (u & Hu & Hin); exists u; split; try done.
  - rewrite var_in_filter, Hall, (Hno u Hu) in Hin.
    by rewrite orb_false_r, andb_true_r in Hin.
  - rewrite var_in_filter, Hall, (Hno u Hu).
    by rewrite orb_false_r, andb_true_r.
Qed.

(** What [fix_vars] returns for each side: the side's own constraints, in
    the order of the problem. *)
Lemma fix_vars_own_min self st o constr :
  fix_vars self st (max_vars self) = Ok (o, constr) →
  constr = List.filter (only (min_vars self) (max_vars self)) (constraints self).
Proof.
  rewrite fix_vars_unfolded. destruct (negb _); [done |]. cbv zeta.
  destruct (List.find _ _); [done |]. intros [= _ <-].
  apply List.filter_ext. intros c. apply only_free. intros v. apply var_in_app.
Qed.

Lemma fix_vars_own_max self st o constr :
  fix_vars self st (min_vars self) = Ok (o, constr) →
  constr = List.filter (only (max_vars self) (min_vars self)) (constraints self).
Proof.
  rewrite fix_vars_unfolded. destruct (negb _); [done |]. cbv zeta.
  destruct (List.find _ _); [done |]. intros [= _ <-].
  apply List.filter_ext. intros c. apply only_free. intros v.
  rewrite var_in_app. apply orb_comm.
Qed.

(** ** The histories hold the iterates, lines 246-271 *)




Section HistoryFacts.

Variable solver : Problem → store → solution.
Variable self : SaddlePointProblem.








End HistoryFacts.

(** * The claims *)

(** ** Variable fixing *)

Lemma example_heap_repr : Heap.repr Example.heap 5 Example.tree.
Proof.
  unfold Example.tree, Example.x, Example.y.
  eapply Heap.repr_Atom; [reflexivity |].
  constructor; [| constructor; [| constructor]].
  - eapply Heap.repr_Atom; [reflexivity |].
    constructor; [| constructor; [| constructor]].
    + eapply (Heap.repr_Var _ 1%positive). reflexivity.
    + eapply (Heap.repr_Var _ 2%positive). reflexivity.
  - eapply Heap.repr_Const. reflexivity.
Qed.

(** C6.  On every expression and every variable set, [fix_vars_in_expr]
    returns (given fuel for the depth of the expression) the root of a tree
    that is the input with each leaf variable of the set replaced by a
    parameter of the variable's shape, current value and attributes, all
    other leaves and the structure kept; no variable of the set is left in
    it; and fixing the empty set gives a tree of the same value under every
    assignment. *)
Theorem fix_vars_in_expr_replaces (vs : list variable) (h : gmap loc Heap.node)
    (l : loc) (t : expr) (fuel : nat) :
  Heap.repr h l t →
  height t ≤ fuel →
  ∃ h' l' t',
    Heap.fix_vars_in_expr fuel h l (var_id <$> vs) = Some (h', l') ∧
    Heap.repr h' l' t' ∧
    t' = fix_vars_in_expr (Heap.values h) t vs ∧
    fixes (Heap.values h) vs t t' ∧
    (∀ v, v ∈ variables t' → var_in v vs = false) ∧
    (vs = [] → ∀ numeric st, value_of numeric st t' = value_of numeric st t).
Proof.
  intros Hr Hfuel.
  destruct (HeapFacts.fix_vars_in_expr_fixed vs t h l fuel Hr Hfuel)
    as (h' & l' & Hcall & _ & _ & Hrepr & _).
  exists h', l', (fix_vars_in_expr (Heap.values h) t vs).
  split; [done |]. split; [done |]. split; [done |].
  split; [apply fix_vars_in_expr_fixes |]. split.
  - intros v Hv. by apply variables_fix_vars_in_expr in Hv as [_ Hv].
  - intros -> numeric st. by rewrite fix_vars_in_expr_nil.
Qed.

Lemma fix_vars_in_expr_replaces_witness :
  ∃ h' l' t',
    Heap.fix_vars_in_expr 3 Example.heap 5 (var_id <$> [Example.y]) = Some (h', l') ∧
    Heap.repr h' l' t' ∧
    t' = fix_vars_in_expr (Heap.values Example.heap) Example.tree [Example.y] ∧
    fixes (Heap.values Example.heap) [Example.y] Example.tree t' ∧
    (∀ v, v ∈ variables t' → var_in v [Example.y] = false) ∧
    ([Example.y] = [] →
     ∀ numeric st, value_of numeric st t' = value_of numeric st Example.tree).
Proof.
  apply (fix_vars_in_expr_replaces [Example.y] Example.heap 5 Example.tree 3).
  - exact example_heap_repr.
  - simpl. lia.
Defined.

(** C9, as stated, fails: the leaves of the result that were not replaced
    are the leaf objects of the input, not copies of them.  Fixing [y] in
    [x * y + 1] returns an expression that contains the input's own
    constant [1] (object 3). *)
Lemma fix_vars_in_expr_shares_leaves :
  ∃ h' l',
    Heap.fix_vars_in_expr 3 Example.heap 5 (var_id <$> [Example.y]) = Some (h', l') ∧
    ¬ Heap.all_copied Example.heap h' l'.
Proof.
  destruct (Heap.fix_vars_in_expr 3 Example.heap 5 (var_id <$> [Example.y]))
    as [[h' l'] |] eqn:E; [| by vm_compute in E].
  exists h', l'. split; [done |]. intros Hall.
  assert (Heap.reach h' l' 3%positive) as Hreach.
  { vm_compute in E. injection E as <- <-.
    eapply Heap.reach_arg; [reflexivity | | apply Heap.reach_here].
    apply list_elem_of_In. right. by left. }
  specialize (Hall _ Hreach). by vm_compute in Hall.
Qed.

(** C9, amended.  [fix_vars_in_expr] writes to no object of the input: every
    object that was there is there unchanged, the input is still the root
    of the same tree with the same value, every node with arguments in the
    result is a new object, and every leaf of the result is a new parameter
    or a leaf object of the input, shared and unchanged. *)
Theorem fix_vars_in_expr_preserves_input (vs : list variable)
    (h : gmap loc Heap.node) (l : loc) (t : expr) (fuel : nat) :
  Heap.repr h l t →
  height t ≤ fuel →
  ∃ h' l',
    Heap.fix_vars_in_expr fuel h l (var_id <$> vs) = Some (h', l') ∧
    (∀ k n, h !! k = Some n → h' !! k = Some n) ∧
    Heap.repr h' l t ∧
    (∀ numeric,
       value_of numeric (Heap.values h') t = value_of numeric (Heap.values h) t) ∧
    (∀ k, Heap.reach h' l' k → h !! k = None ∨ Heap.leaf_in h k) ∧
    (∀ k op args,
       Heap.reach h' l' k → h' !! k = Some (Heap.NAtom op args) → h !! k = None).
Proof.
  intros Hr Hfuel.
  destruct (HeapFacts.fix_vars_in_expr_fixed vs t h l fuel Hr Hfuel)
    as (h' & l' & Hcall & Hsub & Hval & Hrepr & Hnew).
  exists h', l'. split; [done |]. split; [| split; [| split; [| split]]].
  - intros k n Hk. by eapply lookup_weaken.
  - by eapply HeapFacts.repr_mono.
  - intros numeric. by rewrite Hval.
  - done.
  - intros k op args Hk Hatom.
    destruct (Hnew k Hk) as [Hnone | (n & Hn & Hleaf)]; [done |].
    rewrite (lookup_weaken _ _ _ _ Hn Hsub) in Hatom. by simplify_eq.
Qed.

Lemma fix_vars_in_expr_preserves_input_witness :
  ∃ h' l',
    Heap.fix_vars_in_expr 3 Example.heap 5 (var_id <$> [Example.y]) = Some (h', l') ∧
    (∀ k n, Example.heap !! k = Some n → h' !! k = Some n) ∧
    Heap.repr h' 5 Example.tree ∧
    (∀ numeric,
       value_of numeric (Heap.values h') Example.tree =
       value_of numeric (Heap.values Example.heap) Example.tree) ∧
    (∀ k, Heap.reach h' l' k →
          Example.heap !! k = None ∨ Heap.leaf_in Example.heap k) ∧
    (∀ k op args,
       Heap.reach h' l' k → h' !! k = Some (Heap.NAtom op args) →
       Example.heap !! k = None).
Proof.
  apply (fix_vars_in_expr_preserves_input [Example.y] Example.heap 5 Example.tree 3).
  - exact example_heap_repr.
  - simpl. lia.
Defined.

(** ** Constraint partitioning *)

(** C5.  [_split_constraints] raises when some constraint refers to
    variables of both sides or of neither, and otherwise (the two variable
    sets being disjoint) returns the constraints of each side, in order:
    every constraint that refers to one side only is in that side's list,
    the two lengths sum to the length of the input, and no constraint is in
    both lists.  No solver is involved.  On the iterative path the same
    check is the first thing [_solve_DR] does ([fix_vars], from
    [initialize_variables]): a constraint of both sides or of neither makes
    it raise with the world untouched, so before any solver call. *)
Theorem split_constraints_partitions (x_vars y_vars : list variable)
    (cs : list constraint) :
  _split_constraints x_vars y_vars cs =
    (if existsb (mixed x_vars y_vars) cs then Raise AssertionError
     else if existsb (orphan x_vars y_vars) cs then Raise ValueError
     else if intersects x_vars y_vars then Raise AssertionError
     else Ok (List.filter (only x_vars y_vars) cs,
              List.filter (only y_vars x_vars) cs)) ∧
  (∀ c, c ∈ cs →
        mixed x_vars y_vars c = true ∨ orphan x_vars y_vars c = true →
        ∃ e, _split_constraints x_vars y_vars cs = Raise e) ∧
  (∀ xs ys, _split_constraints x_vars y_vars cs = Ok (xs, ys) →
     xs = List.filter (only x_vars y_vars) cs ∧
     ys = List.filter (only y_vars x_vars) cs ∧
     length xs + length ys = length cs ∧
     (∀ c, c ∈ cs → only x_vars y_vars c = true → c ∈ xs) ∧
     (∀ c, c ∈ cs → only y_vars x_vars c = true → c ∈ ys) ∧
     (∀ c, c ∈ xs → c ∉ ys)) ∧
  (∀ solver self max_iters alpha eps w c,
     c ∈ constraints self →
     let others :=
       List.filter (λ v, negb (var_in v (max_vars self)))
                   (min_vars self ++ max_vars self) in
     mixed (max_vars self) others c = true ∨
     orphan (max_vars self) others c = true →
     ∃ e, _solve_DR solver self max_iters alpha eps w = (Raise e, w)).
Proof.
  pose proof (split_constraints_closed x_vars y_vars cs) as Hclosed.
  split; [done |]. split; [| split].
  - intros c Hc%list_elem_of_In Hbad. rewrite Hclosed.
    destruct Hbad as [Hm | Ho].
    + assert (existsb (mixed x_vars y_vars) cs = true) as ->; [| eauto].
      apply existsb_exists. eauto.
    + destruct (existsb (mixed x_vars y_vars) cs); [eauto |].
      assert (existsb (orphan x_vars y_vars) cs = true) as ->; [| eauto].
      apply existsb_exists. eauto.
  - intros xs ys. rewrite Hclosed.
    destruct (existsb (mixed x_vars y_vars) cs) eqn:Hm; [done |].
    destruct (existsb (orphan x_vars y_vars) cs) eqn:Ho; [done |].
    destruct (intersects x_vars y_vars); [done |].
    intros [= <- <-]. split; [done |]. split; [done |].
    split; [by apply one_sided_lengths |]. split; [| split].
    + intros c Hc%list_elem_of_In Hx. apply list_elem_of_In, filter_In. done.
    + intros c Hc%list_elem_of_In Hy. apply list_elem_of_In, filter_In. done.
    + intros c [_ Hx]%list_elem_of_In%filter_In [_ Hy]%list_elem_of_In%filter_In.
      unfold only in *. destruct (touches x_vars c), (touches y_vars c); done.
  - intros solver self max_iters alpha eps w c Hc others Hbad.
    destruct (relevant_raise (max_vars self) others (constraints self) c [] Hc Hbad)
      as [e He].
    exists e. unfold _solve_DR, iterations, initialize_variables.
    rewrite !bind_run. unfold reading at 1, fix_vars.
    rewrite same_set_refl, orb_true_r. simpl.
    fold others. by rewrite He.
Qed.

(** ** The iterative solve *)

(** C7.  The argument [alpha] of [_solve_DR] has no effect: the function
    runs with the weight 2 whatever it is given, so two calls that differ
    in [alpha] only build the same sub-problems and end in the same world
    (variable values, solver calls, output). *)
Theorem solve_DR_ignores_alpha (solver : Problem → store → solution)
    (self : SaddlePointProblem) (max_iters : Z) (alpha alpha' eps : Qc) (w : world) :
  _solve_DR solver self max_iters alpha eps w =
    (l ← iterations solver self max_iters (Q2Qc 2) eps;
     finalize self l;;
     _validate_saddlepoint solver self) w ∧
  _solve_DR solver self max_iters alpha eps w =
    _solve_DR solver self max_iters alpha' eps w.
Proof. split; reflexivity. Qed.

(** C4.  When a sub-solve of the iterative path (in the initialisation, in a
    best-response step or in the validation) is not optimal, [_solve_DR]
    raises the failed assertion, that call is the last solver call it makes
    (no retry, no fallback) and every call before it was optimal, and the
    variables are left as that call found them, that is as the last
    successful step left them. *)
Theorem solve_DR_aborts_on_non_optimal (solver : Problem → store → solution)
    (self : SaddlePointProblem) (max_iters : Z) (alpha eps : Qc)
    (w : world) (r : result unit) (w' : world) :
  all_optimal w →
  _solve_DR solver self max_iters alpha eps w = (r, w') →
  Exists (λ c, call_status c ≠ OPTIMAL) (calls w') →
  r = Raise AssertionError ∧ aborted w'.
Proof.
  intros Hw Hrun Hbad.
  pose proof (guarded_solve_DR solver self max_iters alpha eps w r w' Hw Hrun) as Hout.
  assert (¬ all_optimal w') as Hnot.
  { intros Hall. apply Exists_exists in Hbad as (c & Hc & Hs).
    unfold all_optimal in Hall. rewrite Forall_forall in Hall. by apply Hs, Hall. }
  destruct r as [[] | e]; simpl in Hout; [done |].
  destruct Hout as [? | [-> ?]]; done.
Qed.

Lemma solve_DR_aborts_on_non_optimal_witness :
  let run := _solve_DR Example.stuck Example.problem 5 1%Qc (Q2Qc (1 # 10000))
               Example.start in
  run.1 = Raise AssertionError ∧ aborted run.2.
Proof.
  intros run.
  apply (solve_DR_aborts_on_non_optimal Example.stuck Example.problem 5 1%Qc
           (Q2Qc (1 # 10000)) Example.start run.1 run.2).
  - constructor.
  - apply surjective_pairing.
  - apply (bool_decide_unpack _). vm_compute. reflexivity.
Defined.

(** C8.  [initialize_variables] solves a feasibility-only problem for the
    minimizer, then one for the maximizer: the objective is the
    zero-weighted sum of all the variables of the side (its variables are
    exactly the declared ones, its value is 0 whatever their values), the
    constraints are exactly the side's own: every constraint of the problem
    that refers to a variable of the side and to none of the other side, in
    the order of the problem, and no other.  When it returns, both solves were
    optimal and every declared variable holds a value, also one that is in
    no constraint and not in the objective; a solve that is not optimal
    makes it raise. *)
Theorem initialize_variables_defines_values (solver : Problem → store → solution)
    (self : SaddlePointProblem) (w : world) (r : result unit) (w' : world) :
  calls w = [] →
  initialize_variables solver self w = (r, w') →
  (∀ side,
     variables (Atom Add [Const [0%Qc]; zero_weighted side]) = side ∧
     ∀ numeric (st : store),
       (∀ v, v ∈ side → is_Some (st !! var_id v)) →
       value_of numeric st (Atom Add [Const [0%Qc]; zero_weighted side])
         = Some [0%Qc]) ∧
  (∀ c, calls w' !! 0 = Some c →
        feasibility_problem self Minimize (min_vars self) (max_vars self)
          (call_problem c)) ∧
  (∀ c, calls w' !! 1 = Some c →
        feasibility_problem self Maximize (max_vars self) (min_vars self)
          (call_problem c)) ∧
  (r = Ok tt →
     length (calls w') = 2 ∧
     all_optimal w' ∧
     ∀ v, v ∈ min_vars self ++ max_vars self →
          is_Some (var_values w' !! var_id v)) ∧
  (Exists (λ c, call_status c ≠ OPTIMAL) (calls w') → r = Raise AssertionError).
Proof.
  intros Hcalls Hrun.
  split.
  { intros side. split; [apply variables_zero_weighted |].
    intros numeric st. apply value_of_zero_weighted. }
  revert Hrun. unfold initialize_variables.
  rewrite bind_run. unfold reading at 1.
  destruct (fix_vars self (var_values w) (max_vars self)) as [[o1 min_constr] | e1] eqn:Hfix1.
  2: { intros [= <- <-]. rewrite Hcalls.
       repeat split; try done. by intros ?%Exists_nil. }
  destruct (fix_vars_ok self _ _ _ _ Hfix1) as [_ Hmin].
  rewrite bind_run. unfold Problem_solve at 1. rewrite Hcalls. simpl app.
  set (p1 := mkProblem Minimize _ min_constr).
  set (s1 := solver p1 (var_values w)).
  assert (feasibility_problem self Minimize (min_vars self) (max_vars self) p1) as Hp1.
  { split; [done |]. split; [done |]. by eapply fix_vars_own_min. }
  rewrite bind_run.
  destruct (sol_status s1) eqn:Hs1; simpl;
    try (intros [= <- <-]; simpl;
         split; [by intros c [= <-] |]; split; [done |]; split; [done |]; done).
  set (st1 := save_values (sol_primal s1) (problem_variables p1) (var_values w)).
  rewrite bind_run. unfold reading at 1. simpl.
  destruct (fix_vars self st1 (min_vars self)) as [[o2 max_constr] | e2] eqn:Hfix2.
  2: { intros [= <- <-]. simpl.
       split; [by intros c [= <-] |]. split; [done |]. split; [done |].
       intros Hbad. apply Exists_cons in Hbad as [Hbad | Hbad%Exists_nil]; done. }
  destruct (fix_vars_ok self _ _ _ _ Hfix2) as [_ Hmax].
  rewrite bind_run. unfold Problem_solve at 1. simpl.
  set (p2 := mkProblem Maximize _ max_constr).
  set (s2 := solver p2 st1).
  assert (feasibility_problem self Maximize (max_vars self) (min_vars self) p2) as Hp2.
  { split; [done |]. split; [done |]. by eapply fix_vars_own_max. }
  destruct (sol_status s2) eqn:Hs2; simpl;
    try (intros [= <- <-]; simpl;
         split; [by intros c [= <-] |]; split; [by intros c [= <-] |];
         split; [done |]; done).
  intros [= <- <-]. simpl.
  split; [by intros c [= <-] |]. split; [by intros c [= <-] |]. split.
  - intros _. split; [done |]. split; [by repeat constructor |].
    intros v Hv. rewrite save_values_lookup.
    case_bool_decide as Hin2; [done |].
    unfold st1. rewrite save_values_lookup.
    apply elem_of_app in Hv as [Hv | Hv].
    + rewrite bool_decide_eq_true_2; [done |].
      apply unique_list_ids. unfold p1. cbn [prob_objective].
      rewrite variables_zero_weighted, fmap_app.
      apply elem_of_app. left. by apply list_elem_of_fmap_2.
    + exfalso. apply Hin2.
      apply unique_list_ids. unfold p2. cbn [prob_objective].
      rewrite variables_zero_weighted, fmap_app.
      apply elem_of_app. left. by apply list_elem_of_fmap_2.
  - intros Hbad. exfalso.
    apply Exists_cons in Hbad as [Hbad | Hbad]; [done |].
    apply Exists_cons in Hbad as [Hbad | Hbad%Exists_nil]; done.
Qed.

Lemma initialize_variables_defines_values_witness :
  let run := initialize_variables Example.origin Example.unused Example.start in
  length (calls run.2) = 2 ∧
  all_optimal run.2 ∧
  ∀ v, v ∈ min_vars Example.unused ++ max_vars Example.unused →
       is_Some (var_values run.2 !! var_id v).
Proof.
  intros run.
  apply (initialize_variables_defines_values Example.origin Example.unused
           Example.start run.1 run.2).
  - reflexivity.
  - apply surjective_pairing.
  - reflexivity.
Defined.



(** C10.  [_validate_saddlepoint] puts back the value that each minimizer
    and each maximizer variable had when it was called: the two re-solves
    run (two more solver calls), and when it returns every such variable
    holds its value from before.  So when [_solve_DR] returns, every
    variable still holds the mean of its history that the final assignment
    gave it. *)
Theorem validate_saddlepoint_restores (solver : Problem → store → solution)
    (self : SaddlePointProblem) :
  (∀ w w',
     _validate_saddlepoint solver self w = (Ok tt, w') →
     length (calls w') = length (calls w) + 2 ∧
     ∀ v, v ∈ min_vars self ++ max_vars self →
          var_values w' !! var_id v = var_values w !! var_id v) ∧
  (∀ max_iters alpha eps w w',
     NoDup (var_id <$> (min_vars self ++ max_vars self)) →
     _solve_DR solver self max_iters alpha eps w = (Ok tt, w') →
     ∃ l w1 minh maxh,
       iterations solver self max_iters (Q2Qc 2) eps w = (Ok l, w1) ∧
       min_vars_hist l = Some minh ∧
       max_vars_hist l = Some maxh ∧
       holds_means (min_vars self) minh (var_values w') ∧
       holds_means (max_vars self) maxh (var_values w')).
Proof.
  split.
  - intros w w'. apply validate_saddlepoint_ok.
  - intros max_iters alpha eps w w' Hnd Hrun. unfold _solve_DR in Hrun.
    apply bind_ok in Hrun as (l & w1 & Hiter & Hrun).
    apply bind_ok in Hrun as ([] & w2 & Hfin & Hval).
    pose proof (iterations_bound solver self _ _ _ _ _ _ Hiter) as Hbound.
    destruct (finalize_run self l w1 Hnd Hbound)
      as (minh & maxh & w2' & Hmin & Hmax & Hfin' & _ & Hm1 & Hm2).
    rewrite Hfin' in Hfin. injection Hfin as ->.
    apply validate_saddlepoint_ok in Hval as [_ Hsame].
    exists l, w1, minh, maxh. split; [done |]. split; [done |]. split; [done |].
    split.
    + destruct Hm1 as [Hlen Hm1]. split; [done |].
      intros i v hist Hv Hhist. rewrite Hsame; [by eapply Hm1 |].
      apply elem_of_app. left. by eapply list_elem_of_lookup_2.
    + destruct Hm2 as [Hlen Hm2]. split; [done |].
      intros i v hist Hv Hhist. rewrite Hsame; [by eapply Hm2 |].
      apply elem_of_app. right. by eapply list_elem_of_lookup_2.
Qed.

Lemma validate_saddlepoint_restores_witness :
  ∃ w',
    _solve_DR Example.origin Example.problem 5 1%Qc (Q2Qc (1 # 10000))
      Example.start = (Ok tt, w') ∧
    ∃ l w1 minh maxh,
      iterations Example.origin Example.problem 5 (Q2Qc 2) (Q2Qc (1 # 10000))
        Example.start = (Ok l, w1) ∧
      min_vars_hist l = Some minh ∧
      max_vars_hist l = Some maxh ∧
      holds_means (min_vars Example.problem) minh (var_values w') ∧
      holds_means (max_vars Example.problem) maxh (var_values w').
Proof.
  destruct (_solve_DR Example.origin Example.problem 5 1%Qc (Q2Qc (1 # 10000))
              Example.start) as [[[] | e] w'] eqn:E; [| by vm_compute in E].
  exists w'. split; [done |].
  apply (proj2 (validate_saddlepoint_restores Example.origin Example.problem)
           5%Z 1%Qc (Q2Qc (1 # 10000)) Example.start w').
  - apply (bool_decide_unpack _). vm_compute. reflexivity.
  - exact E.
Defined.

(** C3.  In every iteration that goes through, the first solve is the
    maximizer's: it maximizes the objective with the minimizer's variables
    fixed, minus the proximal weight times the sum of squared distances of
    the maximizer's variables to their current values.  The second solve is
    the minimizer's, built after the first one wrote its result: the
    maximizer's variables are fixed at the values the first solve just gave
    them, and the penalty on the minimizer's variables is added.  (The
    weight is [alpha], which [_solve_DR] sets to 2.) *)
Theorem iteration_best_responses (solver : Problem → store → solution)
    (self : SaddlePointProblem) (alpha eps : Qc) (cols k : nat) (l : locals)
    (w : world) (b : bool) (l' : locals) (w' : world) :
  iteration solver self alpha eps cols k l w = (Ok (b, l'), w') →
  best_responses solver self alpha w w'.
Proof.
  intros (pmax & pmin & maxh & minh & plot' & Hmax & Hs1 & Hrec1 & Hmin & Hs2 &
          Hrec2 & Hstop & ->)%iteration_ok.
  apply maximization_problem_ok in Hmax as (max_constr & Hfix1 & Hdef1 & ->).
  apply minimization_problem_ok in Hmin as (min_constr & Hfix2 & Hdef2 & ->).
  apply stopping_criterion_ok in Hstop as (_ & Hcalls & _).
  exists max_constr, min_constr. cbv zeta.
  split; [| split; [| split; [| split; [| split]]]].
  - rewrite Hcalls. simpl. by rewrite <- app_assoc.
  - intros c Hc. destruct (fix_vars_ok _ _ _ _ _ Hfix1) as [_ Hrel].
    destruct (Hrel c Hc) as [? Hno]. split; [done |].
    unfold touches. by rewrite intersects_comm.
  - intros c Hc. destruct (fix_vars_ok _ _ _ _ _ Hfix2) as [_ Hrel].
    destruct (Hrel c Hc) as [? Hno]. split; [done |].
    unfold touches. by rewrite intersects_comm.
  - intros y Hy. rewrite save_values_lookup.
    rewrite bool_decide_eq_true_2; [done |]. by apply prox_in_problem.
  - intros numeric st f Hf Hvars. cbn [prob_objective].
    pose proof (value_of_weighted_prox numeric alpha st (var_values w)
                  (max_vars self) Hvars) as Hprox.
    cbn [value_of mapM]. cbn [value_of] in Hprox. rewrite Hf, Hprox. cbn.
    unfold elementwise. by rewrite bool_decide_eq_true_2.
  - intros numeric st f Hf Hvars. cbn [prob_objective].
    pose proof (value_of_weighted_prox numeric alpha st _
                  (min_vars self) Hvars) as Hprox.
    cbn [value_of mapM]. cbn [value_of] in Hprox. rewrite Hf, Hprox. cbn.
    unfold elementwise. by rewrite bool_decide_eq_true_2.
Qed.

Lemma iteration_best_responses_witness :
  let w0 := (initialize_variables Example.origin Example.problem Example.start).2 in
  ∃ b l' w',
    iteration Example.origin Example.problem (Q2Qc 2) (Q2Qc (1 # 10000)) 2 0
      (mkLocals None None []) w0 = (Ok (b, l'), w') ∧
    best_responses Example.origin Example.problem (Q2Qc 2) w0 w'.
Proof.
  intros w0.
  destruct (iteration Example.origin Example.problem (Q2Qc 2) (Q2Qc (1 # 10000))
              2 0 (mkLocals None None []) w0) as [[[b l'] | e] w'] eqn:E;
    [| by vm_compute in E].
  exists b, l', w'. split; [done |].
  apply (iteration_best_responses Example.origin Example.problem (Q2Qc 2)
           (Q2Qc (1 # 10000)) 2 0 (mkLocals None None []) w0 b l' w').
  exact E.
Defined.





(** * More properties of the code *)

(** ** Variable fixing, lines 209-222 *)

Lemma fixed_at_lookup (st sigma : store) vs i :
  fixed_at st vs sigma !! i =
    if bool_decide (i ∈ var_id <$> vs) then st !! i else sigma !! i.
Proof.
  induction vs as [| v vs IH]; [done |].
  cbn [fixed_at foldr]. fold (fixed_at st vs sigma). rewrite fmap_cons.
  destruct (decide (i = var_id v)) as [-> | Hne].
  - rewrite (bool_decide_eq_true_2 (var_id v ∈ var_id v :: _)); [| by left].
    destruct (st !! var_id v); [by rewrite lookup_insert_eq | by rewrite lookup_delete_eq].
  - assert (match st !! var_id v with
            | Some a => <[var_id v:=a]> (fixed_at st vs sigma)
            | None => delete (var_id v) (fixed_at st vs sigma)
            end !! i = fixed_at st vs sigma !! i) as ->.
    { destruct (st !! var_id v);
        [by rewrite lookup_insert_ne | by rewrite lookup_delete_ne]. }
    rewrite IH. repeat case_bool_decide; set_solver.
Qed.

Lemma mapM_option_ext {A B} (f g : A → option B) l :
  Forall (λ a, f a = g a) l → mapM f l = mapM g l.
Proof.
  induction 1 as [| a l Ha _ IH]; [done |]. cbn. by rewrite Ha, IH.
Qed.

(** X1.  Fixing is partial evaluation: at any assignment, the fixed expression
    has the value that the expression has when the fixed variables hold
    what they held when they were fixed. *)
Theorem fix_vars_in_expr_value (numeric : string → list ndarray → option ndarray)
    (st sigma : store) (vs : list variable) (e : expr) :
  value_of numeric sigma (fix_vars_in_expr st e vs) =
  value_of numeric (fixed_at st vs sigma) e.
Proof.
  induction e as [v | sh val attrs | val | op args IH] using expr_ind'.
  - cbn [fix_vars_in_expr]. unfold var_in.
    change (value_of numeric (fixed_at st vs sigma) (Var v))
      with (fixed_at st vs sigma !! var_id v).
    rewrite fixed_at_lookup. by case_bool_decide.
  - done.
  - done.
  - cbn [fix_vars_in_expr]. destruct (length args =? 0) eqn:Hlen.
    + apply Nat.eqb_eq in Hlen. by destruct args.
    + cbn [value_of]. f_equal.
      rewrite <- (mapM_option_ext
                   (λ a, value_of numeric sigma (fix_vars_in_expr st a vs))
                   (value_of numeric (fixed_at st vs sigma)) args IH).
      clear. induction args as [| a args IHa]; [done |].
      cbn. by rewrite IHa.
Qed.

Lemma filter_concat {A} (P : A → bool) (ls : list (list A)) :
  List.filter P (concat ls) = concat (map (List.filter P) ls).
Proof.
  induction ls as [| l ls IH]; [done |]. simpl.
  by rewrite List.filter_app, IH.
Qed.

(** X2.  The variables of a fixed expression are the variables of the
    expression that are not in the set, in the same order and as often. *)
Theorem variables_after_fixing (st : store) (vs : list variable) (e : expr) :
  variables (fix_vars_in_expr st e vs) =
  List.filter (λ v, negb (var_in v vs)) (variables e).
Proof.
  induction e as [v | sh val attrs | val | op args IH] using expr_ind';
    try done.
  - simpl. by destruct (var_in v vs).
  - cbn [fix_vars_in_expr]. destruct (length args =? 0) eqn:Hlen.
    + apply Nat.eqb_eq in Hlen. by destruct args.
    + cbn [variables]. rewrite filter_concat, !map_map. f_equal.
      clear Hlen. induction IH as [| a args Ha _ IHargs]; [done |].
      simpl. by rewrite Ha, IHargs.
Qed.

(** ** Constraint partitioning, lines 121-146 and 187-207 *)

Lemma filter_complement_perm {A} (P Q : A → bool) (l : list A) :
  (∀ a, a ∈ l → Q a = negb (P a)) →
  List.filter P l ++ List.filter Q l ≡ₚ l.
Proof.
  induction l as [| a l IH]; intros HQ; [done |].
  simpl. rewrite (HQ a) by (by left).
  assert (List.filter P l ++ List.filter Q l ≡ₚ l) as IH'
    by (apply IH; intros b Hb; apply HQ; by right).
  destruct (P a); simpl.
  - by rewrite IH'.
  - rewrite <- Permutation_middle. by rewrite IH'.
Qed.

(** X4.  The two lists that [_split_constraints] returns hold, together, the
    constraints it was given: nothing is lost, nothing is added, nothing
    is there twice that was there once. *)
Theorem split_constraints_permutation (x_vars y_vars : list variable)
    (cs xs ys : list constraint) :
  _split_constraints x_vars y_vars cs = Ok (xs, ys) →
  xs ++ ys ≡ₚ cs.
Proof.
  rewrite split_constraints_closed.
  destruct (existsb (mixed x_vars y_vars) cs) eqn:Hm; [done |].
  destruct (existsb (orphan x_vars y_vars) cs) eqn:Ho; [done |].
  destruct (intersects x_vars y_vars); [done |].
  intros [= <- <-]. apply filter_complement_perm.
  intros c Hc%list_elem_of_In.
  assert (mixed x_vars y_vars c = false) as Hmc.
  { apply not_true_iff_false. intros H.
    apply not_true_iff_false in Hm. apply Hm, existsb_exists. eauto. }
  assert (orphan x_vars y_vars c = false) as Hoc.
  { apply not_true_iff_false. intros H.
    apply not_true_iff_false in Ho. apply Ho, existsb_exists. eauto. }
  unfold mixed, orphan, only in *.
  by destruct (touches x_vars c), (touches y_vars c).
Qed.

Lemma split_constraints_permutation_witness :
  [Example.x_lower] ++ [Example.y_upper] ≡ₚ [Example.x_lower; Example.y_upper].
Proof.
  apply (split_constraints_permutation [Example.x] [Example.y]
           [Example.x_lower; Example.y_upper]).
  reflexivity.
Defined.

(** X5.  [fix_vars] in closed form.  It raises [AssertionError] when the
    variables to fix are neither the minimizer's nor the maximizer's set.
    Otherwise it goes through the constraints in order and raises at the
    first one that is not of one side only: [AssertionError] when it refers
    to fixed and to free variables, [ValueError] when it refers to neither.
    When there is none it returns the fixed objective and, in order, the
    constraints that refer to free variables only. *)
Theorem fix_vars_closed (self : SaddlePointProblem) (st : store)
    (fixed : list variable) :
  fix_vars self st fixed =
    if negb (same_set fixed (min_vars self) || same_set fixed (max_vars self))
    then Raise AssertionError
    else
      let others := List.filter (λ v, negb (var_in v fixed))
                                (min_vars self ++ max_vars self) in
      match List.find (λ c, negb (only fixed others c || only others fixed c))
                      (constraints self) with
      | Some c => Raise (if touches fixed c then AssertionError else ValueError)
      | None => Ok (fix_vars_in_expr st (objective self) fixed,
                    List.filter (only others fixed) (constraints self))
      end.
Proof. apply fix_vars_unfolded. Qed.

Lemma var_in_refl v vs : v ∈ vs → var_in v vs = true.
Proof. intros Hv. apply var_in_spec. by apply list_elem_of_fmap_2. Qed.

Lemma disjoint_not_in (vs ws : list variable) :
  intersects vs ws = false → ∀ v, v ∈ vs → var_in v ws = false.
Proof.
  intros Hdisj v Hv. apply not_true_iff_false. intros Hin.
  apply not_true_iff_false in Hdisj. apply Hdisj.
  apply intersects_spec. exists v. split; [done |]. by apply var_in_spec.
Qed.

(** The free variables, when the two sides share no variable. *)
Lemma others_disjoint (fixed free : list variable) :
  intersects free fixed = false →
  List.filter (λ v, negb (var_in v fixed)) (free ++ fixed) = free ∧
  List.filter (λ v, negb (var_in v fixed)) (fixed ++ free) = free.
Proof.
  intros Hdisj.
  assert (List.filter (λ v, negb (var_in v fixed)) free = free) as Hfree.
  { apply filter_all, forallb_forall. intros v Hv%list_elem_of_In.
    by rewrite (disjoint_not_in _ _ Hdisj v Hv). }
  assert (List.filter (λ v, negb (var_in v fixed)) fixed = []) as Hfixed.
  { apply filter_none. apply not_true_iff_false.
    intros (v & Hv%list_elem_of_In & Hneg)%existsb_exists.
    by rewrite (var_in_refl v fixed Hv) in Hneg. }
  rewrite !List.filter_app, Hfree, Hfixed. by rewrite app_nil_r.
Qed.

Lemma find_none_one_sided (xs ys : list variable) cs :
  List.find (λ c, negb (only xs ys c || only ys xs c)) cs = None ↔
  existsb (mixed xs ys) cs = false ∧ existsb (orphan xs ys) cs = false.
Proof.
  induction cs as [| c cs IH]; simpl; [done |].
  unfold only, mixed, orphan in *.
  destruct (touches xs c), (touches ys c); simpl; try (rewrite IH; tauto);
    split; try done; by intros [? ?].
Qed.

(** X6.  The two partitioners agree: for a problem whose sides share no
    variable, [_split_constraints] returns a pair of lists exactly when
    [fix_vars] goes through for both sides, and then the minimizer gets the
    first list and the maximizer the second. *)
Theorem fix_vars_agrees_with_split (self : SaddlePointProblem) (st1 st2 : store)
    (xs ys : list constraint) :
  intersects (min_vars self) (max_vars self) = false →
  _split_constraints (min_vars self) (max_vars self) (constraints self)
    = Ok (xs, ys) ↔
  fix_vars self st1 (max_vars self) =
    Ok (fix_vars_in_expr st1 (objective self) (max_vars self), xs) ∧
  fix_vars self st2 (min_vars self) =
    Ok (fix_vars_in_expr st2 (objective self) (min_vars self), ys).
Proof.
  intros Hdisj.
  assert (intersects (max_vars self) (min_vars self) = false) as Hdisj'
    by by rewrite intersects_comm.
  rewrite split_constraints_closed, !fix_vars_unfolded, !same_set_refl, Hdisj.
  rewrite orb_true_r. cbn [negb orb]. cbv zeta.
  rewrite (proj1 (others_disjoint (max_vars self) (min_vars self) Hdisj)).
  rewrite (proj2 (others_disjoint (min_vars self) (max_vars self) Hdisj')).
  pose proof (find_none_one_sided (min_vars self) (max_vars self) (constraints self))
    as Hfind.
  assert (∀ cs, List.find (λ c, negb (only (max_vars self) (min_vars self) c
                                     || only (min_vars self) (max_vars self) c)) cs
              = List.find (λ c, negb (only (min_vars self) (max_vars self) c
                                     || only (max_vars self) (min_vars self) c)) cs)
    as Hsym.
  { intros cs. induction cs as [| c cs IH]; [done |]. simpl.
    rewrite (orb_comm (only (max_vars self) (min_vars self) c)). by rewrite IH. }
  rewrite Hsym.
  destruct (List.find _ (constraints self)) as [c |] eqn:E.
  - assert (¬ (existsb (mixed (min_vars self) (max_vars self)) (constraints self) = false ∧
               existsb (orphan (min_vars self) (max_vars self)) (constraints self) = false))
      as Hnot by (intros H%Hfind; done).
    destruct (existsb (mixed _ _) _); [split; [done | by intros [? _]] |].
    destruct (existsb (orphan _ _) _); [split; [done | by intros [? _]] |].
    by destruct Hnot.
  - destruct (proj1 Hfind eq_refl) as [-> ->]. split.
    + by intros [= <- <-].
    + by intros [[= <-] [= <-]].
Qed.

Lemma fix_vars_agrees_with_split_witness :
  _split_constraints (min_vars Example.problem) (max_vars Example.problem)
    (constraints Example.problem) = Ok ([Example.x_lower], [Example.y_upper]) ↔
  fix_vars Example.problem ∅ (max_vars Example.problem) =
    Ok (fix_vars_in_expr ∅ (objective Example.problem) (max_vars Example.problem),
        [Example.x_lower]) ∧
  fix_vars Example.problem ∅ (min_vars Example.problem) =
    Ok (fix_vars_in_expr ∅ (objective Example.problem) (min_vars Example.problem),
        [Example.y_upper]).
Proof.
  apply (fix_vars_agrees_with_split Example.problem ∅ ∅).
  reflexivity.
Defined.

(** ** [fix_vars] reads its argument as a set, lines 187-207 *)

Lemma same_set_spec vs ws :
  same_set vs ws = true ↔ ∀ i, i ∈ var_id <$> vs ↔ i ∈ var_id <$> ws.
Proof.
  unfold same_set. rewrite andb_true_iff, !forallb_forall. split.
  - intros [Hvw Hwv] i. split.
    + intros (v & -> & Hv)%list_elem_of_fmap.
      by apply var_in_spec, Hvw, list_elem_of_In.
    + intros (v & -> & Hv)%list_elem_of_fmap.
      by apply var_in_spec, Hwv, list_elem_of_In.
  - intros Hiff. split; intros v Hv%list_elem_of_In; apply var_in_spec, Hiff;
      by apply list_elem_of_fmap_2.
Qed.

Lemma var_in_same_set vs ws v :
  same_set vs ws = true → var_in v vs = var_in v ws.
Proof.
  intros Hs. pose proof (proj1 (same_set_spec vs ws) Hs) as Hiff.
  apply eq_true_iff_eq. rewrite !var_in_spec. apply Hiff.
Qed.

Lemma intersects_same_set vs ws cv :
  same_set vs ws = true → intersects vs cv = intersects ws cv.
Proof.
  intros Hs. rewrite (intersects_comm vs), (intersects_comm ws).
  unfold intersects. apply eq_true_iff_eq. rewrite !existsb_exists.
  split; intros (v & Hv & Hin); exists v; split; try done.
  - by rewrite <- (var_in_same_set vs ws v Hs).
  - by rewrite (var_in_same_set vs ws v Hs).
Qed.

Lemma same_set_left vs ws us :
  same_set vs ws = true → same_set vs us = same_set ws us.
Proof.
  intros Hs. pose proof (proj1 (same_set_spec vs ws) Hs) as Hiff.
  apply eq_true_iff_eq. rewrite !same_set_spec.
  split; intros H i; [rewrite <- Hiff | rewrite Hiff]; apply H.
Qed.

Lemma fix_vars_in_expr_ext st e vs ws :
  (∀ v, var_in v vs = var_in v ws) →
  fix_vars_in_expr st e vs = fix_vars_in_expr st e ws.
Proof.
  intros Hin.
  induction e as [v | sh val attrs | val | op args IH] using expr_ind'; try done.
  - cbn [fix_vars_in_expr]. by rewrite Hin.
  - cbn [fix_vars_in_expr]. destruct (length args =? 0); [done |].
    f_equal. apply map_ext_Forall, IH.
Qed.

Lemma relevant_ext fixed fixed' others cs :
  (∀ cv, intersects fixed cv = intersects fixed' cv) →
  ∀ acc, relevant fixed others cs acc = relevant fixed' others cs acc.
Proof.
  intros Hi. induction cs as [| c cs IH]; intros acc; [done |].
  cbn [relevant]. cbv zeta. rewrite <- !Hi.
  destruct (intersects fixed _), (intersects others _); try done; apply IH.
Qed.

(** X7.  [fix_vars] takes the variables to fix as a set: two lists with the same
    members, in whatever order and with whatever repetitions, give the same
    result (the same error, or the same objective and constraints). *)
Theorem fix_vars_set (self : SaddlePointProblem) (st : store)
    (fixed fixed' : list variable) :
  same_set fixed fixed' = true →
  fix_vars self st fixed = fix_vars self st fixed'.
Proof.
  intros Hs. unfold fix_vars.
  rewrite !(same_set_left fixed fixed' _ Hs).
  destruct (negb _); [done |]. cbv zeta.
  rewrite (fix_vars_in_expr_ext st (objective self) fixed fixed')
    by (intros v; by apply var_in_same_set).
  rewrite (List.filter_ext (λ v, negb (var_in v fixed)) (λ v, negb (var_in v fixed')))
    by (intros v; by rewrite (var_in_same_set fixed fixed' v Hs)).
  rewrite (relevant_ext fixed fixed')
    by (intros cv; by apply intersects_same_set).
  done.
Qed.

Lemma fix_vars_set_witness :
  fix_vars Example.problem ∅ [Example.y; Example.y] =
  fix_vars Example.problem ∅ [Example.y].
Proof.
  apply (fix_vars_set Example.problem ∅ [Example.y; Example.y] [Example.y]).
  reflexivity.
Defined.

(** ** The budget of [_solve_DR], lines 228-233 *)

(** X8.  A budget of no iteration is an error, not a run without iterations:
    with [max_iters <= 0] the initialisation runs and then [np.zeros]
    raises [ValueError] for the negative number of rows; the variables keep
    what the initialisation gave them. *)
Theorem solve_DR_nonpositive_budget (solver : Problem → store → solution)
    (self : SaddlePointProblem) (max_iters : Z) (alpha eps : Qc) (w w0 : world) :
  (max_iters ≤ 0)%Z →
  initialize_variables solver self w = (Ok tt, w0) →
  _solve_DR solver self max_iters alpha eps w = (Raise ValueError, w0).
Proof.
  intros Hle Hinit. unfold _solve_DR, iterations. cbv zeta.
  rewrite !bind_run, Hinit. rewrite bind_run.
  unfold reading, np_zeros. simpl.
  case_decide; [done | lia].
Qed.

Lemma solve_DR_nonpositive_budget_witness :
  ∃ w0,
    initialize_variables Example.origin Example.problem Example.start = (Ok tt, w0) ∧
    _solve_DR Example.origin Example.problem 0 1%Qc (Q2Qc (1 # 10000)) Example.start
      = (Raise ValueError, w0).
Proof.
  destruct (initialize_variables Example.origin Example.problem Example.start)
    as [[[] | e] w0] eqn:E; [| by vm_compute in E].
  exists w0. split; [done |].
  apply (solve_DR_nonpositive_budget Example.origin Example.problem 0 1%Qc
           (Q2Qc (1 # 10000)) Example.start w0); [lia | exact E].
Defined.

(** ** The validation, lines 309-334 *)

Lemma fix_vars_in_expr_store_ext (st st' : store) e vs :
  (∀ v, var_in v vs = true → st !! var_id v = st' !! var_id v) →
  fix_vars_in_expr st e vs = fix_vars_in_expr st' e vs.
Proof.
  intros Hst.
  induction e as [v | sh val attrs | val | op args IH] using expr_ind'; try done.
  - cbn [fix_vars_in_expr]. destruct (var_in v vs) eqn:Hv; [| done].
    by rewrite (Hst v Hv).
  - cbn [fix_vars_in_expr]. destruct (length args =? 0); [done |].
    f_equal. apply map_ext_Forall, IH.
Qed.

Lemma Qcabs_nonneg x : (0 ≤ Qcabs x)%Qc.
Proof.
  unfold Qcabs. case_decide as Hx; [done |].
  apply Qcnot_le_lt, Qclt_le_weak, Qcopp_le_compat in Hx.
  by replace (- 0)%Qc with 0%Qc in Hx by ring.
Qed.

Section ValidateFacts.

Variable solver : Problem → store → solution.
Variable self : SaddlePointProblem.

(** The run of the validation, step by step. *)
Lemma validate_saddlepoint_run w w' :
  _validate_saddlepoint solver self w = (Ok tt, w') →
  ∃ pmax pmin st1,
    fix_vars self (var_values w) (min_vars self)
      = Ok (prob_objective pmax, prob_constraints pmax) ∧
    prob_sense pmax = Maximize ∧
    fix_vars self (var_values w) (max_vars self)
      = Ok (prob_objective pmin, prob_constraints pmin) ∧
    prob_sense pmin = Minimize ∧
    calls w' = calls w ++ [mkCall pmax (var_values w) OPTIMAL;
                           mkCall pmin st1 OPTIMAL] ∧
    stdout w' =
      stdout w ++
      [PrintGap (Qcabs (sol_value (solver pmax (var_values w))
                        - sol_value (solver pmin st1)))
                (sol_value (solver pmax (var_values w)))
                (sol_value (solver pmin st1))].
Proof.
  unfold _validate_saddlepoint. intros Hrun.
  apply bind_ok in Hrun as (max_pre & w1 & H1 & Hrun).
  apply reading_ok in H1 as [[= <-] ->].
  apply bind_ok in Hrun as (min_pre & w1 & H1 & Hrun).
  apply reading_ok in H1 as [[= <-] ->].
  apply bind_ok in Hrun as ([max_obj max_constr] & w1 & Hfix1 & Hrun).
  apply reading_ok in Hfix1 as [Hfix1 ->].
  apply solve_ok in Hrun as [Hs1 Hrun].
  set (pmax := mkProblem Maximize max_obj max_constr) in *.
  apply bind_ok in Hrun as ([] & w2 & Hrestore1 & Hrun).
  match type of Hrestore1 with for_each _ _ ?w0 = _ =>
    destruct (restore_run (max_vars self) (var_values w) w0)
      as (w2' & Hr & Hcalls2 & Hout2 & Hvals2) end.
  rewrite Hr in Hrestore1. injection Hrestore1 as <-.
  simpl in Hcalls2, Hout2, Hvals2.
  apply bind_ok in Hrun as ([min_obj min_constr] & w3 & Hfix2 & Hrun).
  apply reading_ok in Hfix2 as [Hfix2 ->].
  apply solve_ok in Hrun as [Hs2 Hrun].
  set (pmin := mkProblem Minimize min_obj min_constr) in *.
  apply bind_ok in Hrun as ([] & w4 & Hrestore2 & Hrun).
  match type of Hrestore2 with for_each _ _ ?w0 = _ =>
    destruct (restore_run (min_vars self) (var_values w) w0)
      as (w4' & Hr' & Hcalls4 & Hout4 & _) end.
  rewrite Hr' in Hrestore2. injection Hrestore2 as <-.
  simpl in Hcalls4, Hout4.
  unfold print in Hrun. injection Hrun as <-. simpl.
  exists pmax, pmin, (var_values w2').
  split; [exact Hfix1 |]. split; [done |]. split.
  { destruct (fix_vars_ok _ _ _ _ _ Hfix2) as [Hobj _].
    rewrite (fix_vars_constraints _ _ (var_values w) _ _ _ Hfix2).
    cbn [pmin prob_objective prob_constraints]. rewrite Hobj. do 2 f_equal.
    apply fix_vars_in_expr_store_ext. intros v Hv%var_in_spec.
    rewrite Hvals2. by rewrite bool_decide_eq_true_2. }
  split; [done |]. split.
  - rewrite Hcalls4, Hcalls2. by rewrite <- app_assoc.
  - by rewrite Hout4, Hout2.
Qed.

(** A solve that is optimal, and the assertion after it. *)
Lemma solve_run {B} p (f : solution → M B) w :
  sol_status (solver p (var_values w)) = OPTIMAL →
  (Problem_solve solver p ≫= λ s,
   assert (bool_decide (sol_status s = OPTIMAL)) ≫= λ _, f s) w
  = f (solver p (var_values w)) (solved solver p w).
Proof.
  intros H. rewrite bind_run. unfold Problem_solve. cbv beta iota zeta.
  rewrite H. rewrite bind_run.
  rewrite bool_decide_eq_true_2 by done. reflexivity.
Qed.

(** With a solver that finds every problem optimal, the validation
    goes through as soon as the constraints split. *)
Lemma validate_saddlepoint_total w o1 c1 o2 c2 :
  (∀ p st, sol_status (solver p st) = OPTIMAL) →
  fix_vars self (var_values w) (min_vars self) = Ok (o1, c1) →
  fix_vars self (var_values w) (max_vars self) = Ok (o2, c2) →
  ∃ w', _validate_saddlepoint solver self w = (Ok tt, w').
Proof.
  intros Hopt Hfix1 Hfix2. unfold _validate_saddlepoint.
  rewrite bind_run. unfold reading at 1. cbv beta iota.
  rewrite bind_run. unfold reading at 1. cbv beta iota.
  rewrite bind_run. unfold reading at 1. rewrite Hfix1. cbv beta iota.
  rewrite solve_run by apply Hopt.
  rewrite bind_run.
  match goal with |- context [for_each _ _ ?w0] =>
    destruct (restore_run (max_vars self) (var_values w) w0)
      as (w2 & Hr & _ & _ & _) end.
  rewrite Hr. cbv beta iota.
  rewrite bind_run. unfold reading at 1.
  rewrite (fix_vars_constraints _ _ (var_values w2) _ _ _ Hfix2). cbv beta iota.
  rewrite solve_run by apply Hopt.
  rewrite bind_run.
  match goal with |- context [for_each _ _ ?w0] =>
    destruct (restore_run (min_vars self) (var_values w) w0)
      as (w4 & Hr' & _ & _ & _) end.
  rewrite Hr'. cbv beta iota. unfold print. eauto.
Qed.

End ValidateFacts.

(** X9.  The validation re-solves each side without a proximal term, the
    other side held at the values it has when the validation starts: first
    the maximization, then (the maximizer's variables put back) the
    minimization.  It prints one line, with the two optimal values and the
    absolute value of their difference, which is never negative. *)
Theorem validate_saddlepoint_gap (solver : Problem → store → solution)
    (self : SaddlePointProblem) (w w' : world) :
  _validate_saddlepoint solver self w = (Ok tt, w') →
  ∃ pmax pmin st1,
    fix_vars self (var_values w) (min_vars self)
      = Ok (prob_objective pmax, prob_constraints pmax) ∧
    prob_sense pmax = Maximize ∧
    fix_vars self (var_values w) (max_vars self)
      = Ok (prob_objective pmin, prob_constraints pmin) ∧
    prob_sense pmin = Minimize ∧
    calls w' = calls w ++ [mkCall pmax (var_values w) OPTIMAL;
                           mkCall pmin st1 OPTIMAL] ∧
    let max_obj_value := sol_value (solver pmax (var_values w)) in
    let min_obj_value := sol_value (solver pmin st1) in
    let gap := Qcabs (max_obj_value - min_obj_value) in
    stdout w' = stdout w ++ [PrintGap gap max_obj_value min_obj_value] ∧
    (0 ≤ gap)%Qc.
Proof.
  intros (pmax & pmin & st1 & H1 & H2 & H3 & H4 & H5 & H6)%validate_saddlepoint_run.
  exists pmax, pmin, st1. do 5 (split; [done |]).
  cbv zeta. split; [done | apply Qcabs_nonneg].
Qed.

Lemma validate_saddlepoint_gap_witness :
  ∃ w' pmax pmin st1,
    _validate_saddlepoint far_apart Example.problem Example.start = (Ok tt, w') ∧
    calls w' = calls Example.start ++
                 [mkCall pmax (var_values Example.start) OPTIMAL;
                  mkCall pmin st1 OPTIMAL] ∧
    stdout w' = [PrintGap (Q2Qc 100) (Q2Qc 100) 0%Qc].
Proof.
  destruct (_validate_saddlepoint far_apart Example.problem Example.start)
    as [[[] | e] w'] eqn:E; [| by vm_compute in E].
  destruct (validate_saddlepoint_gap far_apart Example.problem Example.start w' E)
    as (pmax & pmin & st1 & _ & Hmax & _ & Hmin & Hcalls & Hout & _).
  exists w', pmax, pmin, st1. split; [done |]. split; [done |].
  rewrite Hout. unfold far_apart. cbn [sol_value]. rewrite Hmax, Hmin.
  simpl.
  assert (Qcabs (Q2Qc 100 - Q2Qc 0) = Q2Qc 100) as ->
    by (apply Qc_is_canon; vm_compute; reflexivity).
  reflexivity.
Defined.

(** X10.  The validation validates nothing: it raises for a constraint that
    does not split and for a solve that is not optimal, never for the gap.
    With a solver that finds every problem optimal it returns exactly when
    [fix_vars] goes through for both sides, however far apart the two
    optimal values are. *)
Theorem validate_saddlepoint_accepts_any_gap (solver : Problem → store → solution)
    (self : SaddlePointProblem) (w : world) :
  (∀ p st, sol_status (solver p st) = OPTIMAL) →
  (∃ w', _validate_saddlepoint solver self w = (Ok tt, w')) ↔
  (∃ o1 c1 o2 c2,
     fix_vars self (var_values w) (min_vars self) = Ok (o1, c1) ∧
     fix_vars self (var_values w) (max_vars self) = Ok (o2, c2)).
Proof.
  intros Hopt. split.
  - intros [w' (pmax & pmin & st1 & H1 & _ & H3 & _)%validate_saddlepoint_run].
    eauto 10.
  - intros (o1 & c1 & o2 & c2 & H1 & H2).
    by eapply validate_saddlepoint_total.
Qed.

Lemma validate_saddlepoint_accepts_any_gap_witness :
  ∃ w', _validate_saddlepoint far_apart Example.problem Example.start = (Ok tt, w').
Proof.
  apply (validate_saddlepoint_accepts_any_gap far_apart Example.problem Example.start).
  - intros p st. reflexivity.
  - eexists _, _, _, _. split; reflexivity.
Defined.

(** ** The loop of [_solve_DR], lines 231-285 *)

Lemma Forall_length_start {A} (f : A → ndarray) (vars : list A) :
  Forall (λ h : list ndarray, length h = 1) (map (λ v, [f v]) vars).
Proof. induction vars; by constructor. Qed.

Lemma Forall_length_append {A} (f : A → ndarray) n : ∀ (hists : list (list ndarray)) vars,
  Forall (λ h, length h = n) hists →
  Forall (λ h, length h = S n) (zip_with (λ hist v, hist ++ [f v]) hists vars).
Proof.
  induction hists as [| h hists IH]; intros [| v vars] Hall; try by constructor.
  apply list.Forall_cons in Hall as [Hh Hall]. simpl. constructor.
  - rewrite length_app. simpl. lia.
  - by apply IH.
Qed.

Lemma delta_lines_cons k delta deltas :
  delta_lines k (delta :: deltas) = PrintDelta k delta :: delta_lines (S k) deltas.
Proof.
  unfold delta_lines. rewrite imap_cons, Nat.add_0_r. f_equal.
  apply imap_ext. intros i d _. simpl. f_equal. lia.
Qed.

Section LoopFacts.

Variable solver : Problem → store → solution.
Variable self : SaddlePointProblem.

(** The last solve of a block, and the assertion after it. *)
Lemma solve_last_ok p w w' :
  (Problem_solve solver p ≫= λ s,
   assert (bool_decide (sol_status s = OPTIMAL))) w = (Ok tt, w') →
  sol_status (solver p (var_values w)) = OPTIMAL ∧ w' = solved solver p w.
Proof.
  rewrite bind_run. unfold Problem_solve. cbv beta iota zeta.
  case_bool_decide as Hs; [| done].
  intros [= <-]. split; [done |]. unfold solved. by rewrite Hs.
Qed.

(** What the initialisation leaves: two more solver calls, nothing
    printed, a value in every declared variable. *)
Lemma initialize_variables_ok w w0 :
  initialize_variables solver self w = (Ok tt, w0) →
  length (calls w0) = length (calls w) + 2 ∧
  stdout w0 = stdout w ∧
  defined self (var_values w0).
Proof.
  unfold initialize_variables. intros Hrun.
  apply bind_ok in Hrun as ([o1 min_constr] & w1 & Hfix1 & Hrun).
  apply reading_ok in Hfix1 as [Hfix1 ->].
  apply solve_ok in Hrun as [Hs1 Hrun].
  set (p1 := mkProblem Minimize _ min_constr) in *.
  set (w1 := mkWorld _ _ _) in Hrun.
  apply bind_ok in Hrun as ([o2 max_constr] & w2 & Hfix2 & Hrun).
  apply reading_ok in Hfix2 as [Hfix2 ->].
  apply solve_last_ok in Hrun as [Hs2 ->].
  set (p2 := mkProblem Maximize _ max_constr) in *.
  split; [| split].
  - unfold solved, w1. simpl. rewrite !length_app. simpl. lia.
  - done.
  - intros v Hv. unfold solved. cbn [var_values].
    rewrite save_values_lookup. case_bool_decide as Hin2; [done |].
    unfold w1. cbn [var_values]. rewrite save_values_lookup.
    apply elem_of_app in Hv as [Hv | Hv].
    + rewrite bool_decide_eq_true_2; [done |].
      apply unique_list_ids. unfold p1. cbn [prob_objective].
      rewrite variables_zero_weighted, fmap_app.
      apply elem_of_app. left. by apply list_elem_of_fmap_2.
    + exfalso. apply Hin2.
      apply unique_list_ids. unfold p2. cbn [prob_objective].
      rewrite variables_zero_weighted, fmap_app.
      apply elem_of_app. left. by apply list_elem_of_fmap_2.
Qed.

(** One iteration: one more entry in every history, two more solver
    calls, and from iteration 2 on one line with the delta that decides
    whether the loop stops. *)
Lemma iteration_step alpha eps cols k l w b l1 w1 :
  iteration solver self alpha eps cols k l w = (Ok (b, l1), w1) →
  k = 0 ∨ recorded self k l →
  recorded self (S k) l1 ∧
  length (calls w1) = length (calls w) + 2 ∧
  ((k < 2 ∧ b = false ∧ stdout w1 = stdout w) ∨
   (2 ≤ k ∧ ∃ delta,
      stdout w1 = stdout w ++ [PrintDelta k delta] ∧
      b = bool_decide (delta ≤ eps)%Qc)).
Proof.
  intros (pmax & pmin & maxh & minh & plot' & _ & _ & Hrec1 & _ & _ &
          Hrec2 & Hstop & ->)%iteration_ok Hk.
  apply record_ok in Hrec1 as (_ & Hmax0 & Hmax1).
  apply record_ok in Hrec2 as (_ & Hmin0 & Hmin1).
  apply stopping_criterion_ok in Hstop as (_ & Hcalls & Hk0 & _ & Hk1 & Hk2).
  split; [| split].
  - exists maxh, minh. split; [done |]. split; [done |].
    destruct (decide (k = 0)) as [-> | Hne].
    + apply hist_start_ok in Hmax0 as [_ ->]; [| done].
      apply hist_start_ok in Hmin0 as [_ ->]; [| done].
      rewrite !length_map. repeat split; try done; apply Forall_length_start.
    + destruct Hk as [? | (maxh0 & minh0 & Hb1 & Hb2 & Hl1 & Hl2 & Hn1 & Hn2)];
        [done |].
      destruct (Hmax1 Hne) as (h1 & E1 & Happ1).
      destruct (Hmin1 Hne) as (h2 & E2 & Happ2).
      rewrite Hb1 in E1. rewrite Hb2 in E2. simplify_eq.
      pose proof (hist_append_length _ _ _ _ Happ1) as Hlen1.
      pose proof (hist_append_length _ _ _ _ Happ2) as Hlen2.
      apply hist_append_ok in Happ1 as [_ ->]; [| done].
      apply hist_append_ok in Happ2 as [_ ->]; [| done].
      split; [congruence |]. split; [congruence |].
      split; by apply Forall_length_append.
  - rewrite Hcalls. unfold solved. simpl. rewrite !length_app. simpl. lia.
  - destruct (decide (k = 0)) as [-> | Hne0].
    { left. destruct Hk0 as (-> & _ & ->); [done |]. split; [lia | done]. }
    destruct (decide (k = 1)) as [-> | Hne1].
    { left. destruct Hk1 as (-> & ->); [done |]. split; [lia | done]. }
    right. split; [lia |].
    destruct Hk2 as (previous & difference & delta & _ & _ & _ & -> & ->); [lia |].
    by exists delta.
Qed.

(** The iterations from [k] on, [n] of them allowed. *)
Lemma for_range_protocol alpha eps cols n : ∀ k l w l' w',
  for_range n k (iteration solver self alpha eps cols) l w = (Ok l', w') →
  0 < n →
  k = 0 ∨ recorded self k l →
  ∃ m deltas,
    1 ≤ m ≤ n ∧
    recorded self (k + m) l' ∧
    length (calls w') = length (calls w) + 2 * m ∧
    stdout w' = stdout w ++ delta_lines (k `max` 2) deltas ∧
    length deltas = k + m - k `max` 2 ∧
    (∀ i d, deltas !! i = Some d → S i < length deltas → (eps < d)%Qc) ∧
    (m < n → ∃ d, list.last deltas = Some d ∧ (d ≤ eps)%Qc).
Proof.
  induction n as [| n IH]; intros k l w l' w' Hrun Hn Hk; [lia |].
  simpl in Hrun.
  apply bind_ok in Hrun as ([stop l1] & w1 & Hit & Hrun).
  destruct (iteration_step _ _ _ _ _ _ _ _ _ Hit Hk) as (Hrec & Hcalls & Hout).
  assert ((stop = true ∨ n = 0) ∨ (stop = false ∧ 0 < n)) as [Hlast | [-> Hmore]]
    by (destruct stop; [by left; left | destruct n; [left; by right | right; split; [done | lia]]]).
  - (* the last iteration that runs *)
    assert (l' = l1 ∧ w' = w1) as [-> ->].
    { destruct stop; [by injection Hrun as <- <- |].
      destruct Hlast as [? | ->]; [done |]. by injection Hrun as <- <-. }
    destruct Hout as [(Hk2 & -> & Hout) | (Hk2 & delta & Hout & Hb)].
    + exists 1, []. split; [lia |]. rewrite Nat.add_1_r. split; [done |].
      split; [lia |]. split; [by rewrite app_nil_r |].
      split; [simpl; lia |]. split; [by intros i d [=] |].
      intros Hlt. destruct Hlast as [? | ->]; [done | lia].
    + exists 1, [delta]. split; [lia |]. rewrite Nat.add_1_r. split; [done |].
      split; [lia |]. replace (k `max` 2) with k by lia.
      split; [by rewrite Hout, delta_lines_cons |].
      split; [simpl; lia |]. split.
      { intros [| i] d Hd Hi; simpl in Hi; lia. }
      intros Hlt. destruct Hlast as [-> | ->]; [| lia].
      exists delta. split; [done |].
      symmetry in Hb. by apply bool_decide_eq_true in Hb.
  - (* the loop goes on *)
    destruct (IH (S k) l1 w1 l' w' Hrun Hmore (or_intror Hrec))
      as (m & deltas & Hm & Hrec' & Hcalls' & Hout' & Hlen & Hbig & Hstop).
    destruct Hout as [(Hk2 & _ & Hout) | (Hk2 & delta & Hout & Hb)].
    + exists (S m), deltas. split; [lia |].
      replace (k + S m) with (S k + m) by lia. split; [done |].
      split; [lia |]. replace (k `max` 2) with (S k `max` 2) by lia.
      split; [by rewrite Hout', Hout |]. split; [lia |]. split; [done |].
      intros Hlt. apply Hstop. lia.
    + exists (S m), (delta :: deltas). split; [lia |].
      replace (k + S m) with (S k + m) by lia. split; [done |].
      split; [lia |]. replace (k `max` 2) with k by lia.
      replace (S k `max` 2) with (S k) in Hout', Hlen by lia.
      split; [by rewrite Hout', Hout, delta_lines_cons, <- app_assoc |].
      split; [simpl; lia |]. split.
      * intros [| i] d Hd Hi.
        -- injection Hd as <-. symmetry in Hb.
           apply bool_decide_eq_false in Hb. by apply Qcnot_le_lt.
        -- apply (Hbig i d Hd). simpl in Hi. lia.
      * intros Hlt. destruct Hstop as (d & Hd & Hle); [lia |].
        exists d. split; [| done].
        destruct deltas as [| d0 deltas']; [done |]. by rewrite last_cons, Hd.
Qed.

(** The whole loop, with the initialisation before it. *)
Lemma iterations_run max_iters alpha eps w l w' :
  iterations solver self max_iters alpha eps w = (Ok l, w') →
  ∃ n deltas,
    1 ≤ n ∧ (Z.of_nat n ≤ max_iters)%Z ∧
    recorded self n l ∧
    length (calls w') = length (calls w) + 2 + 2 * n ∧
    stdout w' = stdout w ++ delta_lines 2 deltas ∧
    length deltas = n - 2 ∧
    (∀ i d, deltas !! i = Some d → S i < length deltas → (eps < d)%Qc) ∧
    ((Z.of_nat n < max_iters)%Z → ∃ d, list.last deltas = Some d ∧ (d ≤ eps)%Qc).
Proof.
  unfold iterations. intros Hrun.
  apply bind_ok in Hrun as ([] & w0 & Hinit & Hrun).
  apply initialize_variables_ok in Hinit as (Hcalls0 & Hout0 & _).
  apply bind_ok in Hrun as (plot & w2 & [Hzeros ->]%reading_ok & Hrun).
  unfold np_zeros in Hzeros. case_decide as Hrows; [done |].
  apply for_range_protocol in Hrun
    as (m & deltas & Hm & Hrec & Hcalls & Hout & Hlen & Hbig & Hstop);
    [| lia | by left].
  exists m, deltas. split; [lia |]. split; [lia |]. split; [done |].
  split; [lia |]. split; [by rewrite Hout, Hout0 |]. split; [simpl in Hlen; lia |].
  split; [done |]. intros Hlt. apply Hstop. lia.
Qed.

End LoopFacts.

(** X11.  The protocol of the loop.  When the initialisation and the loop go
    through, some number [n] of iterations ran, at least one and at most
    [max_iters]; every variable has a history of [n] values; the solver was
    called twice by the initialisation and twice in each iteration; one line
    was printed in each iteration from iteration 2 on, so [n - 2] lines,
    numbered from 2; every delta but the last one is above [eps]; and when
    the loop stopped before its budget was used up, the last delta is at
    most [eps]. *)
Theorem iterations_protocol (solver : Problem → store → solution)
    (self : SaddlePointProblem) (max_iters : Z) (alpha eps : Qc)
    (w : world) (l : locals) (w' : world) :
  iterations solver self max_iters alpha eps w = (Ok l, w') →
  ∃ n deltas,
    1 ≤ n ∧ (Z.of_nat n ≤ max_iters)%Z ∧
    recorded self n l ∧
    length (calls w') = length (calls w) + 2 + 2 * n ∧
    stdout w' = stdout w ++ delta_lines 2 deltas ∧
    length deltas = n - 2 ∧
    (∀ i d, deltas !! i = Some d → S i < length deltas → (eps < d)%Qc) ∧
    ((Z.of_nat n < max_iters)%Z → ∃ d, list.last deltas = Some d ∧ (d ≤ eps)%Qc).
Proof. apply iterations_run. Qed.

Lemma iterations_protocol_witness :
  ∃ l w' n deltas,
    iterations Example.origin Example.problem 5 (Q2Qc 2) (Q2Qc (1 # 10000))
      Example.start = (Ok l, w') ∧
    1 ≤ n ∧ (Z.of_nat n ≤ 5)%Z ∧
    recorded Example.problem n l ∧
    length (calls w') = 2 + 2 * n ∧
    stdout w' = delta_lines 2 deltas ∧
    length deltas = n - 2.
Proof.
  destruct (iterations Example.origin Example.problem 5 (Q2Qc 2) (Q2Qc (1 # 10000))
              Example.start) as [[l | e] w'] eqn:E; [| by vm_compute in E].
  destruct (iterations_protocol Example.origin Example.problem 5 (Q2Qc 2)
              (Q2Qc (1 # 10000)) Example.start l w' E)
    as (n & deltas & Hn & Hmax & Hrec & Hcalls & Hout & Hlen & _).
  exists l, w', n, deltas. repeat split; try done; lia.
Defined.

(** ** What a solve writes to, lines 181-334 *)

Section FrameFacts.

Variable solver : Problem → store → solution.
Variable self : SaddlePointProblem.

Lemma framed_ret {A} (a : A) : framed self (mret a).
Proof. by intros w r w' i [= <- <-]. Qed.

Lemma framed_raise {A} e : framed self (raise e : M A).
Proof. by intros w r w' i [= <- <-]. Qed.

Lemma framed_assert b : framed self (assert b).
Proof. destruct b; [apply framed_ret | apply framed_raise]. Qed.

Lemma framed_reading {A} (f : store → result A) : framed self (reading f).
Proof. by intros w r w' i [= <- <-]. Qed.

Lemma framed_get_local {A} (o : option A) : framed self (get_local o).
Proof. destruct o; [apply framed_ret | apply framed_raise]. Qed.

Lemma framed_print l : framed self (print l).
Proof. by intros w r w' i [= <- <-]. Qed.

Lemma framed_bind {A B} (m : M A) (f : A → M B) :
  framed self m → (∀ a, framed self (f a)) → framed self (m ≫= f).
Proof.
  intros Hm Hf w r w' i. rewrite bind_run.
  destruct (m w) as [[a | e] w1] eqn:E.
  - intros Hrun Hi. rewrite (Hf a _ _ _ _ Hrun Hi). by apply (Hm _ _ _ _ E).
  - intros [= <- <-] Hi. by apply (Hm _ _ _ _ E).
Qed.

(** What a construction returned is known to the code after it. *)
Lemma framed_reading_bind {A B} (f : store → result A) (k : A → M B) :
  (∀ st a, f st = Ok a → framed self (k a)) → framed self (reading f ≫= k).
Proof.
  intros Hk w r w' i. rewrite bind_run. unfold reading.
  destruct (f (var_values w)) as [a | e] eqn:E.
  - apply (Hk _ _ E).
  - by intros [= <- <-].
Qed.

Lemma framed_set_value v a :
  v ∈ footprint self → framed self (set_value v a).
Proof.
  intros Hv w r w' i [= <- <-] Hi. simpl.
  assert (i ≠ var_id v) as Hne.
  { intros ->. apply Hi. by apply list_elem_of_fmap_2. }
  destruct a; [by rewrite lookup_insert_ne | by rewrite lookup_delete_ne].
Qed.

Lemma framed_for_each {A} (f : A → M unit) l :
  (∀ a, a ∈ l → framed self (f a)) → framed self (for_each f l).
Proof.
  induction l as [| a l IH]; intros Hf; simpl.
  - apply framed_ret.
  - apply framed_bind; [apply Hf; by left |].
    intros _. apply IH. intros b Hb. apply Hf. by right.
Qed.

Lemma framed_for_range body :
  (∀ k l, framed self (body k l)) → ∀ n k l, framed self (for_range n k body l).
Proof.
  intros Hbody. induction n as [| n IH]; intros k l; simpl.
  - apply framed_ret.
  - apply framed_bind; [apply Hbody |]. intros [[] l'].
    + apply framed_ret.
    + apply IH.
Qed.

(** A solve writes to the variables of its problem. *)
Lemma framed_solve p :
  (∀ i, i ∈ var_id <$> problem_variables p → i ∈ var_id <$> footprint self) →
  framed self (Problem_solve solver p).
Proof.
  intros Hp w r w' i. unfold Problem_solve. cbv zeta.
  intros [= <- <-] Hi. cbn [var_values].
  destruct (sol_status _); try done.
  rewrite save_values_lookup. rewrite bool_decide_eq_false_2; [done |].
  intros Hin. by apply Hi, Hp.
Qed.

Lemma declared_in_footprint v :
  v ∈ min_vars self ++ max_vars self → v ∈ footprint self.
Proof. intros Hv. unfold footprint. rewrite !elem_of_app in *. tauto. Qed.

(** The variables of a sub-problem: those of its objective, which are of
    the objective of the problem or declared, and those of constraints of
    the problem. *)
Lemma problem_in_footprint sense obj constr :
  (∀ v, v ∈ variables obj → v ∈ footprint self) →
  (∀ c, c ∈ constr → c ∈ constraints self) →
  ∀ i, i ∈ var_id <$> problem_variables (mkProblem sense obj constr) →
       i ∈ var_id <$> footprint self.
Proof.
  intros Hobj Hconstr i Hi. apply (proj1 (unique_list_ids _ i)) in Hi.
  unfold problem_variables in Hi. cbn [prob_objective prob_constraints] in Hi.
  apply list_elem_of_fmap in Hi as (v & -> & Hv). apply list_elem_of_fmap_2.
  apply elem_of_app in Hv as [Hv | Hv]; [by apply Hobj |].
  apply elem_of_concat_map in Hv as (c & Hc & Hv).
  unfold footprint. rewrite !elem_of_app. right. left.
  apply elem_of_concat_map. exists c. split; [by apply Hconstr | done].
Qed.

Lemma fixed_in_footprint st vs v :
  v ∈ variables (fix_vars_in_expr st (objective self) vs) → v ∈ footprint self.
Proof.
  intros [Hv _]%variables_fix_vars_in_expr.
  unfold footprint. rewrite !elem_of_app. by left.
Qed.

Lemma framed_fixed_solve sense st fixed obj constr :
  fix_vars self st fixed = Ok (obj, constr) →
  framed self (Problem_solve solver (mkProblem sense obj constr)).
Proof.
  intros [-> Hrel]%fix_vars_ok. apply framed_solve, problem_in_footprint.
  - apply fixed_in_footprint.
  - intros c Hc. by apply Hrel.
Qed.

Lemma framed_initialize_variables : framed self (initialize_variables solver self).
Proof.
  unfold initialize_variables.
  apply framed_reading_bind. intros st [o1 min_constr] [_ Hrel]%fix_vars_ok.
  apply framed_bind.
  { apply framed_solve, problem_in_footprint.
    - intros v. rewrite variables_zero_weighted. intros Hv.
      apply declared_in_footprint, elem_of_app. by left.
    - intros c Hc. by apply Hrel. }
  intros s1. apply framed_bind; [apply framed_assert |]. intros _.
  apply framed_reading_bind. intros st' [o2 max_constr] [_ Hrel']%fix_vars_ok.
  apply framed_bind; [| intros s2; apply framed_assert].
  apply framed_solve, problem_in_footprint.
  - intros v. rewrite variables_zero_weighted. intros Hv.
    apply declared_in_footprint, elem_of_app. by right.
  - intros c Hc. by apply Hrel'.
Qed.

Ltac framing :=
  repeat first
    [ apply framed_ret
    | apply framed_raise
    | apply framed_assert
    | apply framed_reading
    | apply framed_get_local
    | apply framed_print
    | match goal with
      | |- framed _ (if ?b then _ else _) => destruct b
      | |- framed _ (let '(_, _) := ?x in _) => destruct x
      end
    | apply framed_bind; [| intros ?] ].

Lemma framed_record k o vars : framed self (record k o vars).
Proof. unfold record. framing. Qed.

Lemma framed_stopping_criterion eps cols k plot minh maxh :
  framed self (stopping_criterion eps cols k plot minh maxh).
Proof. unfold stopping_criterion. framing. Qed.

Lemma framed_iteration alpha eps cols k l :
  framed self (iteration solver self alpha eps cols k l).
Proof.
  unfold iteration.
  apply framed_reading_bind.
  intros st pmax (constr & [_ Hrel]%fix_vars_ok & _ & ->)%maximization_problem_ok.
  apply framed_bind.
  { apply framed_solve, problem_in_footprint.
    - intros v. cbn [variables map concat]. rewrite app_nil_r.
      intros [Hv | Hv]%elem_of_app; [by eapply fixed_in_footprint |].
      rewrite variables_weighted_prox in Hv.
      apply declared_in_footprint, elem_of_app. by right.
    - intros c Hc. by apply Hrel. }
  intros s1. apply framed_bind; [apply framed_assert |]. intros _.
  apply framed_bind; [apply framed_record |]. intros maxh.
  apply framed_reading_bind.
  intros st' pmin (constr' & [_ Hrel']%fix_vars_ok & _ & ->)%minimization_problem_ok.
  apply framed_bind.
  { apply framed_solve, problem_in_footprint.
    - intros v. cbn [variables map concat]. rewrite app_nil_r.
      intros [Hv | Hv]%elem_of_app; [by eapply fixed_in_footprint |].
      rewrite variables_weighted_prox in Hv.
      apply declared_in_footprint, elem_of_app. by left.
    - intros c Hc. by apply Hrel'. }
  intros s2. apply framed_bind; [apply framed_assert |]. intros _.
  apply framed_bind; [apply framed_record |]. intros minh.
  apply framed_bind; [apply framed_stopping_criterion |].
  intros [stop plot]. apply framed_ret.
Qed.

Lemma framed_iterations max_iters alpha eps :
  framed self (iterations solver self max_iters alpha eps).
Proof.
  unfold iterations.
  apply framed_bind; [apply framed_initialize_variables |]. intros _.
  apply framed_bind; [apply framed_reading |]. intros plot.
  apply framed_for_range. intros. apply framed_iteration.
Qed.

Lemma framed_finalize l : framed self (finalize self l).
Proof.
  unfold finalize.
  apply framed_bind; [apply framed_get_local |]. intros minh.
  apply framed_bind.
  { apply framed_for_each. intros [v hist] Hv%elem_of_zip_l.
    apply framed_set_value, declared_in_footprint, elem_of_app. by left. }
  intros _. apply framed_bind; [apply framed_get_local |]. intros maxh.
  apply framed_for_each. intros [v hist] Hv%elem_of_zip_l.
  apply framed_set_value, declared_in_footprint, elem_of_app. by right.
Qed.

Lemma framed_validate_saddlepoint : framed self (_validate_saddlepoint solver self).
Proof.
  unfold _validate_saddlepoint.
  apply framed_bind; [apply framed_reading |]. intros max_pre.
  apply framed_bind; [apply framed_reading |]. intros min_pre.
  apply framed_reading_bind. intros st [max_obj max_constr] Hfix1.
  apply framed_bind; [by eapply framed_fixed_solve |]. intros s1.
  apply framed_bind; [apply framed_assert |]. intros _.
  apply framed_bind.
  { apply framed_for_each. intros [v prev] Hv%elem_of_zip_l.
    apply framed_set_value, declared_in_footprint, elem_of_app. by right. }
  intros _.
  apply framed_reading_bind. intros st' [min_obj min_constr] Hfix2.
  apply framed_bind; [by eapply framed_fixed_solve |]. intros s2.
  apply framed_bind; [apply framed_assert |]. intros _.
  apply framed_bind; [| intros _; apply framed_print].
  apply framed_for_each. intros [v prev] Hv%elem_of_zip_l.
  apply framed_set_value, declared_in_footprint, elem_of_app. by left.
Qed.

Lemma framed_solve_DR max_iters alpha eps :
  framed self (_solve_DR solver self max_iters alpha eps).
Proof.
  unfold _solve_DR. cbv zeta.
  apply framed_bind; [apply framed_iterations |]. intros l.
  apply framed_bind; [apply framed_finalize |]. intros _.
  apply framed_validate_saddlepoint.
Qed.

End FrameFacts.

(** X12.  [solve] writes to no variable but those the problem mentions (in its
    objective, in a constraint or in one of the two declared lists):
    however the call ends, with whatever method, a variable of another
    problem holds what it held before. *)
Theorem solve_frame (solver : Problem → store → solution)
    (self : SaddlePointProblem) (method : string) (max_iters : Z) (alpha eps : Qc)
    (w : world) (r : result unit) (w' : world) (i : loc) :
  solve solver self method max_iters alpha eps w = (r, w') →
  i ∉ var_id <$> footprint self →
  var_values w' !! i = var_values w !! i.
Proof.
  unfold solve. destruct (String.eqb method "DR").
  - apply framed_solve_DR.
  - by intros [= <- <-].
Qed.

Lemma solve_frame_witness :
  let w := mkWorld {[ 9%positive := [Q2Qc 7] ]} [] [] in
  ∃ w',
    solve Example.origin Example.problem "DR" 5 1%Qc (Q2Qc (1 # 10000)) w
      = (Ok tt, w') ∧
    var_values w' !! 9%positive = Some [Q2Qc 7].
Proof.
  intros w.
  destruct (solve Example.origin Example.problem "DR" 5 1%Qc (Q2Qc (1 # 10000)) w)
    as [[[] | e] w'] eqn:E; [| by vm_compute in E].
  exists w'. split; [done |].
  rewrite (solve_frame Example.origin Example.problem "DR" 5 1%Qc
             (Q2Qc (1 # 10000)) w (Ok tt) w' 9%positive E).
  - reflexivity.
  - apply (bool_decide_unpack _). vm_compute. reflexivity.
Defined.

(** ** The exceptions of a solve, lines 181-334 *)

Section SafeRules.

Variable I : store → Prop.

Lemma safe_ret {A} (a : A) (phi : A → Prop) : phi a → safe I (mret a) phi.
Proof. by intros Ha w r w' HI [= <- <-]. Qed.

Lemma safe_raise {A} e (phi : A → Prop) :
  e = AssertionError ∨ e = ValueError → safe I (raise e : M A) phi.
Proof. by intros He w r w' HI [= <- <-]. Qed.

Lemma safe_assert b : safe I (assert b) (λ _, b = true).
Proof. destruct b; intros w r w' HI [= <- <-]; [done | by left]. Qed.

Lemma safe_reading {A} (f : store → result A) (phi : A → Prop) :
  (∀ st, I st → match f st with
                | Ok a => phi a
                | Raise e => e = AssertionError ∨ e = ValueError
                end) →
  safe I (reading f) phi.
Proof.
  intros Hf w r w' HI [= <- <-]. specialize (Hf _ HI).
  by destruct (f (var_values w)).
Qed.

Lemma safe_get_local {A} (o : option A) :
  is_Some o → safe I (get_local o) (λ a, o = Some a).
Proof. by intros [a ->] w r w' HI [= <- <-]. Qed.

Lemma safe_print l : safe I (print l) (λ _, True).
Proof. by intros w r w' HI [= <- <-]. Qed.

Lemma safe_set_value v a :
  (∀ st, I st → I (match a with
                   | Some a => <[var_id v := a]> st
                   | None => delete (var_id v) st
                   end)) →
  safe I (set_value v a) (λ _, True).
Proof. intros Ha w r w' HI [= <- <-]. split; [by apply Ha | done]. Qed.

Lemma safe_bind {A B} (m : M A) (f : A → M B) (phi : A → Prop) (psi : B → Prop) :
  safe I m phi → (∀ a, phi a → safe I (f a) psi) → safe I (m ≫= f) psi.
Proof.
  intros Hm Hf w r w' HI. rewrite bind_run.
  destruct (m w) as [[a | e] w1] eqn:E.
  - destruct (Hm _ _ _ HI E) as [HI1 Ha]. by apply Hf.
  - intros [= <- <-]. apply (Hm _ _ _ HI E).
Qed.

Lemma safe_weaken {A} (m : M A) (phi psi : A → Prop) :
  safe I m phi → (∀ a, phi a → psi a) → safe I m psi.
Proof.
  intros Hm Himp w r w' HI Hrun. specialize (Hm _ _ _ HI Hrun).
  destruct r; [| done]. destruct Hm. split; [done | by apply Himp].
Qed.

Lemma safe_for_each {A} (f : A → M unit) l :
  (∀ a, a ∈ l → safe I (f a) (λ _, True)) → safe I (for_each f l) (λ _, True).
Proof.
  induction l as [| a l IH]; intros Hf; simpl.
  - by apply safe_ret.
  - eapply safe_bind; [apply Hf; by left |].
    intros _ _. apply IH. intros b Hb. apply Hf. by right.
Qed.

Hypothesis I_save : ∀ primal vs st, I st → I (save_values primal vs st).

Lemma safe_solve solver p : safe I (Problem_solve solver p) (λ _, True).
Proof.
  intros w r w' HI. unfold Problem_solve. cbv zeta. intros [= <- <-].
  split; [| done]. cbn [var_values].
  destruct (sol_status _); try done. by apply I_save.
Qed.

End SafeRules.

Lemma defined_save self primal vs st :
  defined self st → defined self (save_values primal vs st).
Proof.
  intros Hdef v Hv. rewrite save_values_lookup.
  case_bool_decide; [done | by apply Hdef].
Qed.

Lemma all_defined self st vars :
  defined self st →
  (∀ v, v ∈ vars → v ∈ min_vars self ++ max_vars self) →
  Forall (λ v, is_Some (st !! var_id v)) vars.
Proof.
  intros Hdef Hsub. apply list.Forall_forall. intros v Hv. by apply Hdef, Hsub.
Qed.

Section SafeFacts.

Variable solver : Problem → store → solution.
Variable self : SaddlePointProblem.

(** [fix_vars] raises the two exceptions its text names. *)
Lemma fix_vars_error st fixed e :
  fix_vars self st fixed = Raise e → e = AssertionError ∨ e = ValueError.
Proof.
  unfold fix_vars. destruct (negb _); [intros [= <-]; by left |].
  cbv zeta. rewrite relevant_closed.
  destruct (List.find _ _) as [c |]; [| done].
  intros [= <-]. destruct (touches fixed c); [by left | by right].
Qed.

Lemma safe_fix_vars I fixed :
  safe I (reading (λ st, fix_vars self st fixed)) (λ _, True).
Proof.
  apply safe_reading. intros st _.
  destruct (fix_vars self st fixed) eqn:E; [done | by eapply fix_vars_error].
Qed.

Lemma safe_initialize_variables :
  safe (λ _, True) (initialize_variables solver self) (λ _, True).
Proof.
  unfold initialize_variables.
  eapply safe_bind; [apply safe_fix_vars |]. intros [o1 min_constr] _.
  eapply safe_bind; [by apply safe_solve |]. intros s1 _.
  eapply safe_bind; [apply safe_assert |]. intros _ _.
  eapply safe_bind; [apply safe_fix_vars |]. intros [o2 max_constr] _.
  eapply safe_bind; [by apply safe_solve |]. intros s2 _.
  eapply safe_weaken; [apply safe_assert | done].
Qed.

Lemma safe_validate_saddlepoint :
  safe (λ _, True) (_validate_saddlepoint solver self) (λ _, True).
Proof.
  unfold _validate_saddlepoint.
  eapply safe_bind with (phi := λ _, True); [by apply safe_reading |].
  intros max_pre _.
  eapply safe_bind with (phi := λ _, True); [by apply safe_reading |].
  intros min_pre _.
  eapply safe_bind; [apply safe_fix_vars |]. intros [max_obj max_constr] _.
  eapply safe_bind; [by apply safe_solve |]. intros s1 _.
  eapply safe_bind; [apply safe_assert |]. intros _ _.
  eapply safe_bind.
  { apply safe_for_each. intros [v prev] _. by apply safe_set_value. }
  intros _ _.
  eapply safe_bind; [apply safe_fix_vars |]. intros [min_obj min_constr] _.
  eapply safe_bind; [by apply safe_solve |]. intros s2 _.
  eapply safe_bind; [apply safe_assert |]. intros _ _.
  eapply safe_bind; [| intros _ _; apply safe_print].
  apply safe_for_each. intros [v prev] _. by apply safe_set_value.
Qed.

(** The two histories are bound when the final assignment reads them. *)
Lemma safe_finalize l :
  bound self l → safe (λ _, True) (finalize self l) (λ _, True).
Proof.
  intros (maxh & minh & Hmax & Hmin & _). unfold finalize.
  eapply safe_bind; [apply safe_get_local; by rewrite Hmin |]. intros ? _.
  eapply safe_bind.
  { apply safe_for_each. intros [v hist] _. by apply safe_set_value. }
  intros _ _.
  eapply safe_bind; [apply safe_get_local; by rewrite Hmax |]. intros ? _.
  apply safe_for_each. intros [v hist] _. by apply safe_set_value.
Qed.

(** The variables whose value a sub-problem is built from have one. *)
Lemma safe_maximization_problem alpha :
  safe (defined self) (reading (maximization_problem self alpha)) (λ _, True).
Proof.
  apply safe_reading. intros st Hdef.
  destruct (maximization_problem self alpha st) as [p | e] eqn:E; [done |].
  unfold maximization_problem in E.
  destruct (fix_vars self st (min_vars self)) as [[o c] | e'] eqn:Efix.
  - exfalso. simpl in E.
    assert (Forall (λ v, is_Some (st !! var_id v)) (max_vars self)) as Hall.
    { apply (all_defined self); [done |]. intros v Hv. apply elem_of_app. by right. }
    rewrite (proj2 (prox_terms_ok st (max_vars self) _) (conj Hall eq_refl)) in E.
    done.
  - injection E as <-. by eapply fix_vars_error.
Qed.

Lemma safe_minimization_problem alpha :
  safe (defined self) (reading (minimization_problem self alpha)) (λ _, True).
Proof.
  apply safe_reading. intros st Hdef.
  destruct (minimization_problem self alpha st) as [p | e] eqn:E; [done |].
  unfold minimization_problem in E.
  destruct (fix_vars self st (max_vars self)) as [[o c] | e'] eqn:Efix.
  - exfalso. simpl in E.
    assert (Forall (λ v, is_Some (st !! var_id v)) (min_vars self)) as Hall.
    { apply (all_defined self); [done |]. intros v Hv. apply elem_of_app. by left. }
    rewrite (proj2 (prox_terms_ok st (min_vars self) _) (conj Hall eq_refl)) in E.
    done.
  - injection E as <-. by eapply fix_vars_error.
Qed.

(** A history is bound and its variables have values when it is
    extended. *)
Lemma safe_record k o vars :
  (∀ v, v ∈ vars → v ∈ min_vars self ++ max_vars self) →
  k = 0 ∨ (∃ h0, o = Some h0 ∧ length h0 = length vars) →
  safe (defined self) (record k o vars) (λ h, length h = length vars).
Proof.
  intros Hsub Hk w r w' Hdef.
  pose proof (all_defined self _ vars Hdef Hsub) as Hall.
  unfold record. destruct (k =? 0) eqn:Ek.
  - unfold reading. intros [= <- <-].
    rewrite (proj2 (hist_start_ok vars (var_values w) _) (conj Hall eq_refl)).
    split; [done |]. by rewrite length_map.
  - apply Nat.eqb_neq in Ek. destruct Hk as [? | (h0 & -> & Hlen)]; [done |].
    rewrite bind_run. cbn [get_local]. unfold reading. intros [= <- <-].
    rewrite (proj2 (hist_append_ok vars (var_values w) h0 _ Hlen) (conj Hall eq_refl)).
    split; [done |]. rewrite length_zip_with. lia.
Qed.

(** The row of the iteration before is in [plot_array]. *)
Lemma safe_stopping_criterion I eps cols k plot minh maxh :
  k ≤ length plot →
  safe I (stopping_criterion eps cols k plot minh maxh)
    (λ '(_, plot'), length plot' = length plot).
Proof.
  intros Hk. unfold stopping_criterion.
  destruct (0 <? k) eqn:E0; [| by apply safe_ret].
  eapply safe_bind with (phi := λ plot', length plot' = length plot).
  { apply safe_reading. intros st _. unfold setitem.
    case_bool_decide; [by rewrite length_insert |].
    destruct (aggregate minh maxh) as [| x [| ? ?]]; try (by right).
    by rewrite length_insert. }
  intros plot' Hlen. destruct (1 <? k) eqn:E1; [| by apply safe_ret].
  apply Nat.ltb_lt in E1.
  eapply safe_bind with (phi := λ _, True).
  { apply safe_reading. intros st _. unfold getitem.
    destruct (plot' !! (k - 2)) eqn:El; [done |].
    apply lookup_ge_None in El. lia. }
  intros previous _.
  eapply safe_bind with (phi := λ _, True).
  { apply safe_reading. intros st _. unfold np_sub.
    destruct (elementwise _ _ _); [done | by right]. }
  intros difference _.
  eapply safe_bind with (phi := λ _, True).
  { apply safe_reading. intros st _. unfold norm_inf.
    destruct difference; [by right | done]. }
  intros delta _.
  eapply safe_bind; [apply safe_print |]. intros _ _.
  destruct (bool_decide _); by apply safe_ret.
Qed.

Lemma safe_iteration alpha eps cols k l :
  k = 0 ∨ bound self l →
  k ≤ length (plot_array l) →
  safe (defined self) (iteration solver self alpha eps cols k l)
    (λ '(_, l'), bound self l' ∧ length (plot_array l') = length (plot_array l)).
Proof.
  intros Hk Hplot. unfold iteration.
  eapply safe_bind; [apply safe_maximization_problem |]. intros pmax _.
  eapply safe_bind; [apply safe_solve, defined_save |]. intros s1 _.
  eapply safe_bind; [apply safe_assert |]. intros _ _.
  eapply safe_bind.
  { apply safe_record.
    - intros v Hv. apply elem_of_app. by right.
    - destruct Hk as [-> | (maxh & minh & -> & _ & Hlen & _)]; [by left | right; eauto]. }
  intros maxh Hmaxh.
  eapply safe_bind; [apply safe_minimization_problem |]. intros pmin _.
  eapply safe_bind; [apply safe_solve, defined_save |]. intros s2 _.
  eapply safe_bind; [apply safe_assert |]. intros _ _.
  eapply safe_bind.
  { apply safe_record.
    - intros v Hv. apply elem_of_app. by left.
    - destruct Hk as [-> | (maxh0 & minh & _ & -> & _ & Hlen)]; [by left | right; eauto]. }
  intros minh Hminh.
  eapply safe_bind; [by apply safe_stopping_criterion |].
  intros [stop plot'] Hlen. apply safe_ret. split; [| done].
  by exists maxh, minh.
Qed.

Lemma safe_for_range alpha eps cols n : ∀ k l,
  0 < n →
  k = 0 ∨ bound self l →
  k + n ≤ S (length (plot_array l)) →
  safe (defined self) (for_range n k (iteration solver self alpha eps cols) l)
    (bound self).
Proof.
  induction n as [| n IH]; intros k l Hn Hk Hplot; [lia |].
  simpl. eapply safe_bind; [apply safe_iteration; [done | lia] |].
  intros [stop l1] [Hb Hlen]. destruct stop; [by apply safe_ret |].
  destruct n as [| n']; [by apply safe_ret |].
  apply IH; [lia | by right | rewrite Hlen; lia].
Qed.

Lemma safe_iterations max_iters alpha eps :
  safe (λ _, True) (iterations solver self max_iters alpha eps) (bound self).
Proof.
  intros w r w' _. unfold iterations. rewrite bind_run.
  destruct (initialize_variables solver self w) as [[[] | e] w0] eqn:Einit.
  2: { intros [= <- <-]. exact (safe_initialize_variables _ _ _ Logic.I Einit). }
  apply initialize_variables_ok in Einit as (_ & _ & Hdef).
  rewrite bind_run. unfold reading at 1, np_zeros.
  case_decide as Hrows; [intros [= <- <-]; by right |].
  intros Hrun.
  assert (safe (defined self)
            (for_range (Z.to_nat max_iters) 0 (iteration solver self alpha eps
               (sum_list (var_size <$> self_variables self)))
               (mkLocals None None
                  (replicate (Z.to_nat (max_iters - 1))
                     (replicate (sum_list (var_size <$> self_variables self)) 0%Qc))))
            (bound self)) as Hsafe.
  { apply safe_for_range; [lia | by left |].
    cbn [plot_array]. rewrite length_replicate. lia. }
  specialize (Hsafe _ _ _ Hdef Hrun). destruct r; [| done]. by destruct Hsafe.
Qed.

Lemma safe_solve_DR max_iters alpha eps :
  safe (λ _, True) (_solve_DR solver self max_iters alpha eps) (λ _, True).
Proof.
  unfold _solve_DR. cbv zeta.
  eapply safe_bind; [apply safe_iterations |]. intros l Hb.
  eapply safe_bind; [by apply safe_finalize |]. intros _ _.
  apply safe_validate_saddlepoint.
Qed.

End SafeFacts.

(** X13.  The only exceptions of [solve] are [AssertionError] and [ValueError]:
    whatever the problem, the arguments and the solver's answers, no run
    reads a history before the first iteration bound it, indexes
    [plot_array] out of range, or takes the value of a declared variable
    that has none. *)
Theorem solve_raises (solver : Problem → store → solution)
    (self : SaddlePointProblem) (method : string) (max_iters : Z) (alpha eps : Qc)
    (w : world) (e : exn) (w' : world) :
  solve solver self method max_iters alpha eps w = (Raise e, w') →
  e = AssertionError ∨ e = ValueError.
Proof.
  unfold solve. destruct (String.eqb method "DR").
  - intros Hrun. exact (safe_solve_DR solver self _ _ _ _ _ _ Logic.I Hrun).
  - intros [= <- <-]. by right.
Qed.

Lemma solve_raises_witness :
  ∃ e w',
    solve Example.origin Example.unused "DR" 5 1%Qc (Q2Qc (1 # 10000)) Example.start
      = (Raise e, w') ∧
    (e = AssertionError ∨ e = ValueError).
Proof.
  destruct (solve Example.origin Example.unused "DR" 5 1%Qc (Q2Qc (1 # 10000))
              Example.start) as [[[] | e] w'] eqn:E; [by vm_compute in E |].
  exists e, w'. split; [done |].
  exact (solve_raises Example.origin Example.unused "DR" 5 1%Qc (Q2Qc (1 # 10000))
           Example.start e w' E).
Defined.

(** ** The width of [plot_array], lines 233 and 276-279 *)

Lemma length_aggregate_2 (c d : variable → ndarray) (vars : list variable) :
  (∀ v, v ∈ vars → length (c v) = var_size v ∧ length (d v) = var_size v) →
  length (concat (map np_mean (map (λ v, [c v; d v]) vars)))
    = sum_list (var_size <$> vars).
Proof.
  induction vars as [| v vars IH]; intros Hlen; [done |].
  cbn [map concat]. rewrite length_app, length_np_mean_2, fmap_cons.
  destruct (Hlen v) as [-> ->]; [by left |].
  cbn [sum_list]. rewrite IH; [unfold id; lia |]. intros u Hu. apply Hlen. by right.
Qed.

Lemma setitem_width plot cols i a plot' :
  setitem plot cols i a = Ok plot' → length a = cols ∨ length a = 1.
Proof.
  unfold setitem. case_bool_decide; [by left |].
  destruct a as [| x [| ? ?]]; try done. by right.
Qed.

Section WidthFacts.

Variable solver : Problem → store → solution.
Variable self : SaddlePointProblem.

(** The solver hands back, for every declared variable, an array of the
    variable's size. *)
Hypothesis sized :
  ∀ p st v,
    v ∈ min_vars self ++ max_vars self →
    length (sol_primal (solver p st) (var_id v)) = var_size v.

Lemma solved_size p w v :
  v ∈ min_vars self ++ max_vars self →
  var_id v ∈ var_id <$> problem_variables p →
  length (current (var_values (solved solver p w)) v) = var_size v.
Proof.
  intros Hdecl Hv. unfold current, solved. cbn [var_values].
  rewrite save_values_lookup, bool_decide_eq_true_2 by done. by apply sized.
Qed.

(** What an iteration records has the size of its variable. *)
Lemma iteration_sizes alpha eps cols k l w b l' w' :
  iteration solver self alpha eps cols k l w = (Ok (b, l'), w') →
  ∃ (c d : variable → ndarray) maxh minh,
    (∀ v, v ∈ max_vars self → length (c v) = var_size v) ∧
    (∀ v, v ∈ min_vars self → length (d v) = var_size v) ∧
    max_vars_hist l' = Some maxh ∧
    min_vars_hist l' = Some minh ∧
    (k = 0 → maxh = map (λ v, [c v]) (max_vars self) ∧
             minh = map (λ v, [d v]) (min_vars self)) ∧
    (∀ maxh0 minh0,
       k ≠ 0 →
       max_vars_hist l = Some maxh0 → length maxh0 = length (max_vars self) →
       min_vars_hist l = Some minh0 → length minh0 = length (min_vars self) →
       maxh = zip_with (λ h v, h ++ [c v]) maxh0 (max_vars self) ∧
       minh = zip_with (λ h v, h ++ [d v]) minh0 (min_vars self)) ∧
    (0 < k → ∃ plot', setitem (plot_array l) cols (k - 1) (aggregate minh maxh)
                        = Ok plot').
Proof.
  intros (pmax & pmin & maxh & minh & plot' & Hpmax & _ & Hrec1 & Hpmin & _ &
          Hrec2 & Hstop & ->)%iteration_ok.
  apply maximization_problem_ok in Hpmax as (cmax & _ & _ & ->).
  apply minimization_problem_ok in Hpmin as (cmin & _ & _ & ->).
  apply record_ok in Hrec1 as (_ & Hmax0 & Hmax1).
  apply record_ok in Hrec2 as (_ & Hmin0 & Hmin1).
  apply stopping_criterion_ok in Hstop as (_ & _ & _ & Hset & _).
  set (pmax := mkProblem Maximize _ cmax) in *.
  set (w1 := solved solver pmax w) in *.
  set (pmin := mkProblem Minimize _ cmin) in *.
  set (w2 := solved solver pmin w1) in *.
  exists (current (var_values w1)), (current (var_values w2)), maxh, minh.
  split; [| split; [| split; [done | split; [done | split; [| split]]]]].
  - intros v Hv. apply solved_size; [| by apply prox_in_problem].
    apply elem_of_app. by right.
  - intros v Hv. apply solved_size; [| by apply prox_in_problem].
    apply elem_of_app. by left.
  - intros ->. specialize (Hmax0 eq_refl). specialize (Hmin0 eq_refl).
    apply hist_start_ok in Hmax0 as [_ ->]. by apply hist_start_ok in Hmin0 as [_ ->].
  - intros maxh0 minh0 Hne Emax Hlmax Emin Hlmin.
    destruct (Hmax1 Hne) as (h1 & E1 & Happ1).
    destruct (Hmin1 Hne) as (h2 & E2 & Happ2).
    rewrite Emax in E1. rewrite Emin in E2. simplify_eq.
    apply hist_append_ok in Happ1 as [_ ->]; [| done].
    by apply hist_append_ok in Happ2 as [_ ->].
  - intros Hk. eauto.
Qed.

Lemma iterations_width max_iters alpha eps w l w' :
  iterations solver self max_iters alpha eps w = (Ok l, w') →
  (2 ≤ max_iters)%Z →
  sum_list (var_size <$> (min_vars self ++ max_vars self))
    = sum_list (var_size <$> self_variables self) ∨
  sum_list (var_size <$> (min_vars self ++ max_vars self)) = 1.
Proof.
  unfold iterations. intros Hrun Hmax.
  apply bind_ok in Hrun as ([] & w0 & _ & Hrun).
  apply bind_ok in Hrun as (plot & w0' & [_ ->]%reading_ok & Hrun).
  destruct (Z.to_nat max_iters) as [| [| n]] eqn:En; [lia | lia |].
  cbn [for_range] in Hrun.
  apply bind_ok in Hrun as ([b0 l1] & w1 & Hit0 & Hrun).
  destruct (iteration_step _ _ _ _ _ _ _ _ _ _ _ Hit0 (or_introl eq_refl))
    as (_ & _ & [(_ & -> & _) | (? & _)]); [| lia].
  apply bind_ok in Hrun as ([b1 l2] & w2 & Hit1 & _).
  apply iteration_sizes in Hit0
    as (c0 & d0 & maxh0 & minh0 & Hc0 & Hd0 & Emax0 & Emin0 & Hstart & _).
  destruct (Hstart eq_refl) as [-> ->]. clear Hstart.
  apply iteration_sizes in Hit1
    as (c1 & d1 & maxh1 & minh1 & Hc1 & Hd1 & _ & _ & _ & Happ & Hset).
  destruct (Happ _ _ ltac:(lia) Emax0 ltac:(by rewrite length_map)
              Emin0 ltac:(by rewrite length_map)) as [-> ->].
  destruct Hset as [plot' Hset]; [lia |].
  apply setitem_width in Hset. revert Hset.
  unfold aggregate. rewrite !zip_with_map_l.
  rewrite map_app, concat_app, length_app.
  cbn [app].
  rewrite !length_aggregate_2 by (intros v Hv; split; auto).
  by rewrite fmap_app, sum_list_with_app.
Qed.

End WidthFacts.

(** X14.  The loop can go past its second iteration only when the sizes of the
    declared variables add up to the width of [plot_array], which is the
    sum of the sizes of the variables of the objective and the constraints
    (or when they add up to 1, which numpy broadcasts along the row).  So
    with a budget of two iterations or more, a problem with a declared
    variable that is neither in the objective nor in a constraint, or with
    a variable of the objective that is not declared, does not solve. *)
Theorem solve_DR_plot_array_width (solver : Problem → store → solution)
    (self : SaddlePointProblem) (max_iters : Z) (alpha eps : Qc) (w w' : world) :
  (∀ p st v,
     v ∈ min_vars self ++ max_vars self →
     length (sol_primal (solver p st) (var_id v)) = var_size v) →
  (2 ≤ max_iters)%Z →
  _solve_DR solver self max_iters alpha eps w = (Ok tt, w') →
  sum_list (var_size <$> (min_vars self ++ max_vars self))
    = sum_list (var_size <$> self_variables self) ∨
  sum_list (var_size <$> (min_vars self ++ max_vars self)) = 1.
Proof.
  intros Hsized Hmax Hrun. unfold _solve_DR in Hrun. cbv zeta in Hrun.
  apply bind_ok in Hrun as (l & w1 & Hrun & _).
  by eapply iterations_width.
Qed.

Lemma solve_DR_plot_array_width_witness :
  ∃ w',
    _solve_DR Example.origin Example.problem 5 1%Qc (Q2Qc (1 # 10000))
      Example.start = (Ok tt, w') ∧
    (sum_list (var_size <$> (min_vars Example.problem ++ max_vars Example.problem))
       = sum_list (var_size <$> self_variables Example.problem) ∨
     sum_list (var_size <$> (min_vars Example.problem ++ max_vars Example.problem))
       = 1).
Proof.
  destruct (_solve_DR Example.origin Example.problem 5 1%Qc (Q2Qc (1 # 10000))
              Example.start) as [[[] | e] w'] eqn:E; [| by vm_compute in E].
  exists w'. split; [done |].
  apply (solve_DR_plot_array_width Example.origin Example.problem 5 1%Qc
           (Q2Qc (1 # 10000)) Example.start w').
  - intros p st v Hv. apply list_elem_of_In in Hv.
    destruct Hv as [<- | [<- | []]]; reflexivity.
  - lia.
  - exact E.
Defined.

(** ** [is_dspp], lines 172-179 *)

Lemma find_one_sided_comm (xs ys : list variable) cs :
  List.find (λ c, negb (only ys xs c || only xs ys c)) cs =
  List.find (λ c, negb (only xs ys c || only ys xs c)) cs.
Proof.
  induction cs as [| c cs IH]; [done |]. simpl.
  rewrite (orb_comm (only ys xs c)). by rewrite IH.
Qed.

(** X15.  For a problem whose two sides share no variable, [is_dspp] gives a
    verdict only when every constraint refers to variables of exactly one
    side.  At the first constraint that does not, it raises instead of
    returning [False]: [AssertionError] when the constraint refers to both
    sides, [ValueError] when it refers to neither.  The verdict is that of
    the rule check on two problems: the minimization of the objective with
    the maximizer's variables fixed at their current values, under the
    minimizer's constraints, and the maximization with the roles swapped. *)
Theorem is_dspp_closed (is_dcp : Problem → bool) (self : SaddlePointProblem)
    (st : store) :
  intersects (min_vars self) (max_vars self) = false →
  is_dspp is_dcp self st =
    match List.find (λ c, negb (only (min_vars self) (max_vars self) c
                                || only (max_vars self) (min_vars self) c))
                    (constraints self) with
    | Some c =>
        Raise (if touches (max_vars self) c then AssertionError else ValueError)
    | None =>
        Ok (is_dcp (mkProblem Minimize
                      (fix_vars_in_expr st (objective self) (max_vars self))
                      (List.filter (only (min_vars self) (max_vars self))
                                   (constraints self)))
            && is_dcp (mkProblem Maximize
                         (fix_vars_in_expr st (objective self) (min_vars self))
                         (List.filter (only (max_vars self) (min_vars self))
                                      (constraints self))))
    end.
Proof.
  intros Hdisj.
  assert (intersects (max_vars self) (min_vars self) = false) as Hdisj'
    by by rewrite intersects_comm.
  unfold is_dspp, fix_vars. rewrite !same_set_refl, orb_true_r.
  cbn [negb orb]. cbv zeta.
  rewrite (proj1 (others_disjoint (max_vars self) (min_vars self) Hdisj)).
  rewrite (proj2 (others_disjoint (min_vars self) (max_vars self) Hdisj')).
  rewrite !relevant_closed, find_one_sided_comm.
  by destruct (List.find _ (constraints self)).
Qed.

Lemma is_dspp_closed_witness :
  is_dspp (λ _, true) Example.problem ∅ = Ok true.
Proof.
  rewrite (is_dspp_closed (λ _, true) Example.problem ∅); reflexivity.
Defined.
